(** * Coordinate graphs of metadoc containers

    A shallow embedding of [metadoc/core/containers.py]: the coordinate
    validation of [Coordinates._validate_coords], the update of a
    [Coordinates] object, the inference of coordinates from index level
    names in [Container], the index bookkeeping of
    [Container.to_xarray], the textual representation of the coordinates
    ([repr_coord], [coords_str]) and the constructors of [Series] and
    [DataFrame].

    The source is Python 2 ([iterkeys], [string_types]).  Python objects
    that the code mutates are modelled as the code has them:
    - an [OrderedDict] (and a [dict], whose iteration order is fixed
      between mutations) is an association list with unique keys in
      iteration order;
    - a [set] stored in [base_deps] is an object in a store, because
      [base_deps[coord] = base_deps[deps]] shares the object and
      [base_deps[coord] |= ...] mutates it in place;
    - exceptions are the [Raise] outcome. *)

From stdpp Require Import gmap strings list fin_maps relations pretty.

Set Default Proof Using "Type".
#[local] Set Warnings "-clear-no-such-hyp".

(** ** Outcomes of fallible code *)

Inductive error : Type :=
  | GraphIsCyclicError
  | KeyError
  | AttributeError
  | AssertionError
  | TypeError
  | ValueError
  | NotImplementedError.

(** [NoFuel] is the only outcome that is not one of Python's: it says that
    the recursion bound given to the model was too small.  It is shown
    below never to be the outcome of [_validate_coords]. *)
Inductive outcome (A : Type) : Type :=
  | Ok (a : A)
  | Raise (e : error)
  | NoFuel.
Arguments Ok {A} a.
Arguments Raise {A} e.
Arguments NoFuel {A}.

#[global] Instance outcome_ret : MRet outcome := λ A a, Ok a.
#[global] Instance outcome_bind : MBind outcome := λ A B f m,
  match m with
  | Ok a => f a
  | Raise e => Raise e
  | NoFuel => NoFuel
  end.

(** [d[k]] on an optional entry: a missing key raises [KeyError]. *)
Definition getitem {A} (o : option A) : outcome A :=
  match o with
  | Some a => Ok a
  | None => Raise KeyError
  end.

(** [for x in l: body(x)] over a threaded state. *)
Fixpoint for_each {A S : Type} (body : A → S → outcome S) (l : list A) (s : S)
    : outcome S :=
  match l with
  | [] => Ok s
  | x :: l => s' ← body x s; for_each body l s'
  end.

(** [[f(x) for x in l]], stopping at the first failure. *)
Fixpoint map_each {A B : Type} (f : A → outcome B) (l : list A) : outcome (list B) :=
  match l with
  | [] => Ok []
  | x :: l => y ← f x; ys ← map_each f l; Ok (y :: ys)
  end.

(** ** Ordered dictionaries *)

Module OD.
Section ordered_dict.
Context {V : Type}.

Fixpoint get (k : string) (d : list (string * V)) : option V :=
  match d with
  | [] => None
  | (k', v) :: d => if decide (k = k') then Some v else get k d
  end.

(** [d[k] = v]: an existing key keeps its position, a new key goes last. *)
Fixpoint set (k : string) (v : V) (d : list (string * V)) : list (string * V) :=
  match d with
  | [] => [(k, v)]
  | (k', v') :: d => if decide (k = k') then (k, v) :: d else (k', v') :: set k v d
  end.

(** [d.pop(k)]: the value and the dictionary without the entry. *)
Fixpoint pop (k : string) (d : list (string * V)) : option (V * list (string * V)) :=
  match d with
  | [] => None
  | (k', v) :: d =>
      if decide (k = k') then Some (v, d)
      else '(w, d') ← pop k d; Some (w, (k', v) :: d')
  end.

(** [d.update(other)]: [d[k] = other[k]] for the keys of [other] in order. *)
Definition update (d other : list (string * V)) : list (string * V) :=
  foldl (λ acc kv, set kv.1 kv.2 acc) d other.
End ordered_dict.
End OD.

(** ** Coordinate declarations *)

(** A dependency spec as [find_coord_dependencies] tells them apart:
    [None], a string, or anything else, which it iterates ([DIter] holds
    the names in iteration order). *)
Inductive dep_spec : Type :=
  | DNone
  | DStr (dep : string)
  | DIter (deps : list string).

#[global] Instance dep_spec_eq_dec : EqDecision dep_spec.
Proof. solve_decision. Defined.

Definition spec_deps (sp : dep_spec) : list string :=
  match sp with
  | DNone => []
  | DStr x => [x]
  | DIter xs => xs
  end.

(** The argument of [_validate_coords]: an object without [iterkeys] (a
    list of names, such as [index.names]) or a mapping. *)
Inductive coords_arg : Type :=
  | ArgList (names : list string)
  | ArgDict (d : list (string * dep_spec)).

(** ** The state of [_validate_coords] *)

(** [coords] is the caller's mapping, popped during the traversal.
    [base_deps] maps a coordinate to the location of its set object in
    [sets]. *)
Record vstate : Type := VState {
  coords : list (string * dep_spec);
  base_coords : list string;
  dependencies : list (string * option (gset string));
  base_deps : gmap string nat;
  sets : list (gset string);
  visited : gset string
}.

Definition init_state (d : list (string * dep_spec)) : vstate :=
  {| coords := d; base_coords := []; dependencies := []; base_deps := ∅;
     sets := []; visited := ∅ |}.

Definition set_coords (d : list (string * dep_spec)) (s : vstate) : vstate :=
  {| coords := d; base_coords := base_coords s; dependencies := dependencies s;
     base_deps := base_deps s; sets := sets s; visited := visited s |}.

(** [visited.add(coord)] *)
Definition visited_add (c : string) (s : vstate) : vstate :=
  {| coords := coords s; base_coords := base_coords s; dependencies := dependencies s;
     base_deps := base_deps s; sets := sets s; visited := {[c]} ∪ visited s |}.

(** [base_coords.append(coord)] *)
Definition base_coords_append (c : string) (s : vstate) : vstate :=
  {| coords := coords s; base_coords := base_coords s ++ [c];
     dependencies := dependencies s; base_deps := base_deps s; sets := sets s;
     visited := visited s |}.

(** [dependencies[coord] = v] *)
Definition dependencies_set (c : string) (v : option (gset string)) (s : vstate) : vstate :=
  {| coords := coords s; base_coords := base_coords s;
     dependencies := OD.set c v (dependencies s);
     base_deps := base_deps s; sets := sets s; visited := visited s |}.

(** [base_deps[coord] = set(...)]: a new set object. *)
Definition base_deps_new (c : string) (X : gset string) (s : vstate) : vstate :=
  {| coords := coords s; base_coords := base_coords s; dependencies := dependencies s;
     base_deps := <[c := length (sets s)]> (base_deps s); sets := sets s ++ [X];
     visited := visited s |}.

(** [base_deps[coord] = base_deps[deps]]: the same set object. *)
Definition base_deps_share (c x : string) (s : vstate) : outcome vstate :=
  l ← getitem (base_deps s !! x);
  Ok {| coords := coords s; base_coords := base_coords s; dependencies := dependencies s;
        base_deps := <[c := l]> (base_deps s); sets := sets s; visited := visited s |}.

(** [dependencies[coord].add(ele)] *)
Definition dependencies_add (c x : string) (s : vstate) : outcome vstate :=
  v ← getitem (OD.get c (dependencies s));
  match v with
  | None => Raise AttributeError
  | Some X => Ok (dependencies_set c (Some ({[x]} ∪ X)) s)
  end.

(** [base_deps[coord] |= base_deps[ele]]: the object of [coord] is updated
    in place and bound to [coord] again. *)
Definition base_deps_ior (c x : string) (s : vstate) : outcome vstate :=
  lc ← getitem (base_deps s !! c);
  lx ← getitem (base_deps s !! x);
  Ok {| coords := coords s; base_coords := base_coords s; dependencies := dependencies s;
        base_deps := <[c := lc]> (base_deps s);
        sets := <[lc := (sets s !!! lc) ∪ (sets s !!! lx)]> (sets s);
        visited := visited s |}.

(** The body of [for ele in deps], given the recursive call. *)
Definition multi_step (find : string → vstate → outcome vstate) (c ele : string)
    (s : vstate) : outcome vstate :=
  s ← find ele s;
  s ← dependencies_add c ele s;
  base_deps_ior c ele s.

(** [find_coord_dependencies]; [fuel] bounds the depth of the recursion. *)
Fixpoint find_coord_dependencies (fuel : nat) (coord : string) (s : vstate)
    : outcome vstate :=
  match fuel with
  | 0 => NoFuel
  | S fuel =>
      if decide (coord ∈ visited s) then
        if decide (coord ∈ (dependencies s).*1) then Ok s
        else Raise GraphIsCyclicError
      else
        '(deps, rest) ← getitem (OD.pop coord (coords s));
        let s := set_coords rest s in
        match deps with
        | DNone =>
            let s := base_coords_append coord s in
            let s := dependencies_set coord None s in
            let s := base_deps_new coord {[coord]} s in
            Ok (visited_add coord s)
        | DStr dep =>
            let s := visited_add coord s in
            s ← find_coord_dependencies fuel dep s;
            let s := dependencies_set coord (Some {[dep]}) s in
            base_deps_share coord dep s
        | DIter deps =>
            let s := visited_add coord s in
            let s := dependencies_set coord (Some ∅) s in
            let s := base_deps_new coord ∅ s in
            for_each (multi_step (find_coord_dependencies fuel) coord) deps s
        end
  end.

(** [while len(coords) > 0: find_coord_dependencies(next(coords.iterkeys()))];
    [n] bounds the number of iterations. *)
Fixpoint validate_loop (n : nat) (s : vstate) : outcome vstate :=
  match coords s with
  | [] => Ok s
  | (c, _) :: _ =>
      match n with
      | 0 => NoFuel
      | S n =>
          s' ← find_coord_dependencies (S (length (coords s))) c s;
          validate_loop n s'
      end
  end.

(** The dictionary [base_deps] as its reader sees it: names to set values. *)
Definition base_deps_view (s : vstate) : gmap string (gset string) :=
  omap (λ l, sets s !! l) (base_deps s).

(** The triple that [_validate_coords] returns. *)
Record validated : Type := Validated {
  v_coords : list (string * option (gset string));
  v_base_coords : list string;
  v_base_dependencies : gmap string (gset string)
}.

(** [_validate_coords(coords)]: the returned triple and the caller's
    [coords] object as the call leaves it. *)
Definition _validate_coords (arg : coords_arg) : outcome (validated * coords_arg) :=
  match arg with
  | ArgList names =>
      let od := foldl (λ acc c, OD.set c (None : option (gset string)) acc) [] names in
      Ok ({| v_coords := od; v_base_coords := od.*1;
             v_base_dependencies := list_to_map ((λ c, (c, {[c]})) <$> od.*1) |},
          ArgList names)
  | ArgDict d =>
      s ← validate_loop (length d) (init_state d);
      Ok ({| v_coords := dependencies s; v_base_coords := base_coords s;
             v_base_dependencies := base_deps_view s |},
          ArgDict (coords s))
  end.

(** ** Facts about ordered dictionaries *)

Module ODFacts.
Section ordered_dict.
Context {V : Type}.
Implicit Types (d : list (string * V)) (k : string) (v : V).

Lemma get_None k d : OD.get k d = None ↔ k ∉ d.*1.
Proof.
  induction d as [|[k' v'] d IH]; csimpl.
  - split; [intros _; apply not_elem_of_nil | done].
  - rewrite not_elem_of_cons. case_decide; naive_solver.
Qed.

Lemma get_is_Some k d : is_Some (OD.get k d) ↔ k ∈ d.*1.
Proof.
  rewrite <-not_eq_None_Some, get_None.
  split; [apply dec_stable | by intros ? ?].
Qed.

Lemma get_Some_keys k v d : OD.get k d = Some v → k ∈ d.*1.
Proof. intros H. apply get_is_Some. by exists v. Qed.

Lemma get_elem_of k v d : OD.get k d = Some v → (k, v) ∈ d.
Proof.
  induction d as [|[k' v'] d IH]; csimpl; [done|].
  case_decide; intros ?; simplify_eq; [left | right; auto].
Qed.

Lemma elem_of_get k v d : NoDup (d.*1) → (k, v) ∈ d → OD.get k d = Some v.
Proof.
  induction d as [|[k' v'] d IH]; csimpl.
  - intros _ H. by apply elem_of_nil in H.
  - rewrite NoDup_cons, elem_of_cons. intros [Hk Hd] [?|Hin]; simplify_eq.
    + by rewrite decide_True.
    + rewrite decide_False; [auto|].
      intros ->. apply Hk. apply list_elem_of_fmap. by exists (k', v).
Qed.

Lemma get_set k' k v d :
  OD.get k' (OD.set k v d) = if decide (k' = k) then Some v else OD.get k' d.
Proof.
  induction d as [|[k0 v0] d IH]; simpl.
  - destruct (decide (k' = k)); done.
  - destruct (decide (k = k0)) as [->|]; simpl.
    + destruct (decide (k' = k0)); done.
    + destruct (decide (k' = k0)) as [->|].
      * by rewrite decide_False.
      * by rewrite IH.
Qed.

Lemma elem_of_keys_set k' k v d :
  k' ∈ (OD.set k v d).*1 ↔ k' = k ∨ k' ∈ d.*1.
Proof.
  rewrite <-!get_is_Some, get_set. case_decide; [|naive_solver].
  split; [by left | by eauto].
Qed.

Lemma keys_set_new k v d : k ∉ d.*1 → (OD.set k v d).*1 = d.*1 ++ [k].
Proof.
  induction d as [|[k0 v0] d IH]; csimpl; [done|].
  rewrite not_elem_of_cons. intros [? ?].
  rewrite decide_False by done. csimpl. by rewrite IH.
Qed.

Lemma keys_set_old k v d : k ∈ d.*1 → (OD.set k v d).*1 = d.*1.
Proof.
  induction d as [|[k0 v0] d IH]; csimpl.
  - intros H. by apply elem_of_nil in H.
  - case_decide; simplify_eq; [done|].
    rewrite elem_of_cons. intros [?|?]; [done|]. csimpl. by rewrite IH.
Qed.

Lemma NoDup_keys_set k v d : NoDup (d.*1) → NoDup ((OD.set k v d).*1).
Proof.
  intros Hd. destruct (decide (k ∈ d.*1)).
  - by rewrite keys_set_old.
  - rewrite keys_set_new by done. apply NoDup_app. split_and!; [done| |].
    + intros x ? ->%list_elem_of_singleton. done.
    + apply NoDup_singleton.
Qed.

Lemma pop_None k d : OD.pop k d = None ↔ k ∉ d.*1.
Proof.
  induction d as [|[k' v'] d IH]; csimpl.
  - split; [intros _; apply not_elem_of_nil | done].
  - rewrite not_elem_of_cons. case_decide; [naive_solver|].
    destruct (OD.pop k d) as [[w d']|] eqn:E; csimpl; naive_solver.
Qed.

Lemma pop_Some k d v d' :
  OD.pop k d = Some (v, d') →
  OD.get k d = Some v ∧ length d = S (length d') ∧
  (∀ k', k' ≠ k → OD.get k' d' = OD.get k' d) ∧
  (∀ k', k' ∈ d'.*1 → k' ∈ d.*1) ∧
  (NoDup (d.*1) → NoDup (d'.*1) ∧ k ∉ d'.*1).
Proof.
  revert d'. induction d as [|[k0 v0] d IH]; csimpl; [done|].
  intros d'. case_decide as Hk.
  - intros ?; simplify_eq. split_and!; [done..| | |].
    + intros k' ?. by rewrite decide_False.
    + intros k' ?. by right.
    + by intros [? ?]%NoDup_cons.
  - destruct (OD.pop k d) as [[w d0]|] eqn:E; csimpl; [|done].
    intros ?; simplify_eq. destruct (IH d0 eq_refl) as (Hg & Hl & Ho & Hs & Hn).
    split_and!; [done| csimpl; lia | | |].
    + intros k' ?. csimpl. case_decide; auto.
    + intros k'. csimpl. rewrite !elem_of_cons. naive_solver.
    + csimpl. rewrite !NoDup_cons, not_elem_of_cons. naive_solver.
Qed.
End ordered_dict.
End ODFacts.

(** Closes a decidable goal on concrete data by evaluation. *)
Ltac by_decide := apply (bool_decide_unpack _); vm_compute; exact I.

(** Closes an equation between closed terms by evaluation. *)
Ltac by_compute := vm_compute; reflexivity.

(** ** Reasoning about outcomes *)

(** [post Q E N o]: [o] returns a value in [Q], raises an error in [E], or
    runs out of fuel only if [N]. *)
Definition post {A} (Q : A → Prop) (E : error → Prop) (N : Prop) (o : outcome A) : Prop :=
  match o with
  | Ok a => Q a
  | Raise e => E e
  | NoFuel => N
  end.

Lemma post_bind {A B} (f : A → outcome B) (m : outcome A) Q E N :
  post (λ a, post Q E N (f a)) E N m → post Q E N (m ≫= f).
Proof. by destruct m. Qed.

Lemma post_mono {A} (Q Q' : A → Prop) (E E' : error → Prop) (N N' : Prop) o :
  post Q E N o → (∀ a, Q a → Q' a) → (∀ e, E e → E' e) → (N → N') → post Q' E' N' o.
Proof. destruct o; simpl; auto. Qed.

Lemma post_Ok {A} (Q : A → Prop) E N o a : post Q E N o → o = Ok a → Q a.
Proof. by intros H ->. Qed.

Lemma post_getitem {A} (Q : A → Prop) (E : error → Prop) N (o : option A) :
  (∀ a, o = Some a → Q a) → (o = None → E KeyError) → post Q E N (getitem o).
Proof. destruct o; simpl; auto. Qed.

(** The loop rule: the invariant is indexed by the elements already
    processed. *)
Lemma post_for_each {A S} (body : A → S → outcome S) (I : list A → S → Prop) E N :
  ∀ todo done s,
    I done s →
    (∀ d x r s, done ++ todo = d ++ x :: r → I d s → post (I (d ++ [x])) E N (body x s)) →
    post (I (done ++ todo)) E N (for_each body todo s).
Proof.
  induction todo as [|x todo IH]; intros done s HI Hbody; simpl.
  - by rewrite app_nil_r.
  - apply post_bind. eapply post_mono; [by apply (Hbody done x todo) | | done..].
    intros s' HI'. simpl.
    replace (done ++ x :: todo) with ((done ++ [x]) ++ todo) by by rewrite <-app_assoc.
    apply IH; [done|]. intros d0 x0 r s0 Heq. apply (Hbody d0 x0 r). by rewrite <-Heq, <-app_assoc.
Qed.

(** ** Well-formed declarations *)

(** Every name a dependency spec mentions is a declared coordinate. *)
Definition closed (d : list (string * dep_spec)) : Prop :=
  Forall (λ e : string * dep_spec, Forall (λ x, x ∈ d.*1) (spec_deps e.2)) d.

#[global] Instance closed_dec d : Decision (closed d).
Proof. unfold closed. apply _. Defined.

Lemma closed_get d c sp x :
  closed d → OD.get c d = Some sp → x ∈ spec_deps sp → x ∈ d.*1.
Proof.
  intros Hd Hc Hx. apply ODFacts.get_elem_of in Hc.
  unfold closed in Hd. rewrite Forall_forall in Hd.
  specialize (Hd _ Hc). rewrite Forall_forall in Hd. by apply Hd.
Qed.

(** ** The invariant of the traversal, for every declaration *)

(** [ginv d s]: the state [s] arose while validating the declaration [d]. *)
Record ginv (d : list (string * dep_spec)) (s : vstate) : Prop := GInv {
  g_nodup : NoDup (coords s).*1;
  g_sub : ∀ c sp, OD.get c (coords s) = Some sp → OD.get c d = Some sp;
  g_cover : ∀ c, c ∈ d.*1 → c ∈ visited s ∨ c ∈ (coords s).*1;
  g_disj : ∀ c, c ∈ visited s → c ∉ (coords s).*1;
  g_dep_vis : ∀ c, c ∈ (dependencies s).*1 → c ∈ visited s;
  g_dep_bd : ∀ c, c ∈ (dependencies s).*1 → is_Some (base_deps s !! c);
  g_bd_vis : ∀ c, is_Some (base_deps s !! c) → c ∈ visited s;
  g_loc : ∀ c l, base_deps s !! c = Some l → l < length (sets s)
}.

(** [frame s s']: what a call that starts in [s] and returns in [s'] leaves
    alone: the entries of the coordinates visited before the call, and
    the set objects that existed before it. *)
Record frame (s s' : vstate) : Prop := Frame {
  f_vis : visited s ⊆ visited s';
  f_len : length (coords s') ≤ length (coords s);
  f_deps : ∀ k, k ∈ visited s → OD.get k (dependencies s') = OD.get k (dependencies s);
  f_bd : ∀ k, k ∈ visited s → base_deps s' !! k = base_deps s !! k;
  f_sets : sets s `prefix_of` sets s'
}.

Lemma frame_refl s : frame s s.
Proof. by constructor. Qed.

Lemma frame_trans s1 s2 s3 : frame s1 s2 → frame s2 s3 → frame s1 s3.
Proof.
  intros [] []. constructor.
  - set_solver.
  - lia.
  - intros k Hk. rewrite f_deps1 by set_solver. auto.
  - intros k Hk. rewrite f_bd1 by set_solver. auto.
  - by etrans.
Qed.

Lemma ginv_init d : NoDup d.*1 → ginv d (init_state d).
Proof.
  intros Hd. constructor; simpl; try done.
  - auto.
  - intros c H. by apply elem_of_nil in H.
  - intros c H. by apply elem_of_nil in H.
  - intros c [? H]. by rewrite lookup_empty in H.
Qed.

(** The state after [coords.pop(coord)] and [visited.add(coord)]. *)
Lemma ginv_enter d c sp rest s :
  ginv d s → c ∉ visited s → OD.pop c (coords s) = Some (sp, rest) →
  ginv d (visited_add c (set_coords rest s)) ∧
  frame s (visited_add c (set_coords rest s)) ∧
  OD.get c d = Some sp ∧ length (coords s) = S (length rest).
Proof.
  intros [] Hc Hpop.
  destruct (ODFacts.pop_Some _ _ _ _ Hpop) as (Hg & Hl & Ho & Hs & Hn).
  destruct (Hn g_nodup0) as [Hn1 Hn2].
  assert (OD.get c d = Some sp) as Hcd by auto.
  split_and!; [constructor; simpl | constructor; simpl | done | done].
  - done.
  - intros c' sp' Hc'. apply g_sub0. rewrite <-Ho; [done|].
    intros ->. apply ODFacts.get_Some_keys in Hc'. done.
  - intros c' Hc'. destruct (decide (c' = c)) as [->|]; [set_solver|].
    destruct (g_cover0 c' Hc') as [?|Hin]; [set_solver|]. right.
    apply ODFacts.get_is_Some. rewrite Ho by done. by apply ODFacts.get_is_Some.
  - intros c' [->%elem_of_singleton|Hc']%elem_of_union; [done|].
    intros ?. by eapply g_disj0; eauto.
  - intros c' Hc'. set_solver.
  - done.
  - intros c' Hc'. set_solver.
  - done.
  - set_solver.
  - lia.
  - done.
  - done.
  - done.
Qed.

Lemma prefix_insert_ge {A} (l1 l2 : list A) i x :
  l1 `prefix_of` l2 → length l1 ≤ i → l1 `prefix_of` <[i:=x]> l2.
Proof.
  intros [k ->] Hi. exists (<[i - length l1 := x]> k).
  by rewrite insert_app_r_alt.
Qed.

(** [dependencies[coord] = v] followed by [base_deps[coord] = set(X)] for a
    coordinate that was not visited when the call began in [s0]. *)
Lemma ginv_register d c v X s0 s :
  ginv d s → frame s0 s → c ∉ visited s0 → c ∈ visited s →
  let s' := base_deps_new c X (dependencies_set c v s) in
  ginv d s' ∧ frame s0 s' ∧ OD.get c (dependencies s') = Some v ∧
  base_deps s' !! c = Some (length (sets s)) ∧ sets s' !! length (sets s) = Some X.
Proof.
  intros [] [] Hc0 Hc. split_and!; [constructor; simpl | constructor; simpl | simpl..]; try done.
  - intros c' [->|?]%ODFacts.elem_of_keys_set; auto.
  - intros c' [->|?]%ODFacts.elem_of_keys_set.
    + rewrite lookup_insert_eq. eauto.
    + destruct (decide (c = c')) as [->|]; [rewrite lookup_insert_eq; eauto|].
      rewrite lookup_insert_ne by done. auto.
  - intros c'. destruct (decide (c = c')) as [->|]; [done|].
    rewrite lookup_insert_ne by done. auto.
  - intros c' l. rewrite length_app. simpl.
    destruct (decide (c = c')) as [->|].
    + rewrite lookup_insert_eq. intros ?; simplify_eq. lia.
    + rewrite lookup_insert_ne by done. intros ?%g_loc0. lia.
  - intros k Hk. rewrite ODFacts.get_set. rewrite decide_False by (intros ->; done). auto.
  - intros k Hk. rewrite lookup_insert_ne by (intros ->; done). auto.
  - by apply prefix_app_r.
  - rewrite ODFacts.get_set. by rewrite decide_True.
  - by rewrite lookup_insert_eq.
  - by rewrite lookup_app_r, Nat.sub_diag.
Qed.

Lemma ginv_base_coords_append d c s : ginv d s → ginv d (base_coords_append c s).
Proof. by intros []. Qed.

Lemma frame_base_coords_append s0 c s : frame s0 s → frame s0 (base_coords_append c s).
Proof. by intros []. Qed.

(** The end of the alias branch. *)
Lemma ginv_alias_exit d c x s0 s :
  ginv d s → frame s0 s → c ∉ visited s0 → c ∈ visited s → x ∈ (dependencies s).*1 →
  ∃ l, base_deps s !! x = Some l ∧
  ∀ s', s' = {| coords := coords s; base_coords := base_coords s;
                dependencies := OD.set c (Some {[x]}) (dependencies s);
                base_deps := <[c := l]> (base_deps s); sets := sets s;
                visited := visited s |} →
    base_deps_share c x (dependencies_set c (Some {[x]}) s) = Ok s' ∧
    ginv d s' ∧ frame s0 s' ∧ c ∈ (dependencies s').*1.
Proof.
  intros [] [] Hc0 Hc Hx. destruct (g_dep_bd0 x Hx) as [l Hl]. exists l. split; [done|].
  intros s' ->. unfold base_deps_share. simpl. rewrite Hl. simpl.
  split_and!; [done | constructor; simpl | constructor; simpl | simpl]; try done.
  - intros c' [->|?]%ODFacts.elem_of_keys_set; auto.
  - intros c' [->|?]%ODFacts.elem_of_keys_set.
    + rewrite lookup_insert_eq. eauto.
    + destruct (decide (c = c')) as [->|]; [rewrite lookup_insert_eq; eauto|].
      rewrite lookup_insert_ne by done. auto.
  - intros c'. destruct (decide (c = c')) as [->|]; [done|].
    rewrite lookup_insert_ne by done. auto.
  - intros c' l'. destruct (decide (c = c')) as [->|].
    + rewrite lookup_insert_eq. intros ?; simplify_eq. eauto.
    + rewrite lookup_insert_ne by done. eauto.
  - intros k Hk. rewrite ODFacts.get_set. rewrite decide_False by (intros ->; done). auto.
  - intros k Hk. rewrite lookup_insert_ne by (intros ->; done). auto.
  - apply ODFacts.elem_of_keys_set. by left.
Qed.

(** The end of one iteration of [for ele in deps]. *)
Lemma ginv_multi_step_exit d c x X lc s0 s :
  ginv d s → frame s0 s → c ∉ visited s0 → c ∈ visited s →
  OD.get c (dependencies s) = Some (Some X) → base_deps s !! c = Some lc →
  length (sets s0) ≤ lc → x ∈ (dependencies s).*1 →
  ∃ lx, base_deps s !! x = Some lx ∧
  ∀ s', s' = {| coords := coords s; base_coords := base_coords s;
                dependencies := OD.set c (Some ({[x]} ∪ X)) (dependencies s);
                base_deps := <[c := lc]> (base_deps s);
                sets := <[lc := (sets s !!! lc) ∪ (sets s !!! lx)]> (sets s);
                visited := visited s |} →
    (dependencies_add c x s ≫= base_deps_ior c x) = Ok s' ∧
    ginv d s' ∧ frame s0 s'.
Proof.
  intros [] [] Hc0 Hc HX Hlc Hge Hx. destruct (g_dep_bd0 x Hx) as [lx Hlx].
  exists lx. split; [done|]. intros s' ->.
  unfold dependencies_add. rewrite HX. simpl.
  unfold base_deps_ior. simpl. rewrite Hlc, Hlx. simpl.
  split_and!; [done | constructor; simpl | constructor; simpl]; try done.
  - intros c' [->|?]%ODFacts.elem_of_keys_set; auto.
  - intros c' [->|?]%ODFacts.elem_of_keys_set.
    + rewrite lookup_insert_eq. eauto.
    + destruct (decide (c = c')) as [->|]; [rewrite lookup_insert_eq; eauto|].
      rewrite lookup_insert_ne by done. auto.
  - intros c'. destruct (decide (c = c')) as [->|]; [done|].
    rewrite lookup_insert_ne by done. auto.
  - intros c' l'. rewrite length_insert. destruct (decide (c = c')) as [->|].
    + rewrite lookup_insert_eq. intros ?; simplify_eq. eauto.
    + rewrite lookup_insert_ne by done. eauto.
  - intros k Hk. rewrite ODFacts.get_set. rewrite decide_False by (intros ->; done). auto.
  - intros k Hk. rewrite lookup_insert_ne by (intros ->; done). auto.
  - by apply prefix_insert_ge.
Qed.

(** The general contract of [find_coord_dependencies]: it returns or
    raises [GraphIsCyclicError], or [KeyError] when the declaration is not
    closed; a recursion bound above the number of coordinates left is
    enough.  [E] is the set of errors allowed. *)
Definition find_post (d : list (string * dep_spec)) (c : string) (s s' : vstate) : Prop :=
  ginv d s' ∧ frame s s' ∧ c ∈ (dependencies s').*1 ∧
  (c ∉ visited s → length (coords s') < length (coords s)).

Lemma find_general d (E : error → Prop) :
  E GraphIsCyclicError → (¬ closed d → E KeyError) →
  ∀ fuel c s, ginv d s → (closed d → c ∈ d.*1) → length (coords s) < fuel →
    post (find_post d c s) E False (find_coord_dependencies fuel c s).
Proof.
  intros HE1 HE2. induction fuel as [|fuel IH]; intros c s Hs Hc Hfuel; [lia|].
  simpl. destruct (decide (c ∈ visited s)) as [Hv|Hv].
  { case_decide; simpl; [|done]. split_and!; [done|apply frame_refl|done..]. }
  apply post_bind, post_getitem.
  2:{ intros Hp%ODFacts.pop_None. destruct (decide (closed d)) as [Hd|Hd]; [|auto].
      destruct (g_cover _ _ Hs c (Hc Hd)); done. }
  intros [sp rest] Hpop. simpl.
  destruct (ginv_enter _ _ _ _ _ Hs Hv Hpop) as (Hs1 & Hf1 & Hsp & Hlen).
  assert (c ∈ visited (visited_add c (set_coords rest s))) as Hv1 by (simpl; set_solver).
  destruct sp as [|x|xs].
  - (* base coordinate *)
    simpl.
    destruct (ginv_register d c None {[c]} s _
      (ginv_base_coords_append _ c _ Hs1) (frame_base_coords_append _ c _ Hf1) Hv Hv1)
      as (Hs2 & Hf2 & Hg2 & _).
    split_and!; [exact Hs2 | exact Hf2 | | simpl; lia].
    eapply ODFacts.get_Some_keys, Hg2.
  - (* alias *)
    apply post_bind.
    eapply post_mono; [apply (IH x _ Hs1) | | done..].
    + intros Hd. eapply closed_get; [done..|]. simpl. by left.
    + simpl. lia.
    + intros s2 (Hs2 & Hf2 & Hx2 & _). simpl.
      destruct (ginv_alias_exit d c x s s2 Hs2) as (l & Hl & Hex); [..|done|].
      * by eapply frame_trans.
      * done.
      * apply (f_vis _ _ Hf2). done.
      * destruct (Hex _ eq_refl) as (-> & Hs3 & Hf3 & Hc3). simpl.
        split_and!; [done..|]. intros _. destruct Hf2. simpl in *. lia.
  - (* several dependencies *)
    set (s1 := visited_add c (set_coords rest s)) in *.
    destruct (ginv_register d c (Some ∅) ∅ s s1 Hs1 Hf1 Hv Hv1) as (Hs2 & Hf2 & Hg2 & Hb2 & _).
    set (s2 := base_deps_new c ∅ (dependencies_set c (Some ∅) s1)) in *.
    change (post (find_post d c s) E False
      (for_each (multi_step (find_coord_dependencies fuel) c) xs s2)).
    pose (L := λ (_ : list string) (si : vstate),
      ginv d si ∧ frame s si ∧ c ∈ visited si ∧
      (∃ X, OD.get c (dependencies si) = Some (Some X)) ∧
      base_deps si !! c = Some (length (sets s)) ∧
      length (coords si) < length (coords s)).
    eapply post_mono; [apply (post_for_each _ L E False xs [] s2) | | done..].
    + split_and!; [done..| by eauto | done | simpl; lia].
    + intros dn x r si Hxs (Hsi & Hfi & Hci & [X HX] & Hbi & Hli).
      unfold multi_step. apply post_bind.
      eapply post_mono; [apply (IH x _ Hsi) | | done..].
      * intros Hd. eapply closed_get; [done..|]. simpl in Hxs. simpl. rewrite Hxs.
        apply elem_of_app. right. by left.
      * lia.
      * intros sj (Hsj & Hfj & Hxj & _).
        destruct (ginv_multi_step_exit d c x X (length (sets s)) s sj Hsj) as (lx & Hlx & Hex);
          [by eapply frame_trans | done | by apply (f_vis _ _ Hfj)
          | by rewrite (f_deps _ _ Hfj) | by rewrite (f_bd _ _ Hfj) | done | done |].
        destruct (Hex _ eq_refl) as (Heq & Hsk & Hfk).
        change (post (L (dn ++ [x])) E False
          (dependencies_add c x sj ≫= base_deps_ior c x)).
        rewrite Heq. simpl. split_and!; [done..| | | |]; simpl.
        -- by apply (f_vis _ _ Hfj).
        -- eexists. rewrite ODFacts.get_set. by rewrite decide_True.
        -- by rewrite lookup_insert_eq.
        -- destruct Hfj. lia.
    + intros s' (Hs' & Hf' & Hc' & [X HX] & _ & Hl'). split_and!; [done..| |done].
      by eapply ODFacts.get_Some_keys.
Qed.

Lemma find_unfold fuel coord s :
  find_coord_dependencies (S fuel) coord s =
    if decide (coord ∈ visited s) then
      if decide (coord ∈ (dependencies s).*1) then Ok s
      else Raise GraphIsCyclicError
    else
      '(deps, rest) ← getitem (OD.pop coord (coords s));
      let s := set_coords rest s in
      match deps with
      | DNone =>
          Ok (visited_add coord (base_deps_new coord {[coord]}
               (dependencies_set coord None (base_coords_append coord s))))
      | DStr dep =>
          s ← find_coord_dependencies fuel dep (visited_add coord s);
          base_deps_share coord dep (dependencies_set coord (Some {[dep]}) s)
      | DIter deps =>
          for_each (multi_step (find_coord_dependencies fuel) coord) deps
            (base_deps_new coord ∅ (dependencies_set coord (Some ∅) (visited_add coord s)))
      end.
Proof. done. Qed.

Lemma validate_loop_unfold n s :
  validate_loop (S n) s =
    match coords s with
    | [] => Ok s
    | (c, _) :: _ =>
        s' ← find_coord_dependencies (S (length (coords s))) c s; validate_loop n s'
    end.
Proof. done. Qed.

#[local] Arguments find_coord_dependencies : simpl never.
#[local] Arguments validate_loop : simpl never.

Lemma validate_loop_general d (E : error → Prop) :
  E GraphIsCyclicError → (¬ closed d → E KeyError) →
  ∀ n s, ginv d s → length (coords s) ≤ n →
    post (λ s', ginv d s' ∧ frame s s' ∧ coords s' = []) E False (validate_loop n s).
Proof.
  intros HE1 HE2. induction n as [|n IH]; intros s Hs Hn.
  - destruct (coords s) as [|[c sp] cs] eqn:Hcs; simpl in *; [|lia].
    unfold validate_loop. rewrite Hcs. simpl. split_and!; [done|apply frame_refl|done].
  - rewrite validate_loop_unfold. destruct (coords s) as [|[c sp] cs] eqn:Hcs.
    { simpl. split_and!; [done|apply frame_refl|done]. }
    assert (OD.get c (coords s) = Some sp) as Hget.
    { rewrite Hcs. simpl. by rewrite decide_True. }
    assert (c ∉ visited s) as Hv.
    { intros Hv. eapply g_disj; [done..|]. by eapply ODFacts.get_Some_keys. }
    apply post_bind. rewrite <-Hcs.
    eapply post_mono; [apply (find_general d E HE1 HE2 _ c s Hs) | | done..].
    + intros _. eapply ODFacts.get_Some_keys, g_sub; done.
    + lia.
    + intros s1 (Hs1 & Hf1 & _ & Hlt). simpl.
      eapply post_mono; [apply (IH s1 Hs1) | | done..].
      * specialize (Hlt Hv). rewrite Hcs in Hlt. lia.
      * intros s2 (Hs2 & Hf2 & Hc2). split_and!; [done| |done]. by eapply frame_trans.
Qed.

(** ** Returned results, step by step *)

Lemma bind_Ok {A B} (m : outcome A) (f : A → outcome B) b :
  m ≫= f = Ok b → ∃ a, m = Ok a ∧ f a = Ok b.
Proof. destruct m; simpl; [eauto|done..]. Qed.

Lemma getitem_Ok {A} (o : option A) a : getitem o = Ok a → o = Some a.
Proof. destruct o; simpl; congruence. Qed.

Lemma for_each_Ok {A S} (body : A → S → outcome S) (I : S → Prop) l s s' :
  for_each body l s = Ok s' →
  I s → (∀ x s s', x ∈ l → I s → body x s = Ok s' → I s') → I s'.
Proof.
  revert s. induction l as [|x l IH]; simpl; intros s Hfe Hs Hbody.
  - by simplify_eq.
  - apply bind_Ok in Hfe as (s1 & H1 & H2). eapply (IH s1); [done| |].
    + eapply Hbody; [|done..]. by left.
    + intros ????. apply Hbody. by right.
Qed.

Lemma base_deps_share_Ok c x s s' :
  base_deps_share c x s = Ok s' →
  coords s' = coords s ∧ visited s' = visited s ∧
  dependencies s' = dependencies s ∧ base_coords s' = base_coords s.
Proof.
  unfold base_deps_share. intros (l & _ & ?)%bind_Ok. by simplify_eq.
Qed.

Lemma dependencies_add_Ok c x s s' :
  dependencies_add c x s = Ok s' →
  coords s' = coords s ∧ visited s' = visited s ∧ base_coords s' = base_coords s ∧
  (∀ k, k ∈ (dependencies s').*1 ↔ k = c ∨ k ∈ (dependencies s).*1).
Proof.
  unfold dependencies_add. intros ([X|] & _ & ?)%bind_Ok; [|done]. simplify_eq. simpl.
  split_and!; [done..|]. intros k. apply ODFacts.elem_of_keys_set.
Qed.

Lemma base_deps_ior_Ok c x s s' :
  base_deps_ior c x s = Ok s' →
  coords s' = coords s ∧ visited s' = visited s ∧
  dependencies s' = dependencies s ∧ base_coords s' = base_coords s.
Proof.
  unfold base_deps_ior. intros (lc & _ & (lx & _ & ?)%bind_Ok)%bind_Ok. by simplify_eq.
Qed.

Lemma pop_of_get {V} k (v : V) d : OD.get k d = Some v → ∃ d', OD.pop k d = Some (v, d').
Proof.
  intros Hg. destruct (OD.pop k d) as [[w d']|] eqn:E.
  - apply ODFacts.pop_Some in E as (Hg' & _). exists d'. congruence.
  - apply ODFacts.pop_None in E. by apply ODFacts.get_Some_keys in Hg.
Qed.

(** ** Alias cycles *)

(** Two coordinates, each declared as the single-name dependency of the
    other, are still to be resolved in [s]. *)
Definition pending (a b : string) (s : vstate) : Prop :=
  OD.get a (coords s) = Some (DStr b) ∧ OD.get b (coords s) = Some (DStr a) ∧
  (a ∉ visited s) ∧ (b ∉ visited s) ∧
  (a ∉ (dependencies s).*1) ∧ (b ∉ (dependencies s).*1).

Lemma pending_sym a b s : pending a b s → pending b a s.
Proof. unfold pending. naive_solver. Qed.

(** Resolving a coordinate of the cycle does not return. *)
Lemma find_on_cycle a b fuel s s' :
  pending a b s → find_coord_dependencies fuel a s ≠ Ok s'.
Proof.
  intros (Ha & Hb & Hva & Hvb & Hda & Hdb) Hfind.
  destruct fuel as [|fuel]; [done|].
  rewrite find_unfold, decide_False in Hfind by done.
  destruct (pop_of_get _ _ _ Ha) as [rest Hpop]. rewrite Hpop in Hfind. simpl in Hfind.
  apply bind_Ok in Hfind as (s1 & Hfind & _).
  destruct fuel as [|fuel]; [done|]. rewrite find_unfold in Hfind. simpl in Hfind.
  destruct (decide (b = a)) as [->|Hne].
  - rewrite decide_True, decide_False in Hfind by set_solver. done.
  - rewrite decide_False in Hfind by set_solver.
    apply ODFacts.pop_Some in Hpop as (_ & _ & Ho & _).
    rewrite <-Ho in Hb by done.
    destruct (pop_of_get _ _ _ Hb) as [rest' Hpop']. rewrite Hpop' in Hfind. simpl in Hfind.
    apply bind_Ok in Hfind as (s2 & Hfind & _).
    destruct fuel as [|fuel]; [done|]. rewrite find_unfold in Hfind. simpl in Hfind.
    rewrite decide_True, decide_False in Hfind by set_solver. done.
Qed.

(** A call that returns has left the cycle alone. *)
Lemma find_pending a b fuel :
  ∀ c s s', pending a b s → find_coord_dependencies fuel c s = Ok s' → pending a b s'.
Proof.
  induction fuel as [|fuel IH]; intros c s s' Hp Hfind; [done|].
  destruct (decide (c = a)) as [->|Hca].
  { by eapply find_on_cycle in Hfind. }
  destruct (decide (c = b)) as [->|Hcb].
  { by eapply find_on_cycle in Hfind; [|apply pending_sym]. }
  rewrite find_unfold in Hfind. case_decide.
  { case_decide; by simplify_eq. }
  apply bind_Ok in Hfind as ([sp rest] & Hpop%getitem_Ok & Hfind).
  apply ODFacts.pop_Some in Hpop as (_ & _ & Ho & _).
  assert (∀ v X, pending a b
    (base_deps_new c X (dependencies_set c v (visited_add c (set_coords rest s))))) as Hreg.
  { intros v X. destruct Hp as (Ha & Hb & Hva & Hvb & Hda & Hdb).
    unfold pending. simpl. rewrite !Ho by done. rewrite !ODFacts.elem_of_keys_set.
    split_and!; [done..|set_solver|set_solver|naive_solver|naive_solver]. }
  assert (pending a b (visited_add c (set_coords rest s))) as Hent.
  { destruct Hp as (Ha & Hb & Hva & Hvb & Hda & Hdb).
    unfold pending. simpl. rewrite !Ho by done.
    split_and!; [done..|set_solver|set_solver|done|done]. }
  destruct sp as [|x|xs]; simpl in Hfind.
  - simplify_eq. apply (Hreg None {[c]}).
  - apply bind_Ok in Hfind as (s1 & Hfind & Hshare).
    apply IH in Hfind; [|done]. apply base_deps_share_Ok in Hshare as (Hc & Hv & Hd & _).
    destruct Hfind as (Ha & Hb & Hva & Hvb & Hda & Hdb).
    unfold pending. rewrite Hc, Hv, Hd. simpl. rewrite !ODFacts.elem_of_keys_set.
    split_and!; [done..|naive_solver|naive_solver].
  - eapply (for_each_Ok _ (pending a b)); [done|apply (Hreg (Some ∅) ∅)|].
    intros x si sk _ Hsi Hstep. unfold multi_step in Hstep.
    apply bind_Ok in Hstep as (sj & Hfind' & Hstep).
    apply bind_Ok in Hstep as (sj' & Hadd & Hior).
    apply IH in Hfind'; [|done].
    apply dependencies_add_Ok in Hadd as (Hc1 & Hv1 & _ & Hd1).
    apply base_deps_ior_Ok in Hior as (Hc2 & Hv2 & Hd2 & _).
    destruct Hfind' as (Ha & Hb & Hva & Hvb & Hda & Hdb).
    unfold pending. rewrite Hc2, Hv2, Hd2, Hc1, Hv1, !Hd1.
    split_and!; [done..|naive_solver|naive_solver].
Qed.

Lemma validate_loop_pending a b n :
  ∀ s s', pending a b s → validate_loop n s ≠ Ok s'.
Proof.
  induction n as [|n IH]; intros s s' Hp Hloop.
  - unfold validate_loop in Hloop. destruct Hp as (Ha & _).
    destruct (coords s) as [|[c sp] cs]; [done|done].
  - rewrite validate_loop_unfold in Hloop.
    destruct (coords s) as [|[c sp] cs] eqn:Hcs.
    { destruct Hp as (Ha & _). by rewrite Hcs in Ha. }
    apply bind_Ok in Hloop as (s1 & Hfind & Hloop).
    eapply IH; [|done]. by eapply find_pending.
Qed.

Lemma pending_init a b d :
  OD.get a d = Some (DStr b) → OD.get b d = Some (DStr a) → pending a b (init_state d).
Proof.
  intros Ha Hb. unfold pending. simpl.
  split_and!; [done|done|set_solver..| |]; apply not_elem_of_nil.
Qed.

(** Whatever else a declaration holds, validation does not return when it
    contains an alias cycle. *)
Lemma validate_alias_cycle_not_Ok d a b res :
  OD.get a d = Some (DStr b) → OD.get b d = Some (DStr a) →
  _validate_coords (ArgDict d) ≠ Ok res.
Proof.
  intros Ha Hb Hval. unfold _validate_coords in Hval.
  apply bind_Ok in Hval as (s & Hloop & _).
  by eapply validate_loop_pending in Hloop; [|apply pending_init].
Qed.

(** The outcomes of validating a mapping: a result, with the caller's
    mapping emptied, [GraphIsCyclicError], or [KeyError] when a dependency
    name is not declared.  The recursion bounds of the model are enough. *)
Lemma validate_general d :
  NoDup d.*1 →
  post (λ res, ∃ s, ginv d s ∧ coords s = [] ∧
          res = ({| v_coords := dependencies s; v_base_coords := base_coords s;
                    v_base_dependencies := base_deps_view s |}, ArgDict []))
       (λ e, e = GraphIsCyclicError ∨ (e = KeyError ∧ ¬ closed d)) False
       (_validate_coords (ArgDict d)).
Proof.
  intros Hnd. unfold _validate_coords. apply post_bind.
  eapply post_mono; [apply (validate_loop_general d
    (λ e, e = GraphIsCyclicError ∨ (e = KeyError ∧ ¬ closed d))) | | done..].
  - by left.
  - intros ?. by right.
  - by apply ginv_init.
  - done.
  - intros s (Hs & _ & Hc). simpl. exists s. by rewrite Hc.
Qed.

(** C5. A declaration (a mapping with unique keys whose dependency names
    are all declared) that contains two coordinates, each the single-name
    dependency of the other, as in [{a: 'b', b: 'a'}], is rejected:
    [_validate_coords] raises [GraphIsCyclicError]. *)
Theorem alias_cycle_raises d a b :
  NoDup d.*1 → closed d →
  OD.get a d = Some (DStr b) → OD.get b d = Some (DStr a) →
  _validate_coords (ArgDict d) = Raise GraphIsCyclicError.
Proof.
  intros Hnd Hd Ha Hb.
  pose proof (validate_general d Hnd) as Hpost.
  pose proof (validate_alias_cycle_not_Ok d a b) as Hnot.
  destruct (_validate_coords (ArgDict d)) as [res|e|]; simpl in Hpost.
  - by destruct (Hnot res).
  - by destruct Hpost as [->|[_ ?]].
  - done.
Qed.

Lemma alias_cycle_raises_witness :
  _validate_coords (ArgDict [("a", DStr "b"); ("b", DStr "a")]) = Raise GraphIsCyclicError.
Proof.
  apply (alias_cycle_raises _ "a" "b").
  - by_decide.
  - by_decide.
  - reflexivity.
  - reflexivity.
Defined.

(** Beside a dangling dependency name the traversal can fail on the key
    first, before it reaches the cycle. *)
Example dangling_name_KeyError :
  _validate_coords (ArgDict [("c", DStr "z"); ("a", DStr "b"); ("b", DStr "a")])
  = Raise KeyError.
Proof. by_compute. Qed.

(** ** The [Coordinates] class *)

Module Coordinates.

(** The fields that [__set__] assigns. *)
Record t : Type := Make {
  _coords : list (string * option (gset string));
  _base_coords : list string;
  _base_dependencies : gmap string (gset string)
}.

Definition of_validated (r : validated) : t :=
  {| _coords := v_coords r; _base_coords := v_base_coords r;
     _base_dependencies := v_base_dependencies r |}.

(** [__set__(self, coords)]: the three fields are assigned from the result
    of [_validate_coords]; the second component is the caller's [coords]
    object after the call. *)
Definition __set__ (coords : coords_arg) : outcome (t * coords_arg) :=
  '(r, coords) ← _validate_coords coords;
  Ok (of_validated r, coords).

(** [__init__(self, coords={})] *)
Definition __init__ (coords : coords_arg) : outcome (t * coords_arg) :=
  __set__ coords.

(** The values of [self._coords] as dependency specs when the mapping is
    validated again: [None], or a set, which [for ele in deps] iterates
    in the order [set_iter] that Python leaves unspecified. *)
Definition stored_spec (set_iter : gset string → list string)
    (v : option (gset string)) : dep_spec :=
  match v with
  | None => DNone
  | Some X => DIter (set_iter X)
  end.

Definition stored_specs (set_iter : gset string → list string)
    (d : list (string * option (gset string))) : list (string * dep_spec) :=
  prod_map id (stored_spec set_iter) <$> d.

(** The local [_coords] of [_update]: [self._coords.copy()] after
    [_coords.update(coords)]. *)
Definition merged (set_iter : gset string → list string) (self : t)
    (coords : list (string * dep_spec)) : list (string * dep_spec) :=
  OD.update (stored_specs set_iter (_coords self)) coords.

(** [_update(self, coords)] for an object that has its fields (the branch
    [not hasattr(self, '_coords')] is that of an object whose constructor
    did not complete).  The result is the outcome and the object after
    the call; the fields are assigned one by one, after the assertion. *)
Definition _update (set_iter : gset string → list string)
    (coords : list (string * dep_spec)) (self : t) : outcome unit * t :=
  let _coords0 := merged set_iter self coords in
  match _validate_coords (ArgDict _coords0) with
  | Ok (r, _) =>
      if decide (0 < length (v_base_coords r)) then
        let self := {| _coords := v_coords r; _base_coords := _base_coords self;
                       _base_dependencies := _base_dependencies self |} in
        let self := {| _coords := _coords self; _base_coords := v_base_coords r;
                       _base_dependencies := _base_dependencies self |} in
        let self := {| _coords := _coords self; _base_coords := _base_coords self;
                       _base_dependencies := v_base_dependencies r |} in
        (Ok (), self)
      else (Raise AssertionError, self)
  | Raise e => (Raise e, self)
  | NoFuel => (NoFuel, self)
  end.

(** [copy(self)]: [Coordinates(self._coords.copy())], a new object made by
    validating a copy of the stored mapping. *)
Definition copy (set_iter : gset string → list string) (self : t) : outcome t :=
  '(c, _) ← __init__ (ArgDict (stored_specs set_iter (_coords self))); Ok c.

End Coordinates.

(** ** The caller's mapping is consumed *)

Lemma validate_loop_Ok_empty n : ∀ s s', validate_loop n s = Ok s' → coords s' = [].
Proof.
  induction n as [|n IH]; intros s s' Hloop.
  - unfold validate_loop in Hloop. destruct (coords s) as [|[c sp] cs] eqn:Hcs; [|done].
    by simplify_eq.
  - rewrite validate_loop_unfold in Hloop.
    destruct (coords s) as [|[c sp] cs] eqn:Hcs; [by simplify_eq|].
    apply bind_Ok in Hloop as (s1 & _ & Hloop). by eapply IH.
Qed.

(** C9. Validation consumes its input: when [_validate_coords] returns on
    a mapping, every entry has been popped from the caller's mapping, which
    is empty after the call; the same holds for the mapping given to the
    constructor of [Coordinates], which then returns too. *)
Theorem validate_consumes_mapping d r arg' :
  _validate_coords (ArgDict d) = Ok (r, arg') →
  arg' = ArgDict [] ∧
  Coordinates.__init__ (ArgDict d) = Ok (Coordinates.of_validated r, ArgDict []).
Proof.
  intros Hval. assert (arg' = ArgDict []) as ->.
  { unfold _validate_coords in Hval. apply bind_Ok in Hval as (s & Hloop & Hres).
    apply validate_loop_Ok_empty in Hloop. rewrite Hloop in Hres. by simplify_eq. }
  split; [done|]. unfold Coordinates.__init__, Coordinates.__set__. by rewrite Hval.
Qed.

Lemma validate_consumes_mapping_witness :
  let d := [("ind", DNone); ("region", DStr "ind")] in
  let r := {| v_coords := [("ind", None); ("region", Some {["ind"]})];
              v_base_coords := ["ind"];
              v_base_dependencies := {["ind" := {["ind"]}; "region" := {["ind"]}]} |} in
  _validate_coords (ArgDict d) = Ok (r, ArgDict []) ∧
  (ArgDict [] = ArgDict [] ∧
   Coordinates.__init__ (ArgDict d) = Ok (Coordinates.of_validated r, ArgDict [])).
Proof.
  intros d r.
  assert (_validate_coords (ArgDict d) = Ok (r, ArgDict [])) as H by by_compute.
  split; [exact H|]. exact (validate_consumes_mapping d r (ArgDict []) H).
Defined.

(** ** The path for an argument without [iterkeys] *)

(** The names of [l] at their first occurrence, without those in [seen]:
    the keys that [OrderedDict(zip(l, ...))] adds to the keys [seen]. *)
Fixpoint first_occ (seen l : list string) : list string :=
  match l with
  | [] => []
  | x :: l => if decide (x ∈ seen) then first_occ seen l else x :: first_occ (seen ++ [x]) l
  end.

Lemma elem_of_first_occ l : ∀ seen c, c ∈ first_occ seen l ↔ c ∈ l ∧ c ∉ seen.
Proof.
  induction l as [|x l IH]; intros seen c; simpl.
  - rewrite elem_of_nil. naive_solver.
  - case_decide as Hx.
    + rewrite IH, elem_of_cons. naive_solver.
    + rewrite !elem_of_cons, IH, not_elem_of_app, list_elem_of_singleton.
      destruct (decide (c = x)); naive_solver.
Qed.

Lemma NoDup_first_occ l : ∀ seen, NoDup (first_occ seen l).
Proof.
  induction l as [|x l IH]; intros seen; simpl; [apply NoDup_nil_2|].
  case_decide; [done|]. apply NoDup_cons. split; [|done].
  rewrite elem_of_first_occ, not_elem_of_app, list_elem_of_singleton. naive_solver.
Qed.

Lemma sublist_first_occ l : ∀ seen, first_occ seen l `sublist_of` l.
Proof.
  induction l as [|x l IH]; intros seen; simpl; [done|].
  case_decide; [by apply sublist_cons | by apply sublist_skip].
Qed.

Lemma first_occ_NoDup l :
  ∀ seen, NoDup l → (∀ x, x ∈ l → x ∉ seen) → first_occ seen l = l.
Proof.
  induction l as [|x l IH]; intros seen Hl Hseen; simpl; [done|].
  apply NoDup_cons in Hl as [Hx Hl].
  rewrite decide_False by (apply Hseen; by left). f_equal. apply IH; [done|].
  intros y Hy. rewrite not_elem_of_app, list_elem_of_singleton. split.
  - apply Hseen. by right.
  - by intros ->.
Qed.

Lemma elem_of_set {V} k (v : V) d kv : kv ∈ OD.set k v d → kv = (k, v) ∨ kv ∈ d.
Proof.
  induction d as [|[k0 v0] d IH]; simpl.
  - intros ->%list_elem_of_singleton. by left.
  - case_decide; rewrite !elem_of_cons; naive_solver.
Qed.

Lemma foldl_set_None l :
  ∀ acc : list (string * option (gset string)),
    Forall (λ kv, kv.2 = None) acc →
    (foldl (λ acc c, OD.set c None acc) acc l).*1 = acc.*1 ++ first_occ acc.*1 l ∧
    Forall (λ kv, kv.2 = None) (foldl (λ acc c, OD.set c None acc) acc l).
Proof.
  induction l as [|x l IH]; intros acc Hacc; simpl.
  - by rewrite app_nil_r.
  - destruct (IH (OD.set x None acc)) as [Hk Hv].
    { apply Forall_forall. intros kv [->|Hin]%elem_of_set; [done|].
      rewrite Forall_forall in Hacc. auto. }
    split; [|done]. rewrite Hk. case_decide as Hx.
    + by rewrite ODFacts.keys_set_old.
    + rewrite ODFacts.keys_set_new by done. by rewrite <-app_assoc.
Qed.

(** C10. An argument without [iterkeys], such as a list of index level
    names, is not resolved at all: [_validate_coords] returns, whatever the
    list (no cycle detection, no check of the base set), every entry is a
    base coordinate with dependency [None], the base coordinates are the
    names in the order of the list (a repeated name is kept once), the
    base-dependency set of each is the singleton of itself, and the
    caller's list is unchanged. *)
Theorem validate_list_path names :
  ∃ r, _validate_coords (ArgList names) = Ok (r, ArgList names) ∧
    v_base_coords r = (v_coords r).*1 ∧
    Forall (λ kv, kv.2 = None) (v_coords r) ∧
    v_base_coords r = first_occ [] names ∧
    NoDup (v_base_coords r) ∧ v_base_coords r `sublist_of` names ∧
    (∀ c, c ∈ v_base_coords r ↔ c ∈ names) ∧
    (∀ c, v_base_dependencies r !! c = if decide (c ∈ names) then Some {[c]} else None).
Proof.
  eexists. split; [reflexivity|]. simpl.
  destruct (foldl_set_None names []) as [Hk Hv]; [done|]. simpl in Hk.
  rewrite Hk. split_and!; [done|done|done|apply NoDup_first_occ|apply sublist_first_occ| |].
  - intros c. rewrite elem_of_first_occ. split; [naive_solver|].
    intros ?. split; [done|]. apply not_elem_of_nil.
  - intros c. case_decide as Hc.
    + apply elem_of_list_to_map_1.
      * rewrite <-list_fmap_compose. simpl. rewrite list_fmap_id. apply NoDup_first_occ.
      * apply list_elem_of_fmap. exists c. split; [done|].
        apply elem_of_first_occ. split; [done|]. apply not_elem_of_nil.
    + apply not_elem_of_list_to_map_1.
      rewrite <-list_fmap_compose. simpl. rewrite list_fmap_id.
      rewrite elem_of_first_occ. naive_solver.
Qed.

(** The list path in the form the later proofs use: the result, its keys,
    its values and its base-dependency map. *)
Lemma list_path_result names :
  ∃ r, _validate_coords (ArgList names) = Ok (r, ArgList names) ∧
    v_base_coords r = (v_coords r).*1 ∧
    Forall (λ kv, kv.2 = None) (v_coords r) ∧
    v_base_coords r = first_occ [] names ∧
    (∀ c, v_base_dependencies r !! c = if decide (c ∈ names) then Some {[c]} else None).
Proof.
  eexists. split; [reflexivity|]. simpl.
  destruct (foldl_set_None names []) as [Hk Hv]; [done|]. simpl in Hk.
  rewrite Hk. split_and!; [done|done|done|].
  intros c. case_decide as Hc.
  - apply elem_of_list_to_map_1.
    + rewrite <-list_fmap_compose. simpl. rewrite list_fmap_id. apply NoDup_first_occ.
    + apply list_elem_of_fmap. exists c. split; [done|].
      apply elem_of_first_occ. split; [done|]. apply not_elem_of_nil.
  - apply not_elem_of_list_to_map_1.
    rewrite <-list_fmap_compose. simpl. rewrite list_fmap_id.
    rewrite elem_of_first_occ. naive_solver.
Qed.

(** Without repeated names the base coordinates are the list itself. *)
Lemma validate_list_path_NoDup names r arg' :
  NoDup names → _validate_coords (ArgList names) = Ok (r, arg') →
  v_base_coords r = names ∧ v_coords r = (λ c, (c, None)) <$> names.
Proof.
  intros Hnd Hval. destruct (list_path_result names) as (r' & Hval' & Hbk & Hv & Hfo & _).
  rewrite Hval in Hval'. simplify_eq.
  rewrite first_occ_NoDup in Hfo; [|done|intros; apply not_elem_of_nil].
  split; [done|]. rewrite Hfo in Hbk. rewrite Hbk.
  clear -Hv. induction Hv as [|[k v] l Hkv Hl IH]; csimpl in *; [done|]. by subst; f_equal.
Qed.

(** ** Declarations without a base coordinate *)

(** Every coordinate has a dependency spec other than [None]. *)
Definition all_nonnull (d : list (string * dep_spec)) : Prop :=
  Forall (λ e : string * dep_spec, e.2 ≠ DNone) d.

#[global] Instance all_nonnull_dec d : Decision (all_nonnull d).
Proof. unfold all_nonnull. apply _. Defined.

Definition nobase (s : vstate) : Prop :=
  base_coords s = [] ∧ all_nonnull (coords s).

Lemma pop_elem_of {V} k (v : V) d d' :
  OD.pop k d = Some (v, d') → (k, v) ∈ d ∧ ∀ kv, kv ∈ d' → kv ∈ d.
Proof.
  revert d'. induction d as [|[k0 v0] d IH]; intros d'; simpl; [done|].
  case_decide.
  - intros ?; simplify_eq. split; [by left|]. intros kv ?. by right.
  - destruct (OD.pop k d) as [[w d0]|]; simpl; [|done].
    intros ?; simplify_eq. destruct (IH d0 eq_refl) as [H1 H2].
    split; [by right|]. intros kv. rewrite !elem_of_cons. naive_solver.
Qed.

Lemma find_nobase fuel :
  ∀ c s s', nobase s → find_coord_dependencies fuel c s = Ok s' → nobase s'.
Proof.
  induction fuel as [|fuel IH]; intros c s s' [Hb Hnn] Hfind; [done|].
  rewrite find_unfold in Hfind. case_decide.
  { case_decide; by simplify_eq. }
  apply bind_Ok in Hfind as ([sp rest] & Hpop%getitem_Ok & Hfind).
  apply pop_elem_of in Hpop as [Hin Hrest].
  unfold all_nonnull in Hnn. rewrite Forall_forall in Hnn.
  assert (nobase (visited_add c (set_coords rest s))) as Hent.
  { split; [done|]. apply Forall_forall. intros kv ?. simpl in *. auto. }
  destruct sp as [|x|xs]; simpl in Hfind.
  - by destruct (Hnn _ Hin).
  - apply bind_Ok in Hfind as (s1 & Hfind & Hshare).
    apply IH in Hfind as [Hb1 Hnn1]; [|done].
    apply base_deps_share_Ok in Hshare as (Hc & _ & _ & Hbc).
    split; [by rewrite Hbc | by rewrite Hc].
  - eapply (for_each_Ok _ nobase); [done|exact Hent|].
    intros x si sk _ Hsi Hstep. unfold multi_step in Hstep.
    apply bind_Ok in Hstep as (sj & Hfind' & Hstep).
    apply bind_Ok in Hstep as (sj' & Hadd & Hior).
    apply IH in Hfind' as [Hb1 Hnn1]; [|done].
    apply dependencies_add_Ok in Hadd as (Hc1 & _ & Hbc1 & _).
    apply base_deps_ior_Ok in Hior as (Hc2 & _ & _ & Hbc2).
    split; [by rewrite Hbc2, Hbc1 | by rewrite Hc2, Hc1].
Qed.

Lemma validate_loop_nobase n :
  ∀ s s', nobase s → validate_loop n s = Ok s' → base_coords s' = [].
Proof.
  induction n as [|n IH]; intros s s' Hs Hloop.
  - unfold validate_loop in Hloop. destruct (coords s) as [|[c sp] cs]; [|done].
    simplify_eq. apply Hs.
  - rewrite validate_loop_unfold in Hloop.
    destruct (coords s) as [|[c sp] cs] eqn:Hcs; [simplify_eq; apply Hs|].
    apply bind_Ok in Hloop as (s1 & Hfind & Hloop).
    eapply IH; [|done]. by eapply find_nobase.
Qed.

Lemma validate_nobase d r arg' :
  all_nonnull d → _validate_coords (ArgDict d) = Ok (r, arg') → v_base_coords r = [].
Proof.
  intros Hd Hval. unfold _validate_coords in Hval.
  apply bind_Ok in Hval as (s & Hloop & Hres). simplify_eq. simpl.
  by eapply validate_loop_nobase; [|done].
Qed.

Lemma NoDup_update {V} (d other : list (string * V)) :
  NoDup d.*1 → NoDup (OD.update d other).*1.
Proof.
  unfold OD.update. revert d. induction other as [|[k v] other IH]; intros d Hd; simpl; [done|].
  apply IH. by apply ODFacts.NoDup_keys_set.
Qed.

Lemma NoDup_merged set_iter self adds :
  NoDup (Coordinates._coords self).*1 → NoDup (Coordinates.merged set_iter self adds).*1.
Proof.
  intros Hnd. apply NoDup_update. unfold Coordinates.stored_specs.
  rewrite <-list_fmap_compose.
  by replace (fst ∘ prod_map id (Coordinates.stored_spec set_iter))
    with (fst : string * option (gset string) → string) by done.
Qed.

(** The outcomes of [_update], by the outcome of the validation of the
    merged mapping. *)
Lemma update_cases set_iter self adds :
  NoDup (Coordinates._coords self).*1 →
  (∃ r arg', _validate_coords (ArgDict (Coordinates.merged set_iter self adds)) = Ok (r, arg') ∧
     v_base_coords r ≠ [] ∧
     Coordinates._update set_iter adds self = (Ok (), Coordinates.of_validated r)) ∨
  (∃ r arg', _validate_coords (ArgDict (Coordinates.merged set_iter self adds)) = Ok (r, arg') ∧
     v_base_coords r = [] ∧
     Coordinates._update set_iter adds self = (Raise AssertionError, self)) ∨
  (∃ e, _validate_coords (ArgDict (Coordinates.merged set_iter self adds)) = Raise e ∧
     (e = GraphIsCyclicError ∨ e = KeyError) ∧
     Coordinates._update set_iter adds self = (Raise e, self)).
Proof.
  intros Hnd. pose proof (validate_general _ (NoDup_merged set_iter self adds Hnd)) as Hpost.
  unfold Coordinates._update.
  destruct (_validate_coords (ArgDict (Coordinates.merged set_iter self adds)))
    as [[r arg']|e|]; simpl in Hpost; [| |done].
  - destruct (v_base_coords r) as [|b bs] eqn:Hb.
    + right; left. exists r, arg'. rewrite decide_False by (simpl; lia). done.
    + left. exists r, arg'. rewrite decide_True by (simpl; lia).
      split_and!; [done|by rewrite Hb|]. unfold Coordinates.of_validated. simpl.
      by rewrite Hb.
  - right; right. exists e. split_and!; [done| |done]. naive_solver.
Qed.

(** C3, as the code has it.  When every coordinate of a mapping has a
    dependency spec other than [None], validation yields no base
    coordinate: if [_validate_coords] returns, its list of base coordinates
    is empty.  [_update] with a merged mapping of that form never succeeds
    and leaves the object unchanged: it raises the assertion that there is
    a base coordinate when the validation returns, and the error of the
    validation ([GraphIsCyclicError], or [KeyError] for a name that is not
    declared) otherwise. *)
Theorem nonnull_never_base d :
  all_nonnull d →
  (∀ r arg', _validate_coords (ArgDict d) = Ok (r, arg') → v_base_coords r = []) ∧
  (∀ set_iter self adds,
     NoDup (Coordinates._coords self).*1 → Coordinates.merged set_iter self adds = d →
     ∃ e, Coordinates._update set_iter adds self = (Raise e, self) ∧
       ((e = AssertionError ∧ ∃ r arg', _validate_coords (ArgDict d) = Ok (r, arg')) ∨
        ((e = GraphIsCyclicError ∨ e = KeyError) ∧ _validate_coords (ArgDict d) = Raise e))).
Proof.
  intros Hd. split.
  - intros r arg'. by apply validate_nobase.
  - intros set_iter self adds Hnd <-.
    destruct (update_cases set_iter self adds Hnd)
      as [(r & arg' & Hval & Hb & Hup)|[(r & arg' & Hval & Hb & Hup)|(e & Hval & He & Hup)]].
    + destruct Hb. by eapply validate_nobase.
    + exists AssertionError. split; [done|]. left. split; [done|]. by exists r, arg'.
    + exists e. split; [done|]. by right.
Qed.

Lemma nonnull_never_base_witness :
  let d := [("a", DIter [])] in
  let r0 := {| v_coords := [("a", Some ∅)]; v_base_coords := [];
               v_base_dependencies := {["a" := ∅]} |} in
  let self := Coordinates.Make [] [] ∅ in
  all_nonnull d ∧
  ((∀ r arg', _validate_coords (ArgDict d) = Ok (r, arg') → v_base_coords r = []) ∧
   (∀ set_iter self adds,
      NoDup (Coordinates._coords self).*1 → Coordinates.merged set_iter self adds = d →
      ∃ e, Coordinates._update set_iter adds self = (Raise e, self) ∧
        ((e = AssertionError ∧ ∃ r arg', _validate_coords (ArgDict d) = Ok (r, arg')) ∨
         ((e = GraphIsCyclicError ∨ e = KeyError) ∧
          _validate_coords (ArgDict d) = Raise e)))) ∧
  (_validate_coords (ArgDict d) = Ok (r0, ArgDict []) ∧ v_base_coords r0 = []) ∧
  (NoDup (Coordinates._coords self).*1 ∧ Coordinates.merged elements self d = d ∧
   Coordinates._update elements d self = (Raise AssertionError, self)).
Proof.
  intros d r0 self.
  assert (all_nonnull d) as Hd by by_decide.
  pose proof (nonnull_never_base d Hd) as H.
  assert (_validate_coords (ArgDict d) = Ok (r0, ArgDict [])) as Hval by by_compute.
  assert (NoDup (Coordinates._coords self).*1) as Hnd by by_decide.
  assert (Coordinates.merged elements self d = d) as Hm by by_compute.
  split; [exact Hd|]. split; [exact H|]. destruct H as [H1 H2].
  split; [split; [exact Hval|exact (H1 r0 _ Hval)]|].
  split; [exact Hnd|]. split; [exact Hm|].
  destruct (H2 elements self d Hnd Hm) as (e & Hup & [[-> _]|[_ Hr]]); [exact Hup|].
  rewrite Hval in Hr. discriminate Hr.
Defined.

(** C3 as stated does not hold.  The constructor validates the mapping
    [{a: []}], whose only dependency spec is not [None], and returns an
    object without a base coordinate; and [_update] with [{a: 'b', b: 'a'}]
    fails with [GraphIsCyclicError], not with the assertion on the base
    set. *)
Lemma nonnull_not_always_EmptyBaseSet :
  (all_nonnull [("a", DIter [])] ∧
   Coordinates.__init__ (ArgDict [("a", DIter [])])
   = Ok (Coordinates.Make [("a", Some ∅)] [] {["a" := ∅]}, ArgDict [])) ∧
  (all_nonnull [("a", DStr "b"); ("b", DStr "a")] ∧
   Coordinates.__init__ (ArgDict []) = Ok (Coordinates.Make [] [] ∅, ArgDict []) ∧
   Coordinates._update elements [("a", DStr "b"); ("b", DStr "a")] (Coordinates.Make [] [] ∅)
   = (Raise GraphIsCyclicError, Coordinates.Make [] [] ∅)).
Proof.
  split_and!.
  - by_decide.
  - by_compute.
  - by_decide.
  - by_compute.
  - by_compute.
Qed.

(** ** Acyclic declarations *)

(** [x] is a direct dependency of [c]. *)
Definition dep_edge (d : list (string * dep_spec)) (c x : string) : Prop :=
  ∃ sp, OD.get c d = Some sp ∧ x ∈ spec_deps sp.

(** No coordinate depends on itself through one or more steps. *)
Definition acyclic (d : list (string * dep_spec)) : Prop :=
  ∀ c, ¬ tc (dep_edge d) c c.

(** A declaration has a base coordinate. *)
Definition has_base (d : list (string * dep_spec)) : Prop :=
  Exists (λ e : string * dep_spec, e.2 = DNone) d.

#[global] Instance has_base_dec d : Decision (has_base d).
Proof. unfold has_base. apply _. Defined.

(** A ranking of the coordinates that every dependency decreases shows
    that a declaration is acyclic. *)
Definition ranked (rk : string → nat) (d : list (string * dep_spec)) : Prop :=
  Forall (λ e : string * dep_spec, Forall (λ x, rk x < rk e.1) (spec_deps e.2)) d.

#[global] Instance ranked_dec rk d : Decision (ranked rk d).
Proof. unfold ranked. apply _. Defined.

Lemma ranked_acyclic rk d : ranked rk d → acyclic d.
Proof.
  intros Hrk. assert (∀ c x, tc (dep_edge d) c x → rk x < rk c) as Htc.
  { intros c x Hcx. induction Hcx as [c x Hcx|c y x Hcy _ IH].
    - destruct Hcx as (sp & Hsp%ODFacts.get_elem_of & Hx).
      unfold ranked in Hrk. rewrite Forall_forall in Hrk. specialize (Hrk _ Hsp).
      rewrite Forall_forall in Hrk. by apply Hrk.
    - destruct Hcy as (sp & Hsp%ODFacts.get_elem_of & Hy).
      unfold ranked in Hrk. rewrite Forall_forall in Hrk. specialize (Hrk _ Hsp).
      rewrite Forall_forall in Hrk. specialize (Hrk _ Hy). simpl in Hrk. lia. }
  intros c Hc. specialize (Htc _ _ Hc). lia.
Qed.

(** The value of the set object that [base_deps] binds to [x]. *)
Definition val (s : vstate) (x : string) : option (gset string) :=
  base_deps s !! x ≫= λ l, sets s !! l.

Lemma base_deps_view_lookup s x : base_deps_view s !! x = val s x.
Proof. unfold base_deps_view, val. by rewrite lookup_omap. Qed.

Lemma val_Some s x B :
  val s x = Some B ↔ ∃ l, base_deps s !! x = Some l ∧ sets s !! l = Some B.
Proof.
  unfold val. destruct (base_deps s !! x) as [l|]; simpl; naive_solver.
Qed.

(** [B] is the set of the base coordinates that [f] reaches through zero
    or more dependency steps. *)
Definition reach_set (d : list (string * dep_spec)) (f : string) (B : gset string) : Prop :=
  ∀ b, b ∈ B ↔ OD.get b d = Some DNone ∧ rtc (dep_edge d) f b.

Lemma reach_set_base d f : OD.get f d = Some DNone → reach_set d f {[f]}.
Proof.
  intros Hf b. rewrite elem_of_singleton. split.
  - by intros ->.
  - intros [_ [?|(y & (sp & Hsp & Hy) & _)]%rtc_inv]; [done|].
    rewrite Hf in Hsp. simplify_eq. by apply elem_of_nil in Hy.
Qed.

Lemma reach_set_alias d f x B :
  OD.get f d = Some (DStr x) → reach_set d x B → reach_set d f B.
Proof.
  intros Hf HB b. rewrite (HB b). split; intros [Hb Hr]; (split; [done|]).
  - eapply rtc_l; [|done]. exists (DStr x). split; [done|]. simpl. by left.
  - apply rtc_inv in Hr as [->|(y & (sp & Hsp & Hy) & Hr)]; [congruence|].
    rewrite Hf in Hsp. simplify_eq. simpl in Hy. by apply list_elem_of_singleton in Hy as ->.
Qed.

Lemma reach_set_multi d f xs Bs :
  OD.get f d = Some (DIter xs) → Forall2 (reach_set d) xs Bs → reach_set d f (⋃ Bs).
Proof.
  intros Hf HBs b. rewrite elem_of_union_list. split.
  - intros (Bx & HBx & Hb).
    apply list_elem_of_lookup in HBx as [i Hi].
    destruct (Forall2_lookup_r _ _ _ _ _ HBs Hi) as (x & Hx & Hreach).
    destruct (proj1 (Hreach b) Hb) as [Hb' Hr]. split; [done|].
    eapply rtc_l; [|done]. exists (DIter xs). split; [done|]. simpl.
    apply list_elem_of_lookup. by exists i.
  - intros [Hb [->|(y & (sp & Hsp & Hy) & Hr)]%rtc_inv]; [congruence|].
    rewrite Hf in Hsp. simplify_eq. simpl in Hy.
    apply list_elem_of_lookup in Hy as [i Hi].
    destruct (Forall2_lookup_l _ _ _ _ _ HBs Hi) as (By & HBy & Hreach).
    exists By. split; [apply list_elem_of_lookup; by exists i|]. by apply Hreach.
Qed.

(** [fin d P s f]: the coordinate [f] is resolved in [s]; its set holds the
    base coordinates that [f] reaches, and is what its dependency spec
    asks for, in terms of the sets of its dependencies, which are resolved
    too.  [P] are the coordinates whose call is still in progress. *)
Definition fin (d : list (string * dep_spec)) (P : gset string) (s : vstate)
    (f : string) : Prop :=
  f ∈ (dependencies s).*1 ∧
  ∃ sp B, OD.get f d = Some sp ∧ val s f = Some B ∧ reach_set d f B ∧
    match sp with
    | DNone => B = {[f]} ∧ f ∈ base_coords s
    | DStr x => x ∈ visited s ∧ (x ∉ P) ∧ val s x = Some B
    | DIter xs =>
        ∃ Bs, Forall2 (λ x Bx, x ∈ visited s ∧ (x ∉ P) ∧ val s x = Some Bx) xs Bs ∧ B = ⋃ Bs
    end.

(** The invariant of the traversal of an acyclic declaration: the visited
    coordinates are in progress or resolved, and no resolved coordinate
    shares its set object with a coordinate in progress. *)
Record ainv (d : list (string * dep_spec)) (P : gset string) (s : vstate) : Prop := AInv {
  a_in : P ⊆ visited s;
  a_fin : ∀ f, f ∈ visited s → f ∉ P → fin d P s f;
  a_sep : ∀ p f l, p ∈ P → base_deps s !! p = Some l →
            f ∈ visited s → f ∉ P → base_deps s !! f ≠ Some l
}.

(** What a step keeps of the coordinates resolved in [s]. *)
Definition stab (P P' : gset string) (s s' : vstate) : Prop :=
  (∀ x, x ∈ visited s → x ∉ P →
     x ∈ visited s' ∧ (x ∉ P') ∧ ∀ B, val s x = Some B → val s' x = Some B) ∧
  (∀ k, k ∈ (dependencies s).*1 → k ∈ (dependencies s').*1) ∧
  (∀ b, b ∈ base_coords s → b ∈ base_coords s').

Lemma fin_mono d P P' s s' f :
  fin d P s f → stab P P' s s' → f ∈ visited s → f ∉ P → fin d P' s' f.
Proof.
  intros (Hfd & sp & B & Hsp & HB & Hreach & Hspec) (Hst & Hdeps & Hbase) Hf HfP.
  split; [auto|]. exists sp, B. split_and!; [done|by apply (Hst f)|done|].
  destruct sp as [|x|xs].
  - destruct Hspec. auto.
  - destruct Hspec as (Hx & HxP & HxB). destruct (Hst x Hx HxP) as (? & ? & Hv). auto.
  - destruct Hspec as (Bs & HBs & ->). exists Bs. split; [|done].
    eapply Forall2_impl; [done|]. intros x Bx (Hx & HxP & HxB). simpl.
    destruct (Hst x Hx HxP) as (? & ? & Hv). auto.
Qed.

Lemma val_frame d s s' x B :
  ginv d s → frame s s' → val s x = Some B → val s' x = Some B.
Proof.
  intros Hs Hf (l & Hl & HB)%val_Some. apply val_Some. exists l. split.
  - rewrite (f_bd _ _ Hf); [done|]. eapply g_bd_vis; eauto.
  - eapply prefix_lookup_Some; [done|]. apply Hf.
Qed.

(** Entering the call of a coordinate that is not a base coordinate. *)
Lemma ainv_enter d P c rest s :
  ginv d s → ainv d P s → c ∉ visited s →
  ainv d (P ∪ {[c]}) (visited_add c (set_coords rest s)).
Proof.
  intros Hs [Hin Hfin Hsep] Hc. constructor; simpl.
  - set_solver.
  - intros f Hf HfP. assert (f ∈ visited s ∧ f ∉ P) as [Hf' HfP'] by set_solver.
    eapply fin_mono; [by apply Hfin| |done..].
    split_and!; [|done..]. intros x Hx HxP. split_and!; [set_solver|set_solver|done].
  - intros p f l Hp Hl Hf HfP.
    assert (p ≠ c) as Hpc.
    { intros ->. apply Hc. eapply g_bd_vis; eauto. }
    apply (Hsep p); set_solver.
Qed.

(** The state after the branch of a base coordinate. *)
Lemma ainv_base d P c rest s :
  ginv d s → ainv d P s → c ∉ visited s → OD.get c d = Some DNone →
  ainv d P (visited_add c (base_deps_new c {[c]}
    (dependencies_set c None (base_coords_append c (set_coords rest s))))).
Proof.
  intros Hs [Hin Hfin Hsep] Hc Hcd.
  assert (∀ x B, x ∈ visited s → val s x = Some B →
    val (visited_add c (base_deps_new c {[c]}
      (dependencies_set c None (base_coords_append c (set_coords rest s))))) x = Some B)
    as Hval.
  { intros x B Hx (l & Hl & HB)%val_Some. apply val_Some. exists l. simpl.
    rewrite lookup_insert_ne by (intros ->; done). split; [done|].
    rewrite lookup_app_l; [done|]. by eapply lookup_lt_Some. }
  constructor; simpl.
  - set_solver.
  - intros f Hf HfP. destruct (decide (f = c)) as [->|Hfc].
    + split; [simpl; apply ODFacts.elem_of_keys_set; by left|].
      exists DNone, {[c]}. split_and!; [done| |by apply reach_set_base|done|].
      * apply val_Some. exists (length (sets s)). simpl.
        rewrite lookup_insert_eq. split; [done|].
        by rewrite lookup_app_r, Nat.sub_diag.
      * simpl. apply elem_of_app. right. by left.
    + assert (f ∈ visited s) as Hf' by set_solver.
      eapply fin_mono; [by apply Hfin| |done..].
      split_and!; simpl.
      * intros x Hx HxP. split_and!; [set_solver|done|]. intros B. by apply Hval.
      * intros k ?. apply ODFacts.elem_of_keys_set. by right.
      * intros b ?. apply elem_of_app. by left.
  - intros p f l Hp Hl Hf HfP.
    assert (p ≠ c) as Hpc by set_solver.
    rewrite lookup_insert_ne in Hl by done.
    destruct (decide (f = c)) as [->|Hfc].
    + rewrite lookup_insert_eq. intros ?; simplify_eq.
      apply (g_loc _ _ Hs) in Hl. lia.
    + rewrite lookup_insert_ne by done. apply (Hsep p); set_solver.
Qed.

(** The end of the alias branch: [c] is resolved, with the set object of
    its dependency [x]. *)
Lemma ainv_alias_exit d P c x l s :
  ginv d s → ainv d (P ∪ {[c]}) s → c ∉ P → c ∈ visited s →
  OD.get c d = Some (DStr x) → x ∈ visited s → x ∉ P ∪ {[c]} →
  base_deps s !! x = Some l →
  ainv d P {| coords := coords s; base_coords := base_coords s;
              dependencies := OD.set c (Some {[x]}) (dependencies s);
              base_deps := <[c := l]> (base_deps s); sets := sets s;
              visited := visited s |}.
Proof.
  intros Hs [Hin Hfin Hsep] HcP Hc Hcd Hx HxP Hl.
  set (s' := {| coords := coords s; base_coords := base_coords s;
                dependencies := OD.set c (Some {[x]}) (dependencies s);
                base_deps := <[c := l]> (base_deps s); sets := sets s;
                visited := visited s |}).
  assert (∀ y B, y ≠ c → val s y = Some B → val s' y = Some B) as Hval.
  { intros y B Hy (ly & Hly & HB)%val_Some. apply val_Some. exists ly. simpl.
    by rewrite lookup_insert_ne. }
  assert (stab (P ∪ {[c]}) P s s') as Hstab.
  { split_and!; simpl.
    - intros y Hy HyP. split_and!; [done|set_solver|]. intros B. apply Hval. set_solver.
    - intros k ?. apply ODFacts.elem_of_keys_set. by right.
    - done. }
  constructor.
  - simpl. set_solver.
  - intros f Hf HfP. destruct (decide (f = c)) as [->|Hfc].
    + destruct (Hfin x Hx HxP) as (_ & spx & B & _ & HB & Hreach & _).
      split; [simpl; apply ODFacts.elem_of_keys_set; by left|].
      exists (DStr x), B.
      split_and!; [done| |by eapply reach_set_alias|done|set_solver|].
      * apply val_Some in HB as (lx & Hlx & HB). simplify_eq.
        apply val_Some. exists l. simpl. by rewrite lookup_insert_eq.
      * apply Hval; [set_solver|done].
    + eapply fin_mono; [apply Hfin| |done|]; [done|set_solver|done|set_solver].
  - intros p f lp Hp Hlp Hf HfP. simpl in *.
    assert (p ≠ c) as Hpc by set_solver.
    rewrite lookup_insert_ne in Hlp by done.
    destruct (decide (f = c)) as [->|Hfc].
    + rewrite lookup_insert_eq. intros ?; simplify_eq.
      by apply (Hsep p x lp); [set_solver|..].
    + rewrite lookup_insert_ne by done. apply (Hsep p); set_solver.
Qed.

(** The start of the branch for several dependencies: [c] gets an empty
    set object of its own. *)
Lemma ainv_multi_enter d P c v s :
  ginv d s → ainv d P s → c ∈ P →
  ainv d P (base_deps_new c ∅ (dependencies_set c v s)).
Proof.
  intros Hs [Hin Hfin Hsep] HcP.
  assert (stab P P s (base_deps_new c ∅ (dependencies_set c v s))) as Hstab.
  { split_and!; simpl.
    - intros y Hy HyP. split_and!; [done..|].
      intros B (ly & Hly & HB)%val_Some. apply val_Some. exists ly. simpl.
      rewrite lookup_insert_ne by (intros ->; done). split; [done|].
      rewrite lookup_app_l; [done|]. by eapply lookup_lt_Some.
    - intros k ?. apply ODFacts.elem_of_keys_set. by right.
    - done. }
  constructor; simpl.
  - done.
  - intros f Hf HfP. by eapply fin_mono; [apply Hfin|..].
  - intros p f l Hp Hl Hf HfP.
    assert (f ≠ c) as Hfc by (intros ->; done).
    rewrite lookup_insert_ne by done.
    destruct (decide (p = c)) as [->|Hpc].
    + rewrite lookup_insert_eq in Hl. simplify_eq.
      intros Hl%(g_loc _ _ Hs). lia.
    + rewrite lookup_insert_ne in Hl by done. by apply (Hsep p).
Qed.

(** The end of one iteration: the set object of [c], which is in
    progress, is updated in place; no resolved coordinate sees it. *)
Lemma ainv_multi_step d P c x X lc lx s :
  ginv d s → ainv d P s → c ∈ P → base_deps s !! c = Some lc →
  let s' := {| coords := coords s; base_coords := base_coords s;
               dependencies := OD.set c (Some ({[x]} ∪ X)) (dependencies s);
               base_deps := <[c := lc]> (base_deps s);
               sets := <[lc := (sets s !!! lc) ∪ (sets s !!! lx)]> (sets s);
               visited := visited s |} in
  ainv d P s' ∧ stab P P s s'.
Proof.
  intros Hs [Hin Hfin Hsep] HcP Hlc s'.
  assert (base_deps s' = base_deps s) as Hbd by (simpl; by rewrite insert_id).
  assert (stab P P s s') as Hstab.
  { split_and!; simpl.
    - intros y Hy HyP. split_and!; [done..|].
      intros B (ly & Hly & HB)%val_Some. apply val_Some. exists ly.
      rewrite Hbd. split; [done|]. simpl. rewrite list_lookup_insert_ne; [done|].
      intros ->. by apply (Hsep c y ly).
    - intros k ?. apply ODFacts.elem_of_keys_set. by right.
    - done. }
  split; [|done]. constructor.
  - done.
  - intros f Hf HfP. by eapply fin_mono; [apply Hfin|..].
  - intros p f l Hp Hl Hf HfP. rewrite Hbd in *. by apply (Hsep p).
Qed.

(** The end of the branch for several dependencies: [c] is resolved, with
    the union of the sets of its dependencies. *)
Lemma ainv_multi_exit d P c xs Bs lc s :
  ginv d s → ainv d (P ∪ {[c]}) s → c ∉ P → c ∈ visited s →
  OD.get c d = Some (DIter xs) → c ∈ (dependencies s).*1 →
  base_deps s !! c = Some lc → sets s !! lc = Some (⋃ Bs) →
  Forall2 (λ x Bx, x ∈ visited s ∧ (x ∉ P ∪ {[c]}) ∧ val s x = Some Bx) xs Bs →
  (∀ p l, p ∈ P → base_deps s !! p = Some l → l ≠ lc) →
  ainv d P s.
Proof.
  intros Hs [Hin Hfin Hsep] HcP Hc Hcd Hcdep Hlc HBs Hxs Hfresh.
  assert (stab (P ∪ {[c]}) P s s) as Hstab.
  { split_and!; [|done..]. intros y Hy HyP. split_and!; [done|set_solver|done]. }
  constructor.
  - set_solver.
  - intros f Hf HfP. destruct (decide (f = c)) as [->|Hfc].
    + split; [done|]. exists (DIter xs), (⋃ Bs). split_and!; [done| | |].
      * apply val_Some. by exists lc.
      * apply (reach_set_multi d c xs Bs); [done|]. eapply Forall2_impl; [done|].
        intros y By (Hy & HyP & HyB). simpl.
        destruct (Hfin y Hy HyP) as (_ & spy & By' & _ & HBy' & Hreach & _).
        rewrite HyB in HBy'. by simplify_eq.
      * exists Bs. split; [|done]. eapply Forall2_impl; [done|].
        intros y By (? & ? & ?). simpl. split_and!; [done|set_solver|done].
    + eapply fin_mono; [apply Hfin| |done|]; [done|set_solver|done|set_solver].
  - intros p f l Hp Hl Hf HfP. destruct (decide (f = c)) as [->|Hfc].
    + rewrite Hlc. intros ?; simplify_eq. by eapply Hfresh.
    + apply (Hsep p); set_solver.
Qed.

(** On an acyclic declaration [find_coord_dependencies] returns, with the
    coordinate resolved.  [P] are the coordinates in progress, each of
    which reaches [c] through the dependencies. *)
Lemma find_acyclic d :
  closed d → acyclic d →
  ∀ fuel c s P,
    ginv d s → ainv d P s → c ∈ d.*1 →
    (∀ p, p ∈ P → tc (dep_edge d) p c) → length (coords s) < fuel →
    post (λ s', find_post d c s s' ∧ ainv d P s' ∧ c ∉ P) (λ _, False) False
      (find_coord_dependencies fuel c s).
Proof.
  intros Hd Hac. induction fuel as [|fuel IH]; intros c s P Hs Ha Hc Hanc Hfuel; [lia|].
  assert (c ∉ P) as HcP.
  { intros Hin. by apply (Hac c), Hanc. }
  rewrite find_unfold. destruct (decide (c ∈ visited s)) as [Hv|Hv].
  { destruct (a_fin _ _ _ Ha c Hv HcP) as [Hcdep _]. rewrite decide_True by done. simpl.
    split_and!; [|done..]. split_and!; [done|apply frame_refl|done..]. }
  apply post_bind, post_getitem.
  2:{ intros Hp%ODFacts.pop_None. destruct (g_cover _ _ Hs c Hc); done. }
  intros [sp rest] Hpop. simpl.
  destruct (ginv_enter _ _ _ _ _ Hs Hv Hpop) as (Hs1 & Hf1 & Hsp & Hlen).
  assert (c ∈ visited (visited_add c (set_coords rest s))) as Hv1 by (simpl; set_solver).
  assert (∀ x, x ∈ spec_deps sp → ∀ p, p ∈ P ∪ {[c]} → tc (dep_edge d) p x) as Hanc1.
  { intros x Hx p Hp. assert (dep_edge d c x) as Hcx by by exists sp.
    destruct (decide (p = c)) as [->|Hpc]; [by apply tc_once|].
    eapply tc_r; [|done]. apply Hanc. set_solver. }
  destruct sp as [|x|xs].
  - (* base coordinate *)
    destruct (ginv_register d c None {[c]} s _
      (ginv_base_coords_append _ c _ Hs1) (frame_base_coords_append _ c _ Hf1) Hv Hv1)
      as (Hs2 & Hf2 & Hg2 & _).
    simpl. split_and!; [|by apply ainv_base|done].
    split_and!; [exact Hs2 | exact Hf2 | | simpl; lia].
    eapply ODFacts.get_Some_keys, Hg2.
  - (* alias *)
    apply post_bind.
    eapply post_mono; [apply (IH x _ (P ∪ {[c]}) Hs1) | | done..].
    + by apply ainv_enter.
    + eapply closed_get; [done..|]. simpl. by left.
    + apply Hanc1. simpl. by left.
    + simpl. lia.
    + intros s2 ((Hs2 & Hf2 & Hx2 & _) & Ha2 & HxP). simpl.
      assert (c ∈ visited s2) as Hc2 by by apply (f_vis _ _ Hf2).
      destruct (ginv_alias_exit d c x s s2 Hs2) as (l & Hl & Hex);
        [by eapply frame_trans|done..|].
      destruct (Hex _ eq_refl) as (-> & Hs3 & Hf3 & Hc3). simpl.
      split_and!; [| |done].
      * split_and!; [done..|]. intros _. destruct Hf2. simpl in *. lia.
      * apply (ainv_alias_exit d P c x l s2); try done.
        by eapply g_dep_vis.
  - (* several dependencies *)
    set (s1 := visited_add c (set_coords rest s)) in *.
    destruct (ginv_register d c (Some ∅) ∅ s s1 Hs1 Hf1 Hv Hv1)
      as (Hs2 & Hf2 & Hg2 & Hb2 & Hset2).
    assert (ainv d (P ∪ {[c]}) (base_deps_new c ∅ (dependencies_set c (Some ∅) s1))) as Ha2.
    { apply ainv_multi_enter; [done| |set_solver]. by apply ainv_enter. }
    set (s2 := base_deps_new c ∅ (dependencies_set c (Some ∅) s1)) in *.
    set (lc := length (sets s)).
    pose (L := λ (dn : list string) (si : vstate),
      ginv d si ∧ frame s si ∧ c ∈ visited si ∧
      (∃ X, OD.get c (dependencies si) = Some (Some X)) ∧
      base_deps si !! c = Some lc ∧
      length (coords si) < length (coords s) ∧
      ainv d (P ∪ {[c]}) si ∧
      ∃ Bs, Forall2 (λ x Bx, x ∈ visited si ∧ (x ∉ P ∪ {[c]}) ∧ val si x = Some Bx) dn Bs ∧
            sets si !! lc = Some (⋃ Bs)).
    eapply post_mono; [apply (post_for_each _ L (λ _, False) False xs [] s2) | | done..].
    + split_and!; [done..| by eauto | done | simpl; lia | done |].
      exists []. split; [constructor|]. done.
    + intros dn x r si Hxs (Hsi & Hfi & Hci & [X HX] & Hbi & Hli & Hai & Bs & HBs & Hlci).
      assert (x ∈ xs) as Hx.
      { simpl in Hxs. rewrite Hxs. apply elem_of_app. right. by left. }
      unfold multi_step. apply post_bind.
      eapply post_mono; [apply (IH x _ (P ∪ {[c]}) Hsi Hai) | | done..].
      * by eapply closed_get.
      * by apply Hanc1.
      * lia.
      * intros sj ((Hsj & Hfj & Hxj & _) & Haj & HxP).
        assert (x ∈ visited sj) as Hxv by by eapply g_dep_vis.
        assert (base_deps sj !! c = Some lc) as Hbj by by rewrite (f_bd _ _ Hfj).
        destruct (ginv_multi_step_exit d c x X lc s sj Hsj) as (lx & Hlx & Hex);
          [by eapply frame_trans | done | by apply (f_vis _ _ Hfj)
          | by rewrite (f_deps _ _ Hfj) | done | done | done |].
        destruct (Hex _ eq_refl) as (Heq & Hsk & Hfk).
        destruct (ainv_multi_step d (P ∪ {[c]}) c x X lc lx sj Hsj Haj) as [Hak Hstab];
          [set_solver|done|].
        change (post (L (dn ++ [x])) (λ _, False) False
          (dependencies_add c x sj ≫= base_deps_ior c x)).
        rewrite Heq. simpl.
        destruct (a_fin _ _ _ Haj x Hxv HxP) as (_ & spx & Bx & _ & HBx & _ & _).
        assert (sets sj !! lc = Some (⋃ Bs)) as Hlcj.
        { eapply prefix_lookup_Some; [done|]. apply Hfj. }
        split_and!; [done..| | | | |done|]; simpl.
        -- by apply (f_vis _ _ Hfj).
        -- eexists. rewrite ODFacts.get_set. by rewrite decide_True.
        -- by rewrite lookup_insert_eq.
        -- destruct Hfj. lia.
        -- exists (Bs ++ [Bx]). split.
           ++ destruct Hstab as (Hst & _).
              apply Forall2_app.
              ** eapply Forall2_impl; [done|]. intros y By (Hy & HyP & HyB). simpl.
                 assert (y ∈ visited sj) as Hyj by by apply (f_vis _ _ Hfj).
                 destruct (Hst y Hyj HyP) as (? & ? & Hv'). split_and!; [done..|].
                 apply Hv'. by apply (val_frame d si sj).
              ** constructor; [|constructor].
                 destruct (Hst x Hxv HxP) as (? & ? & Hv'). split_and!; [done..|]. auto.
           ++ rewrite list_lookup_insert_eq by by eapply lookup_lt_Some.
              apply val_Some in HBx as (lx' & Hlx' & HBx). simplify_eq.
              rewrite (list_lookup_total_correct _ _ _ Hlcj).
              rewrite (list_lookup_total_correct _ _ _ HBx).
              by rewrite union_list_app_L, union_list_singleton_L.
    + intros s' (Hs' & Hf' & Hc' & [X HX] & Hb' & Hl' & Ha' & Bs & HBs & Hlc').
      simpl in HBs. split_and!; [| |done].
      * split_and!; [done..| |done]. by eapply ODFacts.get_Some_keys.
      * apply (ainv_multi_exit d P c xs Bs lc s'); try done.
        -- by eapply ODFacts.get_Some_keys.
        -- intros p l Hp Hl. assert (p ∈ visited s) as Hpv by by apply (a_in _ _ _ Ha).
           rewrite (f_bd _ _ Hf') in Hl by done.
           apply (g_loc _ _ Hs) in Hl. unfold lc. lia.
Qed.

Lemma ainv_init d : ainv d ∅ (init_state d).
Proof. constructor; simpl; set_solver. Qed.

Lemma validate_loop_acyclic d :
  closed d → acyclic d →
  ∀ n s, ginv d s → ainv d ∅ s → length (coords s) ≤ n →
    post (λ s', ginv d s' ∧ ainv d ∅ s' ∧ coords s' = []) (λ _, False) False
      (validate_loop n s).
Proof.
  intros Hd Hac. induction n as [|n IH]; intros s Hs Ha Hn.
  - destruct (coords s) as [|[c sp] cs] eqn:Hcs; simpl in *; [|lia].
    unfold validate_loop. rewrite Hcs. simpl. done.
  - rewrite validate_loop_unfold. destruct (coords s) as [|[c sp] cs] eqn:Hcs; [done|].
    assert (OD.get c (coords s) = Some sp) as Hget.
    { rewrite Hcs. simpl. by rewrite decide_True. }
    assert (c ∉ visited s) as Hv.
    { intros Hv. eapply g_disj; [done..|]. by eapply ODFacts.get_Some_keys. }
    apply post_bind. rewrite <-Hcs.
    eapply post_mono; [apply (find_acyclic d Hd Hac _ c s ∅ Hs Ha) | | done..].
    + eapply ODFacts.get_Some_keys, g_sub; done.
    + set_solver.
    + lia.
    + intros s1 ((Hs1 & Hf1 & _ & Hlt) & Ha1 & _). simpl.
      apply (IH s1 Hs1 Ha1). specialize (Hlt Hv). rewrite Hcs in Hlt. simpl in *. lia.
Qed.

(** C1. For every acyclic declaration with at least one base coordinate (a
    mapping with unique keys whose dependency names are all declared),
    [_validate_coords] returns, with at least one base coordinate, and the
    base-dependency map it returns gives every base coordinate the
    singleton of itself, every alias the set of its dependency, and every
    coordinate with several dependencies the union of the sets of its
    direct dependencies; the set of a coordinate holds the base coordinates
    it reaches through its dependencies. *)
Theorem validate_acyclic d :
  NoDup d.*1 → closed d → acyclic d → has_base d →
  ∃ r, _validate_coords (ArgDict d) = Ok (r, ArgDict []) ∧
    v_base_coords r ≠ [] ∧
    ∀ c sp, OD.get c d = Some sp →
      (∃ B, v_base_dependencies r !! c = Some B ∧ reach_set d c B) ∧
      match sp with
      | DNone => v_base_dependencies r !! c = Some {[c]}
      | DStr x =>
          ∃ B, v_base_dependencies r !! x = Some B ∧ v_base_dependencies r !! c = Some B
      | DIter xs =>
          ∃ Bs, Forall2 (λ x Bx, v_base_dependencies r !! x = Some Bx) xs Bs ∧
                v_base_dependencies r !! c = Some (⋃ Bs)
      end.
Proof.
  intros Hnd Hd Hac Hbase.
  pose proof (validate_loop_acyclic d Hd Hac (length d) (init_state d)
    (ginv_init d Hnd) (ainv_init d) (reflexivity _)) as Hloop.
  unfold _validate_coords.
  destruct (validate_loop (length d) (init_state d)) as [s| |]; simpl in Hloop; [|done..].
  destruct Hloop as (Hs & Ha & Hcs). simpl. rewrite Hcs. eexists. split; [done|]. simpl.
  assert (∀ c sp, OD.get c d = Some sp → c ∈ visited s ∧ fin d ∅ s c) as Hfin.
  { intros c sp Hc. assert (c ∈ visited s) as Hv.
    { destruct (g_cover _ _ Hs c) as [?|Hin]; [by eapply ODFacts.get_Some_keys|done|].
      rewrite Hcs in Hin. by apply elem_of_nil in Hin. }
    split; [done|]. apply (a_fin _ _ _ Ha); [done|set_solver]. }
  split.
  - apply Exists_exists in Hbase as ([b sp] & Hin & Hsp). simpl in Hsp. subst sp.
    apply ODFacts.elem_of_get in Hin; [|done].
    destruct (Hfin _ _ Hin) as (_ & _ & sp & B & Hsp & _ & _ & Hspec).
    rewrite Hin in Hsp. simplify_eq. destruct Hspec as [_ Hb].
    intros Hnil. rewrite Hnil in Hb. by apply elem_of_nil in Hb.
  - intros c sp Hc. destruct (Hfin _ _ Hc) as (_ & _ & sp' & B & Hsp & HB & Hreach & Hspec).
    rewrite Hc in Hsp. simplify_eq. rewrite !base_deps_view_lookup.
    split; [by exists B|]. destruct sp' as [|x|xs].
    + by destruct Hspec as [-> _].
    + destruct Hspec as (_ & _ & Hx). exists B. by rewrite base_deps_view_lookup.
    + destruct Hspec as (Bs & HBs & ->). exists Bs. split; [|done].
      eapply Forall2_impl; [done|]. intros y By (_ & _ & Hy). simpl.
      by rewrite base_deps_view_lookup.
Qed.

Lemma validate_acyclic_witness :
  let d := [("ind", DNone); ("region", DStr "ind"); ("cell", DIter ["ind"; "region"])] in
  (NoDup d.*1 ∧ closed d ∧ acyclic d ∧ has_base d) ∧
  ∃ r, _validate_coords (ArgDict d) = Ok (r, ArgDict []) ∧
    v_base_coords r ≠ [] ∧
    ∀ c sp, OD.get c d = Some sp →
      (∃ B, v_base_dependencies r !! c = Some B ∧ reach_set d c B) ∧
      match sp with
      | DNone => v_base_dependencies r !! c = Some {[c]}
      | DStr x =>
          ∃ B, v_base_dependencies r !! x = Some B ∧ v_base_dependencies r !! c = Some B
      | DIter xs =>
          ∃ Bs, Forall2 (λ x Bx, v_base_dependencies r !! x = Some Bx) xs Bs ∧
                v_base_dependencies r !! c = Some (⋃ Bs)
      end.
Proof.
  intros d.
  assert (NoDup d.*1) as H1 by by_decide.
  assert (closed d) as H2 by by_decide.
  assert (acyclic d) as H3.
  { apply (ranked_acyclic (λ x, if decide (x = "ind") then 0
                                else if decide (x = "region") then 1 else 2)).
    by_decide. }
  assert (has_base d) as H4 by by_decide.
  split; [done|]. exact (validate_acyclic d H1 H2 H3 H4).
Defined.

(** The result on the declaration of the example. *)
Example validate_acyclic_example :
  _validate_coords
    (ArgDict [("ind", DNone); ("region", DStr "ind"); ("cell", DIter ["ind"; "region"])])
  = Ok ({| v_coords := [("ind", None); ("region", Some {["ind"]});
                        ("cell", Some {["ind"; "region"]})];
           v_base_coords := ["ind"];
           v_base_dependencies :=
             {["ind" := {["ind"]}; "region" := {["ind"]}; "cell" := {["ind"]}]} |},
        ArgDict []).
Proof. vm_compute. reflexivity. Qed.

(** ** Cycles that the check does not see *)

Lemma self_loop_cyclic d c sp :
  OD.get c d = Some sp → c ∈ spec_deps sp → ¬ acyclic d.
Proof. intros Hc Hin Hac. apply (Hac c), tc_once. by exists sp. Qed.

Lemma two_cycle_cyclic d a b spa spb :
  OD.get a d = Some spa → b ∈ spec_deps spa →
  OD.get b d = Some spb → a ∈ spec_deps spb → ¬ acyclic d.
Proof.
  intros Ha Hb Hb' Ha' Hac. apply (Hac a).
  eapply tc_l; [by exists spa|]. apply tc_once. by exists spb.
Qed.

(** C2. There are cyclic declarations that [_validate_coords] accepts.  A
    coordinate with several dependencies is registered in [dependencies]
    as soon as it is entered, so that the test
    [coord in visited and coord not in dependencies] does not fire when
    the traversal comes back to it: for [{a: ['a']}], for
    [{m: ['a'], a: 'm'}], and for [{m: ['a', 'b'], a: 'm', b: None}],
    which has a base coordinate too, validation returns a result. *)
Theorem cyclic_declaration_accepted :
  let d1 := [("a", DIter ["a"])] in
  let d2 := [("m", DIter ["a"]); ("a", DStr "m")] in
  let d3 := [("m", DIter ["a"; "b"]); ("a", DStr "m"); ("b", DNone)] in
  (¬ acyclic d1 ∧
   _validate_coords (ArgDict d1)
   = Ok ({| v_coords := [("a", Some {["a"]})]; v_base_coords := [];
            v_base_dependencies := {["a" := ∅]} |}, ArgDict [])) ∧
  (¬ acyclic d2 ∧
   _validate_coords (ArgDict d2)
   = Ok ({| v_coords := [("m", Some {["a"]}); ("a", Some {["m"]})]; v_base_coords := [];
            v_base_dependencies := {["m" := ∅; "a" := ∅]} |}, ArgDict [])) ∧
  (¬ acyclic d3 ∧
   _validate_coords (ArgDict d3)
   = Ok ({| v_coords := [("m", Some {["a"; "b"]}); ("a", Some {["m"]}); ("b", None)];
            v_base_coords := ["b"];
            v_base_dependencies := {["m" := {["b"]}; "a" := {["b"]}; "b" := {["b"]}]} |},
         ArgDict [])).
Proof.
  intros d1 d2 d3. split_and!.
  - apply (self_loop_cyclic d1 "a" (DIter ["a"])); [done|]. simpl. by left.
  - by_compute.
  - apply (two_cycle_cyclic d2 "m" "a" (DIter ["a"]) (DStr "m")); [done| |done|];
      simpl; by left.
  - by_compute.
  - apply (two_cycle_cyclic d3 "m" "a" (DIter ["a"; "b"]) (DStr "m")); [done| |done|];
      simpl; by left.
  - by_compute.
Qed.

(** ** Containers *)

Module Container.

(** The coordinate name that [__init__] gives the index level [i] named
    [coord]: ['index_{}'.format(i) if coord is None else coord]. *)
Definition init_name (i : nat) (coord : option string) : string :=
  match coord with
  | None => "index_" +:+ pretty i
  | Some c => c
  end.

(** The declaration that [__init__] infers when [coords is None], from
    [enumerate(self.index.names)]: every level maps to [None]. *)
Definition inferred_coords (names : list (option string)) : list (string * dep_spec) :=
  foldl (λ acc ic, OD.set (init_name ic.1 ic.2) DNone acc) [] (imap pair names).

(** [__init__(self, coords=None)]: the [Coordinates] object of the
    container; [names] are [self.index.names], which the constructor
    does not change. *)
Definition __init__ (coords : option coords_arg) (names : list (option string))
    : outcome Coordinates.t :=
  let coords := match coords with
                | None => ArgDict (inferred_coords names)
                | Some coords => coords
                end in
  '(c, _) ← Coordinates.__init__ coords; Ok c.

(** The index level names that [update_coords(coords=None)] sets before
    it validates them, by the branch taken; [None] when no branch
    applies (some levels are named and some are not). *)
Definition update_coords_names (names : list (option string)) : option (list string) :=
  if decide (Forall is_Some names) then
    Some (omap id names)
  else
    match names with
    | [None] => Some ["index"]
    | _ =>
        if decide (Forall (λ n, n = None) names) then
          Some (imap (λ i coord, match coord with
                                 | Some c => c
                                 | None => "level_" +:+ pretty i
                                 end) names)
        else None
    end.

(** *** Projection to xarray *)

(** What [to_xarray] returns: a [DataArray], a [Dataset], or [None] when
    no branch applies. *)
Inductive xr_result (dataarray dataset : Type) : Type :=
  | XArray (da : dataarray)
  | XDataset (ds : dataset)
  | XNone.
Arguments XArray {dataarray dataset} da.
Arguments XDataset {dataarray dataset} ds.
Arguments XNone {dataarray dataset}.

Section to_xarray.

(** The tabular engine (pandas) and the array engine (xarray) are outside
    the repository: their objects and operations are parameters. *)
Context {frame series level dataarray dataset attrs_t vars_t : Type}.

(** [df.reset_index(levels, drop=False, inplace=False)] *)
Variable reset_index : list string → frame → outcome frame.
(** [df[col]] *)
Variable getitem_col : string → frame → outcome series.
(** [df.columns] *)
Variable columns : frame → list string.
(** [df.index.get_level_values(coord)] *)
Variable get_level_values : string → frame → outcome level.
(** [pd.Series(self.values, index=...)], with the [MultiIndex] made of the
    given levels and names *)
Variable values_series : frame → list level → list string → outcome series.
(** [pd.Series(data, index=...)], with the [MultiIndex] made of the given
    levels and names *)
Variable level_series : level → list level → list string → outcome series.
(** [xr.DataArray.from_series(series)], which can raise *)
Variable from_series : series → outcome dataarray.
(** [xr.Dataset(data_vars=..., coords=..., attrs=...)], which can raise *)
Variable Dataset :
  list (string * dataarray) → list (string * dataarray) → attrs_t → outcome dataset.
(** The order in which a set of names is iterated. *)
Variable set_iter : gset string → list string.

(** A container: [ndim] is [len(self.shape)]; [table] is the pandas object
    that the container is. *)
Record t : Type := Make {
  ndim : nat;
  table : frame;
  _coords : Coordinates.t;
  attrs : attrs_t;
  variables : vars_t
}.

Definition set_ndim (n : nat) (self : t) : t :=
  {| ndim := n; table := table self; _coords := _coords self; attrs := attrs self;
     variables := variables self |}.

Definition set_attrs (a : attrs_t) (self : t) : t :=
  {| ndim := ndim self; table := table self; _coords := _coords self; attrs := a;
     variables := variables self |}.

Definition set_variables (v : vars_t) (self : t) : t :=
  {| ndim := ndim self; table := table self; _coords := _coords self; attrs := attrs self;
     variables := v |}.

(** [self.coords], the mapping of the [Coordinates] object, and
    [self.base_coords]. *)
Definition coords (self : t) : list (string * option (gset string)) :=
  Coordinates._coords (_coords self).

Definition base_coords (self : t) : list string :=
  Coordinates._base_coords (_coords self).

(** [[c for c in self.coords if not c in self.base_coords]] *)
Definition derived_coords (self : t) : list string :=
  filter (λ c, c ∉ base_coords self) (coords self).*1.

(** [_get_coords_dataarrays_from_index] *)
Definition _get_coords_dataarrays_from_index (self : t)
    : outcome (list (string * (level + dataarray))) :=
  base ← map_each (λ coord,
            lv ← get_level_values coord (table self); Ok (coord, inl lv))
          (base_coords self);
  derived ← map_each (λ coord,
            deps ← getitem (OD.get coord (coords self));
            data ← get_level_values coord (table self);
            match deps with
            | None => Raise TypeError
            | Some deps =>
                lvs ← map_each (λ dep, get_level_values dep (table self)) (set_iter deps);
                sr ← level_series data lvs (set_iter deps);
                da ← from_series sr;
                Ok (coord, inr da)
            end)
          (derived_coords self);
  Ok (OD.update [] (base ++ derived)).

(** The array of a coordinate that is not a base coordinate, in the loop
    of the two-dimensional branch: the index levels that are not in the
    base-dependency set of [coord] are reset, and the column [coord] of
    the result is taken. *)
Definition coord_array (self : t) (coord : string) : outcome dataarray :=
  deps ← getitem (Coordinates._base_dependencies (_coords self) !! coord);
  df ← reset_index (filter (λ c, c ∉ (deps : gset string)) (coords self).*1) (table self);
  coord_data ← getitem_col coord df;
  from_series coord_data.

(** [to_xarray] *)
Definition to_xarray (self : t) : outcome (xr_result dataarray dataset) :=
  if decide (2 < ndim self) then Raise NotImplementedError
  else if decide (ndim self = 1) then
    _ ← _get_coords_dataarrays_from_index self;
    lvs ← map_each (λ coord, get_level_values coord (table self)) (base_coords self);
    sr ← values_series (table self) lvs (base_coords self);
    da ← from_series sr;
    Ok (XArray da)
  else if decide (ndim self = 2) then
    coords_ ← map_each (λ coord, da ← coord_array self coord; Ok (coord, da))
                (derived_coords self);
    base_df ← (if decide (length (base_coords self) < length (coords self)) then
                 reset_index (derived_coords self) (table self)
               else Ok (table self));
    data_vars ← map_each (λ col, sr ← getitem_col col base_df;
                               da ← from_series sr; Ok (col, da))
                  (columns (table self));
    ds ← Dataset (OD.update [] data_vars) (OD.update [] coords_) (attrs self);
    Ok (XDataset ds)
  else Ok XNone.

End to_xarray.

End Container.

(** C8, on the code.  For a container whose index has one unnamed level,
    the constructor called without [coords] declares the base coordinate
    [index_0]; for two unnamed levels, [index_0] and [index_1].  The names
    [index] and [level_0], [level_1] are those that [update_coords] gives
    the same levels. *)
Theorem init_synthetic_names :
  Container.inferred_coords [None] = [("index_0", DNone)] ∧
  Container.__init__ None [None]
  = Ok (Coordinates.Make [("index_0", None)] ["index_0"] {["index_0" := {["index_0"]}]}) ∧
  Container.inferred_coords [None; None] = [("index_0", DNone); ("index_1", DNone)] ∧
  Container.update_coords_names [None] = Some ["index"] ∧
  Container.update_coords_names [None; None] = Some ["level_0"; "level_1"].
Proof. split_and!; by_compute. Qed.

(** Whatever the names of the levels, every coordinate that the
    constructor infers is declared with [None], and the names of the
    named levels are kept. *)
Lemma inferred_coords_base names :
  Forall (λ e, e.2 = DNone) (Container.inferred_coords names) ∧
  ∀ c, Some c ∈ names → c ∈ (Container.inferred_coords names).*1.
Proof.
  unfold Container.inferred_coords.
  assert (∀ l (acc : list (string * dep_spec)),
    Forall (λ e, e.2 = DNone) acc →
    Forall (λ e, e.2 = DNone)
      (foldl (λ acc ic, OD.set (Container.init_name ic.1 ic.2) DNone acc) acc l) ∧
    ∀ c, (c ∈ acc.*1 ∨ ∃ i, (i, Some c) ∈ l) →
      c ∈ (foldl (λ acc (ic : nat * option string),
                    OD.set (Container.init_name ic.1 ic.2) DNone acc) acc l).*1) as Hgen.
  { induction l as [|[i n] l IH]; intros acc Hacc; simpl.
    - split; [done|]. intros c [?|[i Hi]]; [done|]. by apply elem_of_nil in Hi.
    - destruct (IH (OD.set (Container.init_name i n) DNone acc)) as [H1 H2].
      { apply Forall_forall. intros kv [->|Hin]%elem_of_set; [done|].
        rewrite Forall_forall in Hacc. auto. }
      split; [done|]. intros c Hc. apply H2.
      rewrite ODFacts.elem_of_keys_set. destruct Hc as [?|[j Hj]]; [by left; right|].
      apply elem_of_cons in Hj as [?|?]; [|by right; exists j].
      simplify_eq. simpl. by left; left. }
  destruct (Hgen (imap pair names) []) as [H1 H2]; [done|].
  split; [done|]. intros c Hc. apply H2. right.
  apply list_elem_of_lookup in Hc as [i Hi]. exists i.
  apply list_elem_of_lookup. exists i. by rewrite list_lookup_imap, Hi.
Qed.

(** ** Projection of a two-dimensional container *)

Lemma map_each_Ok {A B} (f : A → outcome B) (Q : A → B → Prop) l :
  (∀ x, x ∈ l → ∃ y, f x = Ok y ∧ Q x y) →
  ∃ ys, map_each f l = Ok ys ∧ Forall2 Q l ys.
Proof.
  induction l as [|x l IH]; intros Hf; simpl.
  - exists []. by split.
  - destruct (Hf x) as (y & Hy & HQ); [by left|].
    destruct IH as (ys & Hys & HQs); [intros ??; apply Hf; by right|].
    exists (y :: ys). rewrite Hy. simpl. rewrite Hys. simpl. split; [done|]. by constructor.
Qed.

Lemma set_new {V} k (v : V) d : k ∉ d.*1 → OD.set k v d = d ++ [(k, v)].
Proof.
  induction d as [|[k0 v0] d IH]; csimpl; [done|].
  rewrite not_elem_of_cons. intros [? ?]. rewrite decide_False by done. by rewrite IH.
Qed.

Lemma update_NoDup {V} (l acc : list (string * V)) :
  NoDup (acc ++ l).*1 → OD.update acc l = acc ++ l.
Proof.
  unfold OD.update. revert acc. induction l as [|[k v] l IH]; intros acc Hnd; simpl.
  - by rewrite app_nil_r.
  - rewrite set_new.
    + rewrite IH; [by rewrite <-app_assoc|]. by rewrite <-app_assoc.
    + rewrite fmap_app in Hnd. apply NoDup_app in Hnd as (_ & Hdisj & _).
      intros Hk. apply (Hdisj k Hk). csimpl. by left.
Qed.

Lemma filter_ext_in {A} (P Q : A → Prop) `{!∀ x, Decision (P x)} `{!∀ x, Decision (Q x)}
    (l : list A) :
  (∀ x, x ∈ l → P x ↔ Q x) → filter P l = filter Q l.
Proof.
  induction l as [|x l IH]; intros Hiff; [done|].
  rewrite !filter_cons. rewrite IH by (intros ??; apply Hiff; by right).
  destruct (decide (P x)) as [HP|HP], (decide (Q x)) as [HQ|HQ]; try done.
  - destruct HQ. apply Hiff; [by left|done].
  - destruct HP. apply Hiff; [by left|done].
Qed.

(** * Further properties of the validation *)

(** ** Outcomes *)

(** On a mapping (unique keys) [_validate_coords] ends in one of three
    ways: it returns, with the mapping emptied; it raises
    [GraphIsCyclicError]; or it raises [KeyError], which it does only
    when some dependency name is not declared.  No other error is
    raised, and the recursion bounds of the model are never reached. *)
Theorem validate_outcomes d :
  NoDup d.*1 →
  (∃ r, _validate_coords (ArgDict d) = Ok (r, ArgDict [])) ∨
  _validate_coords (ArgDict d) = Raise GraphIsCyclicError ∨
  (_validate_coords (ArgDict d) = Raise KeyError ∧ ¬ closed d).
Proof.
  intros Hnd. pose proof (validate_general d Hnd) as Hpost.
  destruct (_validate_coords (ArgDict d)) as [res|e|]; simpl in Hpost; [| |done].
  - left. destruct Hpost as (s & _ & _ & ->). by eexists.
  - destruct Hpost as [->|[-> ?]]; [by right; left|by right; right].
Qed.

Lemma validate_outcomes_witness :
  NoDup [("a", DStr "z")].*1 ∧
  ((∃ r, _validate_coords (ArgDict [("a", DStr "z")]) = Ok (r, ArgDict [])) ∨
   _validate_coords (ArgDict [("a", DStr "z")]) = Raise GraphIsCyclicError ∨
   (_validate_coords (ArgDict [("a", DStr "z")]) = Raise KeyError ∧
    ¬ closed [("a", DStr "z")])).
Proof.
  assert (NoDup [("a", DStr "z")].*1) as H by by_decide.
  split; [exact H|]. exact (validate_outcomes [("a", DStr "z")] H).
Defined.

(** Cycle detection raises no false alarm: a closed mapping on which
    [GraphIsCyclicError] is raised has a cycle. *)
Theorem cyclic_error_sound d :
  NoDup d.*1 → closed d →
  _validate_coords (ArgDict d) = Raise GraphIsCyclicError → ¬ acyclic d.
Proof.
  intros Hnd Hd Hval Hac.
  pose proof (validate_loop_acyclic d Hd Hac (length d) (init_state d)
    (ginv_init d Hnd) (ainv_init d) (reflexivity _)) as Hloop.
  unfold _validate_coords in Hval.
  destruct (validate_loop (length d) (init_state d)); simpl in *; done.
Qed.

Lemma cyclic_error_sound_witness :
  let d := [("a", DStr "b"); ("b", DStr "a")] in
  (NoDup d.*1 ∧ closed d ∧ _validate_coords (ArgDict d) = Raise GraphIsCyclicError) ∧
  ¬ acyclic d.
Proof.
  intros d.
  assert (NoDup d.*1) as H1 by by_decide.
  assert (closed d) as H2 by by_decide.
  assert (_validate_coords (ArgDict d) = Raise GraphIsCyclicError) as H3 by by_compute.
  split; [done|]. exact (cyclic_error_sound d H1 H2 H3).
Defined.

(** ** Alias cycles of any length *)

(** No coordinate of the set [C] is resolved in [s], and each of them is
    either entered or still declared as an alias of a member of [C]. *)
Definition unresolved (C : gset string) (s : vstate) : Prop :=
  ∀ c, c ∈ C →
    (c ∉ (dependencies s).*1) ∧
    (c ∈ visited s ∨ ∃ x, OD.get c (coords s) = Some (DStr x) ∧ x ∈ C).

(** A call that returns was not made on a member of [C]; it has resolved
    none of them, and entered none. *)
Lemma find_unresolved C fuel :
  ∀ c s s', unresolved C s → find_coord_dependencies fuel c s = Ok s' →
    (c ∉ C) ∧ unresolved C s' ∧ ∀ k, k ∈ C → k ∈ visited s' → k ∈ visited s.
Proof.
  induction fuel as [|fuel IH]; intros c s s' Hu Hfind; [done|].
  rewrite find_unfold in Hfind. case_decide as Hvis.
  { case_decide as Hdep; simplify_eq. split_and!; [|done|done].
    intros Hc. by destruct (Hu c Hc). }
  apply bind_Ok in Hfind as ([sp rest] & Hpop%getitem_Ok & Hfind).
  apply ODFacts.pop_Some in Hpop as (Hget & _ & Ho & _).
  assert (unresolved C (visited_add c (set_coords rest s))) as Hent.
  { intros k Hk. destruct (Hu k Hk) as [Hd [Hv|(x & Hx & HxC)]]; simpl.
    - split; [done|]. left. set_solver.
    - split; [done|]. destruct (decide (k = c)) as [->|Hkc]; [left; set_solver|].
      right. exists x. by rewrite Ho. }
  destruct (decide (c ∈ C)) as [Hc|Hc].
  { exfalso. destruct (Hu c Hc) as [_ [?|(x & Hx & HxC)]]; [done|].
    rewrite Hget in Hx. simplify_eq. simpl in Hfind.
    apply bind_Ok in Hfind as (s1 & Hfind & _).
    by destruct (IH _ _ _ Hent Hfind) as [? _]. }
  split; [done|].
  assert (∀ v X s0, unresolved C s0 → unresolved C (base_deps_new c X (dependencies_set c v s0)))
    as Hreg.
  { intros v X s0 Hs0 k Hk. destruct (Hs0 k Hk) as [Hd Hor]. simpl.
    split; [|done]. rewrite ODFacts.elem_of_keys_set. intros [->|?]; done. }
  destruct sp as [|x|xs]; simpl in Hfind.
  - simplify_eq. split.
    + intros k Hk. destruct (Hu k Hk) as [Hd Hor]. simpl. split.
      * rewrite ODFacts.elem_of_keys_set. intros [->|?]; done.
      * destruct Hor as [?|(x & Hx & HxC)]; [left; set_solver|].
        right. exists x. rewrite Ho; [done|]. by intros ->.
    + simpl. intros k Hk Hv. set_solver.
  - apply bind_Ok in Hfind as (s1 & Hfind & Hshare).
    destruct (IH _ _ _ Hent Hfind) as (_ & Hu1 & Hv1).
    apply base_deps_share_Ok in Hshare as (Hc' & Hv' & Hd' & _). split.
    + intros k Hk. destruct (Hu1 k Hk) as [Hd Hor]. rewrite Hc', Hv', Hd'. simpl.
      split; [|done]. rewrite ODFacts.elem_of_keys_set. intros [->|?]; done.
    + intros k Hk. rewrite Hv'. simpl. intros Hin. specialize (Hv1 k Hk Hin).
      simpl in Hv1. set_solver.
  - apply (for_each_Ok _ (λ si, unresolved C si ∧ ∀ k, k ∈ C → k ∈ visited si → k ∈ visited s)
             _ _ _ Hfind).
    + split; [by apply Hreg|]. simpl. intros k Hk Hin. set_solver.
    + intros x si sk _ [Hsi Hvi] Hstep. unfold multi_step in Hstep.
      apply bind_Ok in Hstep as (sj & Hfind' & Hstep).
      apply bind_Ok in Hstep as (sj' & Hadd & Hior).
      destruct (IH _ _ _ Hsi Hfind') as (_ & Huj & Hvj).
      apply dependencies_add_Ok in Hadd as (Hc1 & Hv1 & _ & Hd1).
      apply base_deps_ior_Ok in Hior as (Hc2 & Hv2 & Hd2 & _). split.
      * intros k Hk. destruct (Huj k Hk) as [Hd Hor]. rewrite Hc2, Hv2, Hd2, Hc1, Hv1, Hd1.
        split; [|done]. intros [->|?]; done.
      * intros k Hk. rewrite Hv2, Hv1. auto.
Qed.

Lemma validate_loop_unresolved C c0 n :
  c0 ∈ C →
  ∀ s s', unresolved C s → (∀ k, k ∈ C → k ∉ visited s) → validate_loop n s ≠ Ok s'.
Proof.
  intros Hc0. induction n as [|n IH]; intros s s' Hu Hnv Hloop.
  - unfold validate_loop in Hloop.
    destruct (Hu c0 Hc0) as [_ [?|(x & Hx & _)]]; [by destruct (Hnv c0)|].
    destruct (coords s) as [|[c sp] cs]; [done|done].
  - rewrite validate_loop_unfold in Hloop.
    destruct (coords s) as [|[c sp] cs] eqn:Hcs.
    { destruct (Hu c0 Hc0) as [_ [?|(x & Hx & _)]]; [by destruct (Hnv c0)|].
      by rewrite Hcs in Hx. }
    apply bind_Ok in Hloop as (s1 & Hfind & Hloop).
    destruct (find_unresolved C _ _ _ _ Hu Hfind) as (_ & Hu1 & Hv1).
    eapply (IH s1 s'); [done| |done]. intros k Hk Hin. by apply (Hnv k Hk), Hv1.
Qed.

(** Every cycle of single-name dependencies is detected, whatever its
    length and wherever the traversal starts: a declaration (a mapping
    with unique keys whose dependency names are all declared) is rejected
    with [GraphIsCyclicError] when it has a non-empty set of coordinates
    each of which is declared as the alias of a member of the set, as the
    coordinates of a cycle [a -> b -> c -> a] are. *)
Theorem alias_cycles_rejected d (C : gset string) c0 :
  NoDup d.*1 → closed d → c0 ∈ C →
  (∀ c, c ∈ C → ∃ x, OD.get c d = Some (DStr x) ∧ x ∈ C) →
  _validate_coords (ArgDict d) = Raise GraphIsCyclicError.
Proof.
  intros Hnd Hd Hc0 HC.
  pose proof (validate_general d Hnd) as Hpost.
  destruct (_validate_coords (ArgDict d)) as [res|e|] eqn:Hval; simpl in Hpost.
  - exfalso. unfold _validate_coords in Hval.
    apply bind_Ok in Hval as (s & Hloop & _).
    eapply (validate_loop_unresolved C c0); [done| | |done].
    + intros c Hc. split; [apply not_elem_of_nil|]. right. by apply HC.
    + intros k _. simpl. set_solver.
  - by destruct Hpost as [->|[_ ?]].
  - done.
Qed.

Lemma alias_cycles_rejected_witness :
  let d := [("x", DNone); ("a", DStr "b"); ("b", DStr "c"); ("c", DStr "a")] in
  let C : gset string := {["a"; "b"; "c"]} in
  (NoDup d.*1 ∧ closed d ∧ "a" ∈ C ∧
   ∀ c, c ∈ C → ∃ x, OD.get c d = Some (DStr x) ∧ x ∈ C) ∧
  _validate_coords (ArgDict d) = Raise GraphIsCyclicError.
Proof.
  intros d C.
  assert (NoDup d.*1) as H1 by by_decide.
  assert (closed d) as H2 by by_decide.
  assert ("a" ∈ C) as H3 by by_decide.
  assert (∀ c, c ∈ C → ∃ x, OD.get c d = Some (DStr x) ∧ x ∈ C) as H4.
  { intros c Hc. assert (c = "a" ∨ c = "b" ∨ c = "c") as [-> | [-> | ->]] by set_solver;
      eexists; (split; [reflexivity|by_decide]). }
  split; [done|]. exact (alias_cycles_rejected d C "a" H1 H2 H3 H4).
Defined.

(** ** A dependency on a name that is not declared *)

(** [x] is neither visited nor a key of the mapping. *)
Definition dangling (x : string) (s : vstate) : Prop :=
  (x ∉ visited s) ∧ (x ∉ (coords s).*1).

Lemma pop_elem_of_inv {V} k (v : V) d d' :
  OD.pop k d = Some (v, d') → ∀ kv, kv ∈ d → kv = (k, v) ∨ kv ∈ d'.
Proof.
  revert d'. induction d as [|[k0 v0] d IH]; intros d'; simpl; [done|].
  case_decide.
  - intros ? kv; simplify_eq. rewrite elem_of_cons. naive_solver.
  - destruct (OD.pop k d) as [[w d0]|]; simpl; [|done].
    intros ? kv; simplify_eq. rewrite !elem_of_cons.
    intros [->|Hin]; [by right; left|]. destruct (IH d0 eq_refl kv Hin); auto.
Qed.

Lemma for_each_Ok_elem {A S} (body : A → S → outcome S) (I : S → Prop) l s s' x :
  for_each body l s = Ok s' →
  I s → (∀ y s s', y ∈ l → I s → body y s = Ok s' → I s') → x ∈ l →
  ∃ si si', I si ∧ body x si = Ok si'.
Proof.
  revert s. induction l as [|y l IH]; simpl; intros s Hfe Hs Hbody Hx.
  - by apply elem_of_nil in Hx.
  - apply bind_Ok in Hfe as (s1 & H1 & H2).
    apply elem_of_cons in Hx as [->|Hx]; [by exists s, s1|].
    eapply (IH s1); [done| | |done].
    + eapply Hbody; [|done..]. by left.
    + intros ????. apply Hbody. by right.
Qed.

Lemma find_dangling_self x fuel s s' :
  dangling x s → find_coord_dependencies fuel x s ≠ Ok s'.
Proof.
  intros [Hv Hk] Hfind. destruct fuel as [|fuel]; [done|].
  rewrite find_unfold, decide_False in Hfind by done.
  apply ODFacts.pop_None in Hk. by rewrite Hk in Hfind.
Qed.

(** A call that returns has not touched a dangling name, nor consumed an
    entry that depends on it. *)
Lemma find_dangling x fuel :
  ∀ c s s', dangling x s → find_coord_dependencies fuel c s = Ok s' →
    dangling x s' ∧ ∀ e, e ∈ coords s → x ∈ spec_deps e.2 → e ∈ coords s'.
Proof.
  induction fuel as [|fuel IH]; intros c s s' Hdg Hfind; [done|].
  rewrite find_unfold in Hfind. case_decide.
  { case_decide; by simplify_eq. }
  apply bind_Ok in Hfind as ([sp rest] & Hpop%getitem_Ok & Hfind).
  pose proof (pop_elem_of_inv _ _ _ _ Hpop) as Hinv.
  apply ODFacts.pop_Some in Hpop as (Hget & _ & _ & Hsub & _).
  destruct Hdg as [Hxv Hxk].
  assert (c ≠ x) as Hcx.
  { intros ->. apply Hxk. by eapply ODFacts.get_Some_keys. }
  assert (dangling x (visited_add c (set_coords rest s))) as Hent.
  { split; simpl; [set_solver|]. intros ?. apply Hxk. auto. }
  destruct sp as [|y|ys]; simpl in Hfind.
  - simplify_eq. split; [exact Hent|]. simpl.
    intros e He Hx. destruct (Hinv e He) as [->|?]; [|done].
    simpl in Hx. by apply elem_of_nil in Hx.
  - apply bind_Ok in Hfind as (s1 & Hfind & Hshare).
    destruct (IH _ _ _ Hent Hfind) as [Hdg1 Hkeep].
    apply base_deps_share_Ok in Hshare as (Hc & Hv & _ & _).
    split; [unfold dangling; by rewrite Hc, Hv|].
    intros e He Hx. rewrite Hc. apply Hkeep; [|done]. simpl.
    destruct (Hinv e He) as [->|?]; [|done]. simpl in Hx.
    apply list_elem_of_singleton in Hx as ->. by apply find_dangling_self in Hfind.
  - set (s2 := base_deps_new c ∅ (dependencies_set c (Some ∅)
                (visited_add c (set_coords rest s)))) in *.
    assert (∀ y si sk, dangling x si →
      multi_step (find_coord_dependencies fuel) c y si = Ok sk →
      dangling x sk ∧ ∀ e, e ∈ coords si → x ∈ spec_deps e.2 → e ∈ coords sk) as Hstep.
    { intros y si sk Hsi Hms. unfold multi_step in Hms.
      apply bind_Ok in Hms as (sj & Hfind' & Hms).
      apply bind_Ok in Hms as (sj' & Hadd & Hior).
      destruct (IH _ _ _ Hsi Hfind') as [Hdj Hkeep].
      apply dependencies_add_Ok in Hadd as (Hc1 & Hv1 & _ & _).
      apply base_deps_ior_Ok in Hior as (Hc2 & Hv2 & _ & _).
      split; [unfold dangling; by rewrite Hc2, Hv2, Hc1, Hv1|].
      intros e He Hx. rewrite Hc2, Hc1. by apply Hkeep. }
    split.
    + eapply (for_each_Ok _ (dangling x)); [done|exact Hent|].
      intros y si sk _ Hsi Hms. by apply (Hstep y si sk).
    + intros e He Hx. destruct (Hinv e He) as [->|Hin].
      * simpl in Hx.
        destruct (for_each_Ok_elem _ (dangling x) ys s2 s' x Hfind) as (si & si' & Hsi & Hms);
          [exact Hent| |done|].
        { intros y sa sb _ Ha Hb. by apply (Hstep y sa sb). }
        unfold multi_step in Hms. apply bind_Ok in Hms as (sj & Hfind' & _).
        by apply find_dangling_self in Hfind'.
      * assert (dangling x s' ∧ e ∈ coords s') as [_ ?]; [|done].
        eapply (for_each_Ok _ (λ si, dangling x si ∧ e ∈ coords si)); [done|by split|].
        intros y si sk _ [Hsi Hei] Hms. destruct (Hstep y si sk Hsi Hms). auto.
Qed.

Lemma validate_loop_dangling x n :
  ∀ s s' e, dangling x s → e ∈ coords s → x ∈ spec_deps e.2 →
    validate_loop n s ≠ Ok s'.
Proof.
  induction n as [|n IH]; intros s s' e Hdg He Hx Hloop.
  - unfold validate_loop in Hloop. destruct (coords s) as [|[c sp] cs]; [|done].
    by apply elem_of_nil in He.
  - rewrite validate_loop_unfold in Hloop.
    destruct (coords s) as [|[c sp] cs] eqn:Hcs; [by apply elem_of_nil in He|].
    apply bind_Ok in Hloop as (s1 & Hfind & Hloop).
    destruct (find_dangling x _ _ _ _ Hdg Hfind) as [Hdg1 Hkeep].
    eapply (IH s1 s' e); [done| |done..]. apply Hkeep; [|done]. by rewrite Hcs.
Qed.

(* A returning validation has met declared names only. *)
Lemma Ok_closed d res :
  _validate_coords (ArgDict d) = Ok res → closed d.
Proof.
  intros Hval. unfold _validate_coords in Hval.
  apply bind_Ok in Hval as (s & Hloop & _).
  unfold closed. apply Forall_forall. intros e He. apply Forall_forall. intros x Hx.
  destruct (decide (x ∈ d.*1)) as [|Hnot]; [done|].
  destruct (validate_loop_dangling x (length d) (init_state d) s e); done.
Qed.

(** Whenever [_validate_coords] returns on a mapping, every dependency
    name of the mapping is a declared coordinate: a dependency on a name
    that is not declared is never accepted. *)
Theorem validate_Ok_closed d res :
  _validate_coords (ArgDict d) = Ok res → closed d.
Proof. exact (Ok_closed d res). Qed.

Lemma validate_Ok_closed_witness :
  let d := [("m", DIter ["a"; "b"]); ("a", DStr "m"); ("b", DNone)] in
  let r := {| v_coords := [("m", Some {["a"; "b"]}); ("a", Some {["m"]}); ("b", None)];
              v_base_coords := ["b"];
              v_base_dependencies := {["m" := {["b"]}; "a" := {["b"]}; "b" := {["b"]}]} |} in
  _validate_coords (ArgDict d) = Ok (r, ArgDict []) ∧ closed d.
Proof.
  intros d r.
  assert (_validate_coords (ArgDict d) = Ok (r, ArgDict [])) as H by by_compute.
  split; [exact H|]. exact (validate_Ok_closed d _ H).
Defined.

(** ** The shape of a returned result *)

(** The value that [dependencies] holds for a dependency spec: [None], the
    singleton of the name, or the set of the names. *)
Definition spec_set (sp : dep_spec) : option (gset string) :=
  match sp with
  | DNone => None
  | DStr x => Some {[x]}
  | DIter xs => Some (list_to_set xs)
  end.

(** What every state of the traversal keeps, cyclic declaration or not. *)
Record xinv (d : list (string * dep_spec)) (s : vstate) : Prop := XInv {
  x_vis : ∀ c, c ∈ visited s → c ∈ d.*1;
  x_base_nodup : NoDup (base_coords s);
  x_base : ∀ b, b ∈ base_coords s ↔ b ∈ visited s ∧ OD.get b d = Some DNone;
  x_sets : ∀ X b, X ∈ sets s → b ∈ X → b ∈ base_coords s;
  x_bd_dep : ∀ c, is_Some (base_deps s !! c) → c ∈ (dependencies s).*1;
  x_dep_nodup : NoDup (dependencies s).*1
}.

(** The coordinates visited between [s] and [s'] have their entry of
    [dependencies] in [s']. *)
Definition resolved (d : list (string * dep_spec)) (s s' : vstate) : Prop :=
  ∀ k, k ∈ visited s' → k ∉ visited s →
    ∃ sp, OD.get k d = Some sp ∧ OD.get k (dependencies s') = Some (spec_set sp).

Lemma xinv_init d : xinv d (init_state d).
Proof.
  constructor; simpl.
  - set_solver.
  - apply NoDup_nil_2.
  - intros b. rewrite elem_of_nil. set_solver.
  - intros X b HX. by apply elem_of_nil in HX.
  - intros c [? H]. by rewrite lookup_empty in H.
  - apply NoDup_nil_2.
Qed.

Lemma xinv_enter d c sp rest s :
  xinv d s → c ∉ visited s → OD.get c d = Some sp → sp ≠ DNone →
  xinv d (visited_add c (set_coords rest s)).
Proof.
  intros [] Hc Hcd Hsp. constructor; simpl; try done.
  - intros c' [->%elem_of_singleton|?]%elem_of_union; [|auto].
    by eapply ODFacts.get_Some_keys.
  - intros b. rewrite x_base0, elem_of_union, elem_of_singleton. split; [naive_solver|].
    intros [[->|?] ?]; [congruence|done].
Qed.

Lemma xinv_base d c rest s :
  xinv d s → c ∉ visited s → OD.get c d = Some DNone →
  xinv d (visited_add c (base_deps_new c {[c]}
    (dependencies_set c None (base_coords_append c (set_coords rest s))))).
Proof.
  intros [] Hc Hcd. constructor; simpl.
  - intros c' [->%elem_of_singleton|?]%elem_of_union; [|auto].
    by eapply ODFacts.get_Some_keys.
  - apply NoDup_app. split_and!; [done| |apply NoDup_singleton].
    intros b Hb ->%list_elem_of_singleton. apply Hc. by apply x_base0.
  - intros b. rewrite elem_of_app, list_elem_of_singleton, x_base0, elem_of_union,
      elem_of_singleton. naive_solver.
  - intros X b [HX| ->%list_elem_of_singleton]%elem_of_app Hb.
    + apply elem_of_app. left. eauto.
    + apply elem_of_singleton in Hb as ->. apply elem_of_app. right. by left.
  - intros c' Hc'. apply ODFacts.elem_of_keys_set.
    destruct (decide (c' = c)) as [->|]; [by left|]. right.
    rewrite lookup_insert_ne in Hc' by done. auto.
  - by apply ODFacts.NoDup_keys_set.
Qed.

Lemma xinv_register d c v s :
  xinv d s → xinv d (base_deps_new c ∅ (dependencies_set c v s)).
Proof.
  intros []. constructor; simpl; try done.
  - intros X b [HX| ->%list_elem_of_singleton]%elem_of_app Hb; [eauto|set_solver].
  - intros c' Hc'. apply ODFacts.elem_of_keys_set.
    destruct (decide (c' = c)) as [->|]; [by left|]. right.
    rewrite lookup_insert_ne in Hc' by done. auto.
  - by apply ODFacts.NoDup_keys_set.
Qed.

Lemma xinv_alias_exit d c v l s :
  xinv d s →
  xinv d {| coords := coords s; base_coords := base_coords s;
            dependencies := OD.set c v (dependencies s);
            base_deps := <[c := l]> (base_deps s); sets := sets s;
            visited := visited s |}.
Proof.
  intros []. constructor; simpl; try done.
  - intros c' Hc'. apply ODFacts.elem_of_keys_set.
    destruct (decide (c' = c)) as [->|]; [by left|]. right.
    rewrite lookup_insert_ne in Hc' by done. auto.
  - by apply ODFacts.NoDup_keys_set.
Qed.

Lemma elem_of_lookup_total (l : list (gset string)) i b :
  b ∈ l !!! i → ∃ X, X ∈ l ∧ b ∈ X.
Proof.
  rewrite list_lookup_total_alt. destruct (l !! i) as [X|] eqn:E; simpl.
  - intros ?. exists X. split; [|done]. by eapply list_elem_of_lookup_2.
  - set_solver.
Qed.

Lemma xinv_multi_step d c v lc lx s :
  xinv d s →
  xinv d {| coords := coords s; base_coords := base_coords s;
            dependencies := OD.set c v (dependencies s);
            base_deps := <[c := lc]> (base_deps s);
            sets := <[lc := (sets s !!! lc) ∪ (sets s !!! lx)]> (sets s);
            visited := visited s |}.
Proof.
  intros []. constructor; simpl; try done.
  - intros X b HX Hb. apply list_elem_of_lookup in HX as [i Hi].
    apply list_lookup_insert_Some in Hi as [(_ & HX & _)|[_ Hi]].
    + rewrite <-HX in Hb. apply elem_of_union in Hb as [Hb|Hb];
        apply elem_of_lookup_total in Hb as (Y & HY & Hb); eauto.
    + eapply x_sets0; [|done]. by eapply list_elem_of_lookup_2.
  - intros c' Hc'. apply ODFacts.elem_of_keys_set.
    destruct (decide (c' = c)) as [->|]; [by left|]. right.
    rewrite lookup_insert_ne in Hc' by done. auto.
  - by apply ODFacts.NoDup_keys_set.
Qed.

Lemma find_shape d :
  closed d →
  ∀ fuel c s, ginv d s → xinv d s → c ∈ d.*1 → length (coords s) < fuel →
    post (λ s', find_post d c s s' ∧ xinv d s' ∧ resolved d s s')
      (λ e, e = GraphIsCyclicError) False (find_coord_dependencies fuel c s).
Proof.
  intros Hd. induction fuel as [|fuel IH]; intros c s Hs Hx Hc Hfuel; [lia|].
  rewrite find_unfold. destruct (decide (c ∈ visited s)) as [Hv|Hv].
  { case_decide; simpl; [|done]. split_and!; [|done|by intros ???].
    split_and!; [done|apply frame_refl|done..]. }
  apply post_bind, post_getitem.
  2:{ intros Hp%ODFacts.pop_None. destruct (g_cover _ _ Hs c Hc); done. }
  intros [sp rest] Hpop. simpl.
  destruct (ginv_enter _ _ _ _ _ Hs Hv Hpop) as (Hs1 & Hf1 & Hsp & Hlen).
  assert (c ∈ visited (visited_add c (set_coords rest s))) as Hv1 by (simpl; set_solver).
  destruct sp as [|x|xs].
  - (* base coordinate *)
    destruct (ginv_register d c None {[c]} s _
      (ginv_base_coords_append _ c _ Hs1) (frame_base_coords_append _ c _ Hf1) Hv Hv1)
      as (Hs2 & Hf2 & Hg2 & _).
    simpl. split_and!; [|by apply xinv_base|].
    + split_and!; [exact Hs2 | exact Hf2 | | simpl; lia].
      eapply ODFacts.get_Some_keys, Hg2.
    + intros k Hk Hk'. simpl in Hk. assert (k = c) as -> by set_solver.
      exists DNone. split; [done|]. exact Hg2.
  - (* alias *)
    apply post_bind.
    eapply post_mono; [apply (IH x _ Hs1) | | done..].
    + by apply (xinv_enter d c (DStr x)).
    + eapply closed_get; [done..|]. simpl. by left.
    + simpl. lia.
    + intros s2 ((Hs2 & Hf2 & Hx2 & _) & Hxi2 & Hres2). simpl.
      assert (c ∈ visited s2) as Hc2 by by apply (f_vis _ _ Hf2).
      destruct (ginv_alias_exit d c x s s2 Hs2) as (l & Hl & Hex);
        [by eapply frame_trans|done..|].
      destruct (Hex _ eq_refl) as (-> & Hs3 & Hf3 & Hc3). simpl.
      split_and!; [|by apply xinv_alias_exit|].
      * split_and!; [done..|]. intros _. destruct Hf2. simpl in *. lia.
      * intros k Hk Hk'. simpl in Hk. destruct (decide (k = c)) as [->|Hkc].
        -- exists (DStr x). split; [done|]. simpl. rewrite ODFacts.get_set.
           by rewrite decide_True.
        -- destruct (Hres2 k Hk) as (spk & Hspk & Hgk); [simpl; set_solver|].
           exists spk. split; [done|]. simpl. rewrite ODFacts.get_set.
           by rewrite decide_False.
  - (* several dependencies *)
    set (s1 := visited_add c (set_coords rest s)) in *.
    destruct (ginv_register d c (Some ∅) ∅ s s1 Hs1 Hf1 Hv Hv1)
      as (Hs2 & Hf2 & Hg2 & Hb2 & _).
    assert (xinv d (base_deps_new c ∅ (dependencies_set c (Some ∅) s1))) as Hx2.
    { apply xinv_register. by apply (xinv_enter d c (DIter xs)). }
    set (s2 := base_deps_new c ∅ (dependencies_set c (Some ∅) s1)) in *.
    set (lc := length (sets s)).
    pose (L := λ (dn : list string) (si : vstate),
      ginv d si ∧ frame s si ∧ c ∈ visited si ∧
      OD.get c (dependencies si) = Some (Some (list_to_set dn)) ∧
      base_deps si !! c = Some lc ∧
      length (coords si) < length (coords s) ∧
      xinv d si ∧
      ∀ k, k ∈ visited si → k ∉ visited s → k ≠ c →
        ∃ sp, OD.get k d = Some sp ∧ OD.get k (dependencies si) = Some (spec_set sp)).
    eapply post_mono;
      [apply (post_for_each _ L (λ e, e = GraphIsCyclicError) False xs [] s2) | | done..].
    + split_and!; [done..| simpl; lia | done |].
      intros k Hk Hk' Hkc. simpl in Hk. set_solver.
    + intros dn x r si Hxs (Hsi & Hfi & Hci & HX & Hbi & Hli & Hxi & Hri).
      assert (x ∈ xs) as Hxin.
      { simpl in Hxs. rewrite Hxs. apply elem_of_app. right. by left. }
      unfold multi_step. apply post_bind.
      eapply post_mono; [apply (IH x _ Hsi Hxi) | | done..].
      * by eapply closed_get.
      * lia.
      * intros sj ((Hsj & Hfj & Hxj & _) & Hxij & Hresj).
        assert (base_deps sj !! c = Some lc) as Hbj by by rewrite (f_bd _ _ Hfj).
        destruct (ginv_multi_step_exit d c x (list_to_set dn) lc s sj Hsj)
          as (lx & Hlx & Hex);
          [by eapply frame_trans | done | by apply (f_vis _ _ Hfj)
          | by rewrite (f_deps _ _ Hfj) | done | done | done |].
        destruct (Hex _ eq_refl) as (Heq & Hsk & Hfk).
        change (post (L (dn ++ [x])) (λ e, e = GraphIsCyclicError) False
          (dependencies_add c x sj ≫= base_deps_ior c x)).
        rewrite Heq. simpl.
        split_and!; [done..| | | | |by apply xinv_multi_step|]; simpl.
        -- by apply (f_vis _ _ Hfj).
        -- rewrite ODFacts.get_set, decide_True by done. do 2 f_equal.
           rewrite list_to_set_snoc_L. set_solver.
        -- by rewrite lookup_insert_eq.
        -- destruct Hfj. lia.
        -- intros k Hk Hk' Hkc. rewrite ODFacts.get_set, decide_False by done.
           destruct (decide (k ∈ visited si)) as [Hki|Hki].
           ++ destruct (Hri k Hki Hk' Hkc) as (spk & ? & ?). exists spk.
              split; [done|]. by rewrite (f_deps _ _ Hfj).
           ++ by apply Hresj.
    + intros s' (Hs' & Hf' & Hc' & HX & _ & Hl' & Hx' & Hr').
      split_and!; [|done|].
      * split_and!; [done..| |done]. by eapply ODFacts.get_Some_keys.
      * intros k Hk Hk'. destruct (decide (k = c)) as [->|Hkc]; [|by apply Hr'].
        exists (DIter xs). by split.
Qed.

Lemma resolved_trans d s1 s2 s3 :
  frame s2 s3 → resolved d s1 s2 → resolved d s2 s3 → resolved d s1 s3.
Proof.
  intros Hf H12 H23 k Hk Hk'. destruct (decide (k ∈ visited s2)) as [Hk2|Hk2].
  - destruct (H12 k Hk2 Hk') as (sp & ? & ?). exists sp. split; [done|].
    by rewrite (f_deps _ _ Hf).
  - by apply H23.
Qed.

Lemma validate_loop_shape d :
  closed d →
  ∀ n s, ginv d s → xinv d s → length (coords s) ≤ n →
    post (λ s', ginv d s' ∧ xinv d s' ∧ frame s s' ∧ resolved d s s' ∧ coords s' = [])
      (λ e, e = GraphIsCyclicError) False (validate_loop n s).
Proof.
  intros Hd. induction n as [|n IH]; intros s Hs Hx Hn.
  - destruct (coords s) as [|[c sp] cs] eqn:Hcs; simpl in *; [|lia].
    unfold validate_loop. rewrite Hcs. simpl.
    split_and!; [done..|apply frame_refl| |done]. by intros ???.
  - rewrite validate_loop_unfold. destruct (coords s) as [|[c sp] cs] eqn:Hcs.
    { simpl. split_and!; [done..|apply frame_refl| |done]. by intros ???. }
    assert (OD.get c (coords s) = Some sp) as Hget.
    { rewrite Hcs. simpl. by rewrite decide_True. }
    assert (c ∉ visited s) as Hv.
    { intros Hv. eapply g_disj; [done..|]. by eapply ODFacts.get_Some_keys. }
    apply post_bind. rewrite <-Hcs.
    eapply post_mono; [apply (find_shape d Hd _ c s Hs Hx) | | done..].
    + eapply ODFacts.get_Some_keys, g_sub; done.
    + lia.
    + intros s1 ((Hs1 & Hf1 & _ & Hlt) & Hx1 & Hr1). simpl.
      eapply post_mono; [apply (IH s1 Hs1 Hx1) | | done..].
      * specialize (Hlt Hv). rewrite Hcs in Hlt. simpl in *. lia.
      * intros s2 (Hs2 & Hx2 & Hf2 & Hr2 & Hc2). split_and!; [done..| | |done].
        -- by eapply frame_trans.
        -- by eapply resolved_trans.
Qed.

(** The final state of a validation that returns. *)
Lemma validate_shape d r arg' :
  NoDup d.*1 → _validate_coords (ArgDict d) = Ok (r, arg') →
  ∃ s, ginv d s ∧ xinv d s ∧ resolved d (init_state d) s ∧ coords s = [] ∧
       r = {| v_coords := dependencies s; v_base_coords := base_coords s;
              v_base_dependencies := base_deps_view s |}.
Proof.
  intros Hnd Hval. pose proof (Ok_closed d _ Hval) as Hd.
  pose proof (validate_loop_shape d Hd (length d) (init_state d)
    (ginv_init d Hnd) (xinv_init d) (reflexivity _)) as Hloop.
  unfold _validate_coords in Hval.
  destruct (validate_loop (length d) (init_state d)) as [s| |]; simpl in *; [|done..].
  destruct Hloop as (Hs & Hx & _ & Hr & Hc). exists s. by simplify_eq.
Qed.

Lemma validate_shape_visited d s :
  ginv d s → xinv d s → coords s = [] → ∀ c, c ∈ visited s ↔ c ∈ d.*1.
Proof.
  intros Hs Hx Hc c. split; [apply Hx|]. intros Hin.
  destruct (g_cover _ _ Hs c Hin) as [?|Hk]; [done|].
  rewrite Hc in Hk. by apply elem_of_nil in Hk.
Qed.

(* The stored dependencies, read off the final state. *)
Lemma stored_dependencies_spec d r arg' :
  NoDup d.*1 → _validate_coords (ArgDict d) = Ok (r, arg') →
  NoDup (v_coords r).*1 ∧
  ∀ c, OD.get c (v_coords r) = spec_set <$> OD.get c d.
Proof.
  intros Hnd Hval.
  destruct (validate_shape d r arg' Hnd Hval) as (s & Hs & Hx & Hr & Hc & ->). simpl.
  split; [apply Hx|]. intros c.
  destruct (decide (c ∈ d.*1)) as [Hin|Hin].
  - apply (validate_shape_visited d s Hs Hx Hc) in Hin.
    destruct (Hr c Hin) as (sp & Hsp & Hg); [simpl; set_solver|]. by rewrite Hsp, Hg.
  - assert (OD.get c d = None) as -> by by apply ODFacts.get_None.
    simpl. apply ODFacts.get_None. intros Hk. apply Hin, (x_vis _ _ Hx).
    by eapply g_dep_vis.
Qed.

(** The mapping that a validation returns is the declaration, with the
    dependencies of each coordinate as a set: [None] for [None], the
    singleton of the name for a string, and the set of the names
    otherwise; it has the declared coordinates as keys, each once.  This
    holds for cyclic declarations that are accepted, too. *)
Theorem validate_stored_dependencies d r arg' :
  NoDup d.*1 → _validate_coords (ArgDict d) = Ok (r, arg') →
  NoDup (v_coords r).*1 ∧
  ∀ c, OD.get c (v_coords r) = spec_set <$> OD.get c d.
Proof. exact (stored_dependencies_spec d r arg'). Qed.

Lemma validate_stored_dependencies_witness :
  let d := [("m", DIter ["a"; "b"]); ("a", DStr "m"); ("b", DNone)] in
  let r := {| v_coords := [("m", Some {["a"; "b"]}); ("a", Some {["m"]}); ("b", None)];
              v_base_coords := ["b"];
              v_base_dependencies := {["m" := {["b"]}; "a" := {["b"]}; "b" := {["b"]}]} |} in
  (NoDup d.*1 ∧ _validate_coords (ArgDict d) = Ok (r, ArgDict [])) ∧
  NoDup (v_coords r).*1 ∧ ∀ c, OD.get c (v_coords r) = spec_set <$> OD.get c d.
Proof.
  intros d r.
  assert (NoDup d.*1) as H1 by by_decide.
  assert (_validate_coords (ArgDict d) = Ok (r, ArgDict [])) as H2 by by_compute.
  split; [done|]. exact (validate_stored_dependencies d r _ H1 H2).
Defined.

(* The base coordinates, read off the final state. *)
Lemma base_coords_spec d r arg' :
  NoDup d.*1 → _validate_coords (ArgDict d) = Ok (r, arg') →
  NoDup (v_base_coords r) ∧
  ∀ b, b ∈ v_base_coords r ↔ OD.get b d = Some DNone.
Proof.
  intros Hnd Hval.
  destruct (validate_shape d r arg' Hnd Hval) as (s & Hs & Hx & Hr & Hc & ->). simpl.
  split; [apply Hx|]. intros b. rewrite (x_base _ _ Hx).
  rewrite (validate_shape_visited d s Hs Hx Hc). split; [naive_solver|].
  intros Hb. split; [|done]. by eapply ODFacts.get_Some_keys.
Qed.

(** The base coordinates that a validation returns are the coordinates
    declared with [None], each once. *)
Theorem validate_base_coords d r arg' :
  NoDup d.*1 → _validate_coords (ArgDict d) = Ok (r, arg') →
  NoDup (v_base_coords r) ∧
  ∀ b, b ∈ v_base_coords r ↔ OD.get b d = Some DNone.
Proof. exact (base_coords_spec d r arg'). Qed.

Lemma validate_base_coords_witness :
  let d := [("m", DIter ["a"; "b"]); ("a", DStr "m"); ("b", DNone)] in
  let r := {| v_coords := [("m", Some {["a"; "b"]}); ("a", Some {["m"]}); ("b", None)];
              v_base_coords := ["b"];
              v_base_dependencies := {["m" := {["b"]}; "a" := {["b"]}; "b" := {["b"]}]} |} in
  (NoDup d.*1 ∧ _validate_coords (ArgDict d) = Ok (r, ArgDict [])) ∧
  NoDup (v_base_coords r) ∧ ∀ b, b ∈ v_base_coords r ↔ OD.get b d = Some DNone.
Proof.
  intros d r.
  assert (NoDup d.*1) as H1 by by_decide.
  assert (_validate_coords (ArgDict d) = Ok (r, ArgDict [])) as H2 by by_compute.
  split; [done|]. exact (validate_base_coords d r _ H1 H2).
Defined.

(* Domain and range of the base-dependency map. *)
Lemma base_dependencies_spec d r arg' :
  NoDup d.*1 → _validate_coords (ArgDict d) = Ok (r, arg') →
  (∀ c, is_Some (v_base_dependencies r !! c) ↔ c ∈ d.*1) ∧
  (∀ c B b, v_base_dependencies r !! c = Some B → b ∈ B → b ∈ v_base_coords r).
Proof.
  intros Hnd Hval.
  destruct (validate_shape d r arg' Hnd Hval) as (s & Hs & Hx & Hr & Hc & ->). simpl.
  split.
  - intros c. rewrite base_deps_view_lookup, <-(validate_shape_visited d s Hs Hx Hc). split.
    + intros [B (l & Hl & _)%val_Some]. eapply g_bd_vis; eauto.
    + intros Hv. destruct (Hr c Hv) as (sp & _ & Hg); [simpl; set_solver|].
      destruct (g_dep_bd _ _ Hs c) as [l Hl]; [by eapply ODFacts.get_Some_keys|].
      destruct (lookup_lt_is_Some_2 (sets s) l) as [B HB]; [by eapply g_loc|].
      exists B. apply val_Some. eauto.
  - intros c B b. rewrite base_deps_view_lookup. intros (l & Hl & HB)%val_Some Hb.
    eapply (x_sets _ _ Hx); [|done]. by eapply list_elem_of_lookup_2.
Qed.

(** The base-dependency map that a validation returns has an entry for
    every declared coordinate and for no other name, and every set in it
    holds base coordinates only. *)
Theorem validate_base_dependencies_shape d r arg' :
  NoDup d.*1 → _validate_coords (ArgDict d) = Ok (r, arg') →
  (∀ c, is_Some (v_base_dependencies r !! c) ↔ c ∈ d.*1) ∧
  (∀ c B b, v_base_dependencies r !! c = Some B → b ∈ B → b ∈ v_base_coords r).
Proof. exact (base_dependencies_spec d r arg'). Qed.

Lemma validate_base_dependencies_shape_witness :
  let d := [("m", DIter ["a"; "b"]); ("a", DStr "m"); ("b", DNone)] in
  let r := {| v_coords := [("m", Some {["a"; "b"]}); ("a", Some {["m"]}); ("b", None)];
              v_base_coords := ["b"];
              v_base_dependencies := {["m" := {["b"]}; "a" := {["b"]}; "b" := {["b"]}]} |} in
  (NoDup d.*1 ∧ _validate_coords (ArgDict d) = Ok (r, ArgDict [])) ∧
  (∀ c, is_Some (v_base_dependencies r !! c) ↔ c ∈ d.*1) ∧
  (∀ c B b, v_base_dependencies r !! c = Some B → b ∈ B → b ∈ v_base_coords r).
Proof.
  intros d r.
  assert (NoDup d.*1) as H1 by by_decide.
  assert (_validate_coords (ArgDict d) = Ok (r, ArgDict [])) as H2 by by_compute.
  split; [done|]. exact (validate_base_dependencies_shape d r _ H1 H2).
Defined.

(** * Projection to xarray *)

(** The argument of a validation is a list, or a mapping, whose keys are
    unique. *)
Definition is_mapping (arg : coords_arg) : Prop :=
  match arg with
  | ArgList _ => True
  | ArgDict d => NoDup d.*1
  end.

(** What both paths of the validation give: unique keys, base coordinates
    that are keys, each once, and for every key a base-dependency set of
    base coordinates. *)
Lemma validated_base_deps arg r arg' :
  is_mapping arg → _validate_coords arg = Ok (r, arg') →
  NoDup (v_coords r).*1 ∧
  NoDup (v_base_coords r) ∧
  (∀ b, b ∈ v_base_coords r → b ∈ (v_coords r).*1) ∧
  ∀ c, c ∈ (v_coords r).*1 →
    ∃ B, v_base_dependencies r !! c = Some B ∧ ∀ b, b ∈ B → b ∈ v_base_coords r.
Proof.
  intros Harg Hval. destruct arg as [names|d].
  - destruct (list_path_result names) as (r' & Hval' & Hbk & _ & Hfo & Hbd).
    rewrite Hval in Hval'. simplify_eq. split_and!.
    + rewrite <-Hbk, Hfo. apply NoDup_first_occ.
    + rewrite Hfo. apply NoDup_first_occ.
    + intros b. by rewrite Hbk.
    + intros c Hc. rewrite <-Hbk in Hc. pose proof Hc as Hc'.
      rewrite Hfo in Hc'. apply elem_of_first_occ in Hc' as [Hin _].
      exists {[c]}. rewrite Hbd, decide_True by done. split; [done|].
      by intros b ->%elem_of_singleton.
  - simpl in Harg.
    destruct (stored_dependencies_spec d r _ Harg Hval) as [Hnd Hget].
    destruct (base_coords_spec d r _ Harg Hval) as [Hnb Hbase].
    destruct (base_dependencies_spec d r _ Harg Hval) as [Hdom Hsub].
    split_and!; [done|done| |].
    + intros b Hb%Hbase. apply ODFacts.get_is_Some. rewrite Hget, Hb. by eexists.
    + intros c Hc.
      apply ODFacts.get_is_Some in Hc as [v Hv]. rewrite Hget in Hv.
      destruct (OD.get c d) as [sp|] eqn:Hsp; [|done].
      destruct (proj2 (Hdom c)) as [B HB]; [by eapply ODFacts.get_Some_keys|].
      exists B. split; [done|]. intros b Hb. by eapply Hsub.
Qed.

Lemma filter_all {A} (P : A → Prop) `{!∀ x, Decision (P x)} (l : list A) :
  (∀ x, x ∈ l → P x) → filter P l = l.
Proof.
  induction l as [|x l IH]; intros HP; [done|].
  rewrite filter_cons, decide_True by (apply HP; by left).
  rewrite IH; [done|]. intros ??. apply HP. by right.
Qed.

Lemma map_each_ext2 {A A' B} (f : A → outcome B) (g : A' → outcome B) l l' :
  Forall2 (λ x y, f x = g y) l l' → map_each f l = map_each g l'.
Proof. induction 1 as [|x y l l' Hxy _ IH]; simpl; [done|]. by rewrite Hxy, IH. Qed.

Lemma map_each_Ok_inv {A B} (f : A → outcome B) l ys :
  map_each f l = Ok ys → Forall2 (λ x y, f x = Ok y) l ys.
Proof.
  revert ys. induction l as [|x l IH]; intros ys Hm; simpl in Hm.
  - by simplify_eq.
  - apply bind_Ok in Hm as (y & Hy & Hm). apply bind_Ok in Hm as (ys' & Hys & ?).
    simplify_eq. constructor; auto.
Qed.

Lemma choose_list {A B} (P : A → B → Prop) l :
  (∀ x, x ∈ l → ∃ y, P x y) → ∃ l', Forall2 P l l'.
Proof.
  induction l as [|x l IH]; intros Hex.
  - by exists [].
  - destruct (Hex x) as [y Hy]; [by left|].
    destruct IH as [l' Hl']; [intros ??; apply Hex; by right|].
    exists (y :: l'). by constructor.
Qed.

Section projection.

Context {frame series level dataarray dataset attrs_t vars_t : Type}.
Variable reset_index : list string → frame → outcome frame.
Variable getitem_col : string → frame → outcome series.
Variable columns : frame → list string.
Variable get_level_values : string → frame → outcome level.
Variable values_series : frame → list level → list string → outcome series.
Variable level_series : level → list level → list string → outcome series.
Variable from_series : series → outcome dataarray.
Variable Dataset :
  list (string * dataarray) → list (string * dataarray) → attrs_t → outcome dataset.
Variable set_iter : gset string → list string.

(** What is observed of the objects of pandas and of xarray: the names of
    the index levels of a frame and of a series, the dimensions of an
    array, and the number of missing (null) entries in an index level, in
    a column, in a series and in an array. *)
Variable index_names : frame → list string.
Variable series_index : series → list string.
Variable array_dims : dataarray → list string.
Variable level_nulls : string → frame → nat.
Variable col_nulls : string → frame → nat.
Variable series_nulls : series → nat.
Variable array_nulls : dataarray → nat.

(** The contract of [reset_index(levels, drop=False)]: levels of the index
    that are not yet columns are moved from the index to the columns,
    with their entries. *)
Hypothesis reset_index_spec : ∀ ls f,
  (∀ l, l ∈ ls → l ∈ index_names f) → (∀ l, l ∈ ls → l ∉ columns f) →
  ∃ f', reset_index ls f = Ok f' ∧
    index_names f' = filter (λ n, n ∉ ls) (index_names f) ∧
    (∀ c, c ∈ columns f' ↔ c ∈ ls ∨ c ∈ columns f) ∧
    (∀ l, l ∈ ls → col_nulls l f' = level_nulls l f).

(** The contract of [df[col]]: the column, indexed as the frame is. *)
Hypothesis getitem_col_spec : ∀ k f,
  k ∈ columns f →
  ∃ sr, getitem_col k f = Ok sr ∧ series_index sr = index_names f ∧
        series_nulls sr = col_nulls k f.

(** The contract of [from_series], when it returns: the dimensions of the
    array are the named index levels of the series; an array made of a
    series with one index level has the entries of the series, and so
    its missing entries.  (For several levels the array ranges over the
    product of the levels, and can have more.) *)
Hypothesis from_series_spec : ∀ sr da,
  from_series sr = Ok da →
  (series_index sr ≠ [] → array_dims da = series_index sr) ∧
  (length (series_index sr) = 1 → array_nulls da = series_nulls sr).

Let container : Type := @Container.t frame attrs_t vars_t.

(** The coordinates of a container describe its index: they are the
    result of a validation, they are the names of the index levels, and
    none is the name of a column. *)
Record describes_index (self : container) : Prop := DescribesIndex {
  di_valid : ∃ arg r arg', is_mapping arg ∧ _validate_coords arg = Ok (r, arg') ∧
               Container._coords self = Coordinates.of_validated r;
  di_levels : ∀ c, c ∈ (Coordinates._coords (Container._coords self)).*1
                  ↔ c ∈ index_names (Container.table self);
  di_columns : ∀ c, c ∈ (Coordinates._coords (Container._coords self)).*1 →
                  c ∉ columns (Container.table self)
}.

Lemma describes_index_base_deps self :
  describes_index self →
  NoDup (Coordinates._coords (Container._coords self)).*1 ∧
  NoDup (Coordinates._base_coords (Container._coords self)) ∧
  (∀ b, b ∈ Coordinates._base_coords (Container._coords self) →
        b ∈ (Coordinates._coords (Container._coords self)).*1) ∧
  ∀ c, c ∈ (Coordinates._coords (Container._coords self)).*1 →
    ∃ B, Coordinates._base_dependencies (Container._coords self) !! c = Some B ∧
         ∀ b, b ∈ B → b ∈ Coordinates._base_coords (Container._coords self).
Proof.
  intros [(arg & r & arg' & Harg & Hval & ->) _ _]. simpl.
  by apply (validated_base_deps arg r arg').
Qed.

(** The pandas part of the loop body of the two-dimensional branch: the
    series given to [from_series] for a coordinate that is not a base
    coordinate. *)
Lemma coord_array_spec self coord :
  describes_index self →
  coord ∈ (Coordinates._coords (Container._coords self)).*1 →
  coord ∉ Coordinates._base_coords (Container._coords self) →
  ∃ B sr,
    Coordinates._base_dependencies (Container._coords self) !! coord = Some B ∧
    Container.coord_array reset_index getitem_col from_series self coord = from_series sr ∧
    series_index sr = filter (λ n, n ∈ B) (index_names (Container.table self)) ∧
    series_nulls sr = level_nulls coord (Container.table self).
Proof using reset_index_spec getitem_col_spec.
  intros Hdi Hkey Hnb. destruct (describes_index_base_deps self Hdi) as (Hnd & _ & _ & Hbd).
  destruct Hdi as [_ Hlev Hcol].
  destruct (Hbd coord Hkey) as (B & HB & HBbase).
  assert (coord ∉ B) as HcB by (intros ?; apply Hnb; auto).
  set (ls := filter (λ c, c ∉ B) (Container.coords self).*1).
  assert (coord ∈ ls) as Hcls by by apply list_elem_of_filter.
  destruct (reset_index_spec ls (Container.table self)) as (f' & Hreset & Hidx & Hcols & Hnulls).
  { intros l [_ Hl]%list_elem_of_filter. by apply Hlev. }
  { intros l [_ Hl]%list_elem_of_filter. by apply Hcol. }
  destruct (getitem_col_spec coord f') as (sr & Hget & Hsi & Hsn).
  { apply Hcols. by left. }
  exists B, sr. split_and!; [done| | |].
  - unfold Container.coord_array. rewrite HB. cbn [getitem mbind outcome_bind].
    fold ls. rewrite Hreset. cbn [mbind outcome_bind]. by rewrite Hget.
  - rewrite Hsi, Hidx. apply filter_ext_in. intros n Hn. unfold ls.
    rewrite list_elem_of_filter. apply Hlev in Hn. split.
    + intros Hnot. destruct (decide (n ∈ B)); [done|]. by destruct Hnot.
    + intros HnB [HnB' _]. done.
  - rewrite Hsn. by apply Hnulls.
Qed.


(** C7, on the code.  In the one-dimensional branch the attributes of the
    container are not used: the result is the same whatever they are.  In
    no branch are the variables used.  (The attributes do reach the
    dataset of the two-dimensional branch, see [to_xarray_derived_coords].) *)
Theorem to_xarray_metadata_unused (self : container) (a : attrs_t) (v : vars_t) :
  Container.to_xarray reset_index getitem_col columns get_level_values values_series
    level_series from_series Dataset set_iter
    (Container.set_attrs a (Container.set_ndim 1 self))
  = Container.to_xarray reset_index getitem_col columns get_level_values values_series
      level_series from_series Dataset set_iter (Container.set_ndim 1 self) ∧
  Container.to_xarray reset_index getitem_col columns get_level_values values_series
    level_series from_series Dataset set_iter (Container.set_variables v self)
  = Container.to_xarray reset_index getitem_col columns get_level_values values_series
      level_series from_series Dataset set_iter self.
Proof. split; reflexivity. Qed.

End projection.

(** ** An instance of the contract *)

(** A small model of the two engines, to run [to_xarray] on: a frame is
    its rows, each giving a label (or a missing entry, [None]) to the
    names of the index levels and of the columns; a series is a list of
    entries, each with the labels of its index levels; an array has its
    dimensions, the labels of each, and its number of missing entries. *)
Module Rows.

Definition label : Type := option string.
Definition row : Type := list (string * label).

Definition cell (k : string) (r : row) : label := default None (OD.get k r).

Record frame : Type := Frame {
  index : list string;
  columns : list string;
  rows : list row
}.

Record series : Type := Series {
  s_index : list string;
  s_entries : list (list label * label)
}.

Record dataarray : Type := Array {
  dims : list string;
  dim_labels : list (list label);
  a_nulls : nat
}.

Definition dataset : Type :=
  list (string * dataarray) * list (string * dataarray) * list (string * string).

Definition level_nulls (k : string) (f : frame) : nat :=
  length (filter (λ r, cell k r = None) (rows f)).

Definition series_nulls (sr : series) : nat :=
  length (filter (λ e, e.2 = None) (s_entries sr)).

(** [reset_index]: a level that the index does not have is a [KeyError],
    a level whose name is already a column is a [ValueError]; the levels
    become the first columns. *)
Definition reset_index (ls : list string) (f : frame) : outcome frame :=
  if decide (Forall (λ l, l ∈ index f) ls) then
    if decide (Forall (λ l, l ∉ columns f) ls) then
      Ok {| index := filter (λ n, n ∉ ls) (index f); columns := ls ++ columns f;
            rows := rows f |}
    else Raise ValueError
  else Raise KeyError.

Definition getitem_col (k : string) (f : frame) : outcome series :=
  if decide (k ∈ columns f) then
    Ok {| s_index := index f;
          s_entries := (λ r, ((λ n, cell n r) <$> index f, cell k r)) <$> rows f |}
  else Raise KeyError.

Definition get_level_values (k : string) (f : frame) : outcome (list label) :=
  if decide (k ∈ index f) then Ok (cell k <$> rows f) else Raise KeyError.

(** The tuples that [zip] makes of the levels, for levels of [n] entries. *)
Definition tuples (levels : list (list label)) (n : nat) : list (list label) :=
  (λ i, (λ lv, default None (lv !! i)) <$> levels) <$> seq 0 n.

(** The values of a one-dimensional container: those of its one column. *)
Definition values (f : frame) : list label :=
  match columns f with
  | c :: _ => cell c <$> rows f
  | [] => (λ _, None) <$> rows f
  end.

Definition values_series (f : frame) (levels : list (list label)) (names : list string)
    : outcome series :=
  if decide (levels = []) then Raise TypeError
  else Ok {| s_index := names;
             s_entries := zip (tuples levels (length (rows f))) (values f) |}.

Definition level_series (data : list label) (levels : list (list label))
    (names : list string) : outcome series :=
  if decide (levels = []) then Raise TypeError
  else Ok {| s_index := names; s_entries := zip (tuples levels (length data)) data |}.

(** [from_series]: a series with one index level becomes an array over
    the entries of that level, as they are; a series with several levels
    becomes an array over the product of the distinct labels of the
    levels, whose cells without an entry are missing, and is refused with
    [ValueError] when two entries have the same labels. *)
Definition from_series (sr : series) : outcome dataarray :=
  match s_index sr with
  | [] => Ok {| dims := ["index"];
                dim_labels := [(λ i, Some (pretty i)) <$> seq 0 (length (s_entries sr))];
                a_nulls := series_nulls sr |}
  | [n] => Ok {| dims := [n];
                 dim_labels := [(λ e, default None (head e.1)) <$> s_entries sr];
                 a_nulls := series_nulls sr |}
  | names =>
      if decide (NoDup (s_entries sr).*1) then
        let lvls := (λ j, remove_dups ((λ e, default None (e.1 !! j)) <$> s_entries sr))
                      <$> seq 0 (length names) in
        Ok {| dims := names; dim_labels := lvls;
              a_nulls := foldr Nat.mul 1 (length <$> lvls)
                         - length (filter (λ e, e.2 ≠ None) (s_entries sr)) |}
      else Raise ValueError
  end.

(** [Dataset]: arrays that label a shared dimension differently are
    aligned, which is refused with [ValueError] when one of the two has a
    repeated label. *)
Definition Dataset (data_vars coords_ : list (string * dataarray))
    (attrs : list (string * string)) : outcome dataset :=
  let axes := (data_vars.*2 ++ coords_.*2) ≫= (λ a, zip (dims a) (dim_labels a)) in
  if decide (Exists (λ p, Exists (λ q, p.1 = q.1 ∧ p.2 ≠ q.2 ∧
                                       (¬ NoDup p.2 ∨ ¬ NoDup q.2)) axes) axes)
  then Raise ValueError
  else Ok (data_vars, coords_, attrs).

Definition lbl (s : string) : label := Some s.

(** The container of the example: index levels [ind] and [region], one
    column, and the coordinates validated from
    [{ind: None, region: 'ind'}]. *)
Definition example : @Container.t frame (list (string * string)) unit :=
  {| Container.ndim := 2;
     Container.table :=
       {| index := ["ind"; "region"]; columns := ["col1"];
          rows := [ [("ind", lbl "a"); ("region", lbl "X"); ("col1", lbl "1")];
                    [("ind", lbl "b"); ("region", lbl "Y"); ("col1", lbl "2")];
                    [("ind", lbl "c"); ("region", lbl "X"); ("col1", lbl "3")] ] |};
     Container._coords :=
       Coordinates.Make [("ind", None); ("region", Some {["ind"]})] ["ind"]
         {["ind" := {["ind"]}; "region" := {["ind"]}]};
     Container.attrs := [("author", "A")];
     Container.variables := () |}.

(** Two base coordinates, and [region] depending on the first alone:
    coordinates validated from [{ind1: None, ind2: None, region: 'ind1'}]. *)
Definition two_base : @Container.t frame (list (string * string)) unit :=
  {| Container.ndim := 2;
     Container.table :=
       {| index := ["ind1"; "ind2"; "region"]; columns := ["col1"];
          rows := [ [("ind1", lbl "a"); ("ind2", lbl "x"); ("region", lbl "X"); ("col1", lbl "1")];
                    [("ind1", lbl "a"); ("ind2", lbl "y"); ("region", lbl "X"); ("col1", lbl "2")];
                    [("ind1", lbl "b"); ("ind2", lbl "x"); ("region", lbl "Y"); ("col1", lbl "3")];
                    [("ind1", lbl "b"); ("ind2", lbl "y"); ("region", lbl "Y"); ("col1", lbl "4")] ] |};
     Container._coords :=
       Coordinates.Make [("ind1", None); ("ind2", None); ("region", Some {["ind1"]})]
         ["ind1"; "ind2"]
         {["ind1" := {["ind1"]}; "ind2" := {["ind2"]}; "region" := {["ind1"]}]};
     Container.attrs := [("author", "A")];
     Container.variables := () |}.

(** Two base coordinates that do not fill their product. *)
Definition sparse : @Container.t frame (list (string * string)) unit :=
  {| Container.ndim := 2;
     Container.table :=
       {| index := ["ind1"; "ind2"]; columns := ["col1"];
          rows := [ [("ind1", lbl "a"); ("ind2", lbl "x"); ("col1", lbl "1")];
                    [("ind1", lbl "b"); ("ind2", lbl "y"); ("col1", lbl "2")] ] |};
     Container._coords :=
       Coordinates.Make [("ind1", None); ("ind2", None)] ["ind1"; "ind2"]
         {["ind1" := {["ind1"]}; "ind2" := {["ind2"]}]};
     Container.attrs := [];
     Container.variables := () |}.

End Rows.

Lemma rows_reset_index_spec ls f :
  (∀ l, l ∈ ls → l ∈ Rows.index f) → (∀ l, l ∈ ls → l ∉ Rows.columns f) →
  ∃ f', Rows.reset_index ls f = Ok f' ∧
    Rows.index f' = filter (λ n, n ∉ ls) (Rows.index f) ∧
    (∀ c, c ∈ Rows.columns f' ↔ c ∈ ls ∨ c ∈ Rows.columns f) ∧
    (∀ l, l ∈ ls → Rows.level_nulls l f' = Rows.level_nulls l f).
Proof.
  intros H1 H2. unfold Rows.reset_index.
  rewrite decide_True by (apply Forall_forall; auto).
  rewrite decide_True by (apply Forall_forall; auto).
  eexists. split; [done|]. simpl. split_and!; [done| |done].
  intros c. by rewrite elem_of_app.
Qed.

Lemma rows_getitem_col_spec k f :
  k ∈ Rows.columns f →
  ∃ sr, Rows.getitem_col k f = Ok sr ∧ Rows.s_index sr = Rows.index f ∧
        Rows.series_nulls sr = Rows.level_nulls k f.
Proof.
  intros Hk. unfold Rows.getitem_col. rewrite decide_True by done.
  eexists. split; [done|]. split; [done|].
  unfold Rows.series_nulls, Rows.level_nulls. simpl.
  induction (Rows.rows f) as [|r rs IH]; [done|].
  rewrite fmap_cons, !filter_cons. cbn [snd].
  do 2 case_decide; try congruence; cbn [length]; [f_equal|]; exact IH.
Qed.

Lemma rows_from_series_spec sr da :
  Rows.from_series sr = Ok da →
  (Rows.s_index sr ≠ [] → Rows.dims da = Rows.s_index sr) ∧
  (length (Rows.s_index sr) = 1 → Rows.a_nulls da = Rows.series_nulls sr).
Proof.
  unfold Rows.from_series. intros Hda.
  destruct (Rows.s_index sr) as [|n [|n' ns]] eqn:Hidx.
  - simplify_eq. by split.
  - simplify_eq. by split.
  - case_decide; simplify_eq. simpl. split; [done|]. intros; simplify_eq.
Qed.

Lemma rows_example_describes_index :
  describes_index Rows.columns Rows.index Rows.example.
Proof.
  constructor.
  - exists (ArgDict [("ind", DNone); ("region", DStr "ind")]),
      {| v_coords := [("ind", None); ("region", Some {["ind"]})]; v_base_coords := ["ind"];
         v_base_dependencies := {["ind" := {["ind"]}; "region" := {["ind"]}]} |},
      (ArgDict []).
    split_and!; [by_decide|by_compute|reflexivity].
  - done.
  - intros c Hc. simpl in *. set_solver.
Qed.

Lemma rows_two_base_describes_index :
  describes_index Rows.columns Rows.index Rows.two_base.
Proof.
  constructor.
  - exists (ArgDict [("ind1", DNone); ("ind2", DNone); ("region", DStr "ind1")]),
      {| v_coords := [("ind1", None); ("ind2", None); ("region", Some {["ind1"]})];
         v_base_coords := ["ind1"; "ind2"];
         v_base_dependencies :=
           {["ind1" := {["ind1"]}; "ind2" := {["ind2"]}; "region" := {["ind1"]}]} |},
      (ArgDict []).
    split_and!; [by_decide|by_compute|reflexivity].
  - done.
  - intros c Hc. simpl in *. set_solver.
Qed.


(** The dataset of the example: the array of [region] is indexed by [ind]
    alone and has no missing entry; the column keeps the index [ind] of
    the base coordinates. *)
Example to_xarray_region_example :
  Container.to_xarray Rows.reset_index Rows.getitem_col Rows.columns
    Rows.get_level_values Rows.values_series Rows.level_series Rows.from_series
    Rows.Dataset elements Rows.example
  = Ok (Container.XDataset
          ([("col1", Rows.Array ["ind"] [[Some "a"; Some "b"; Some "c"]] 0)],
           [("region", Rows.Array ["ind"] [[Some "a"; Some "b"; Some "c"]] 0)],
           [("author", "A")])).
Proof. by_compute. Qed.


(** The arrays of the columns range over the product of the base
    coordinates: two rows on two base coordinates with two labels each
    leave two cells of the column missing. *)
Example to_xarray_product_example :
  Container.to_xarray Rows.reset_index Rows.getitem_col Rows.columns
    Rows.get_level_values Rows.values_series Rows.level_series Rows.from_series
    Rows.Dataset elements Rows.sparse
  = Ok (Container.XDataset
          ([("col1", Rows.Array ["ind1"; "ind2"]
                       [[Some "a"; Some "b"]; [Some "x"; Some "y"]] 2)],
           [], [])).
Proof. by_compute. Qed.

(** ** Declarations with the same dependencies *)

(** Two declarations give every coordinate the same set of dependencies:
    they may differ in the order of the entries, in the order and the
    repetitions of the names of a dependency spec, and in writing one
    dependency as a string or as a collection. *)
Definition same_graph (d d' : list (string * dep_spec)) : Prop :=
  ∀ c, spec_set <$> OD.get c d = spec_set <$> OD.get c d'.

Lemma elem_of_spec_deps x sp :
  x ∈ spec_deps sp ↔ ∃ X, spec_set sp = Some X ∧ x ∈ X.
Proof.
  destruct sp as [|y|ys]; simpl.
  - rewrite elem_of_nil. naive_solver.
  - rewrite list_elem_of_singleton. split.
    + intros ->. exists {[y]}. split; [done|set_solver].
    + intros (X & ? & Hx). simplify_eq. set_solver.
  - split.
    + intros Hx. exists (list_to_set ys). split; [done|]. by apply elem_of_list_to_set.
    + intros (X & ? & Hx). simplify_eq. by apply elem_of_list_to_set in Hx.
Qed.

Lemma same_graph_sym d d' : same_graph d d' → same_graph d' d.
Proof. intros H c. by rewrite H. Qed.

Lemma same_graph_keys d d' c : same_graph d d' → c ∈ d.*1 → c ∈ d'.*1.
Proof.
  intros H Hc. apply ODFacts.get_is_Some in Hc as [sp Hsp].
  specialize (H c). rewrite Hsp in H. simpl in H.
  destruct (OD.get c d') as [sp'|] eqn:E; [|done]. by eapply ODFacts.get_Some_keys.
Qed.

Lemma same_graph_edge d d' c x : same_graph d d' → dep_edge d c x → dep_edge d' c x.
Proof.
  intros H (sp & Hsp & Hx). specialize (H c). rewrite Hsp in H. simpl in H.
  destruct (OD.get c d') as [sp'|] eqn:E; [|done]. simpl in H. simplify_eq.
  exists sp'. split; [done|]. apply elem_of_spec_deps. apply elem_of_spec_deps in Hx.
  by rewrite <-H.
Qed.

Lemma same_graph_base d d' b :
  same_graph d d' → OD.get b d = Some DNone → OD.get b d' = Some DNone.
Proof.
  intros H Hb. specialize (H b). rewrite Hb in H. simpl in H.
  destruct (OD.get b d') as [[|?|?]|] eqn:E; by simplify_eq.
Qed.

Lemma same_graph_closed d d' : NoDup d'.*1 → same_graph d d' → closed d → closed d'.
Proof.
  intros Hnd H Hd. apply Forall_forall. intros [c sp] Hin. apply Forall_forall.
  intros x Hx. simpl in Hx. apply ODFacts.elem_of_get in Hin; [|done].
  pose proof (H c) as Hc. rewrite Hin in Hc. simpl in Hc.
  destruct (OD.get c d) as [sp0|] eqn:E; [|done]. simpl in Hc. simplify_eq.
  apply (same_graph_keys d d'); [done|]. eapply closed_get; [done..|].
  apply elem_of_spec_deps. apply elem_of_spec_deps in Hx. by rewrite Hc.
Qed.

Lemma same_graph_tc d d' c x :
  same_graph d d' → tc (dep_edge d) c x → tc (dep_edge d') c x.
Proof.
  intros H Hcx. induction Hcx as [c x Hcx|c y x Hcy _ IH].
  - apply tc_once. by eapply same_graph_edge.
  - eapply tc_l; [|done]. by eapply same_graph_edge.
Qed.

Lemma same_graph_acyclic d d' : same_graph d d' → acyclic d → acyclic d'.
Proof.
  intros H Hac c Hc. apply (Hac c). eapply same_graph_tc; [|done]. by apply same_graph_sym.
Qed.

Lemma same_graph_reach d d' c B : same_graph d d' → reach_set d c B → reach_set d' c B.
Proof.
  intros H HB b. rewrite (HB b). split; intros [Hb Hr]; split.
  - by eapply same_graph_base.
  - eapply rtc_subrel; [|done]. intros ??. by apply same_graph_edge.
  - eapply same_graph_base; [|done]. by apply same_graph_sym.
  - eapply rtc_subrel; [|done]. intros ??. by apply same_graph_edge, same_graph_sym.
Qed.

Lemma reach_set_unique d c B B' : reach_set d c B → reach_set d c B' → B = B'.
Proof. intros H H'. apply set_eq. intros b. by rewrite (H b), (H' b). Qed.

(** On an acyclic declaration the validation returns, and each set of the
    base-dependency map holds the base coordinates that the coordinate
    reaches. *)
Lemma validate_acyclic_reach d :
  NoDup d.*1 → closed d → acyclic d →
  ∃ r, _validate_coords (ArgDict d) = Ok (r, ArgDict []) ∧
    ∀ c, c ∈ d.*1 → ∃ B, v_base_dependencies r !! c = Some B ∧ reach_set d c B.
Proof.
  intros Hnd Hd Hac.
  pose proof (validate_loop_acyclic d Hd Hac (length d) (init_state d)
    (ginv_init d Hnd) (ainv_init d) (reflexivity _)) as Hloop.
  unfold _validate_coords.
  destruct (validate_loop (length d) (init_state d)) as [s| |]; simpl in Hloop; [|done..].
  destruct Hloop as (Hs & Ha & Hcs). simpl. rewrite Hcs. eexists. split; [done|]. simpl.
  intros c Hc. assert (c ∈ visited s) as Hv.
  { destruct (g_cover _ _ Hs c Hc) as [?|Hin]; [done|].
    rewrite Hcs in Hin. by apply elem_of_nil in Hin. }
  destruct (a_fin _ _ _ Ha c Hv) as (_ & sp & B & _ & HB & Hreach & _); [set_solver|].
  exists B. by rewrite base_deps_view_lookup.
Qed.

(* Declarations with the same dependency sets are validated alike. *)
Lemma same_graph_result d d' :
  NoDup d.*1 → NoDup d'.*1 → closed d → acyclic d → same_graph d d' →
  ∃ r r', _validate_coords (ArgDict d) = Ok (r, ArgDict []) ∧
          _validate_coords (ArgDict d') = Ok (r', ArgDict []) ∧
          v_base_dependencies r = v_base_dependencies r' ∧
          v_base_coords r ≡ₚ v_base_coords r' ∧
          ∀ c, OD.get c (v_coords r) = OD.get c (v_coords r').
Proof.
  intros Hnd Hnd' Hd Hac Hsame.
  destruct (validate_acyclic_reach d Hnd Hd Hac) as (r & Hval & Hreach).
  destruct (validate_acyclic_reach d' Hnd') as (r' & Hval' & Hreach');
    [by eapply same_graph_closed|by eapply same_graph_acyclic|].
  exists r, r'. split_and!; [done..| | |].
  - apply map_eq. intros c.
    destruct (base_dependencies_spec d r _ Hnd Hval) as [Hdom _].
    destruct (base_dependencies_spec d' r' _ Hnd' Hval') as [Hdom' _].
    destruct (decide (c ∈ d.*1)) as [Hc|Hc].
    + destruct (Hreach c Hc) as (B & -> & HB).
      destruct (Hreach' c) as (B' & -> & HB'); [by eapply same_graph_keys|].
      f_equal. eapply reach_set_unique; [|done]. by eapply same_graph_reach.
    + assert (c ∉ d'.*1) as Hc'.
      { intros ?. apply Hc. eapply same_graph_keys; [|done]. by apply same_graph_sym. }
      rewrite <-Hdom in Hc. rewrite <-Hdom' in Hc'.
      apply eq_None_not_Some in Hc, Hc'. by rewrite Hc, Hc'.
  - destruct (base_coords_spec d r _ Hnd Hval) as [Hn Hb].
    destruct (base_coords_spec d' r' _ Hnd' Hval') as [Hn' Hb'].
    apply NoDup_Permutation; [done..|]. intros b. rewrite Hb, Hb'. split.
    + by apply same_graph_base.
    + by apply same_graph_base, same_graph_sym.
  - intros c.
    destruct (stored_dependencies_spec d r _ Hnd Hval) as [_ ->].
    destruct (stored_dependencies_spec d' r' _ Hnd' Hval') as [_ ->]. apply Hsame.
Qed.

(** The result of the validation of an acyclic declaration depends on the
    dependency sets only: two declarations with the same dependencies
    (in particular the same mapping iterated in another order, as a Python
    2 [dict] may be) get the same base-dependency map, the same base
    coordinates up to their order, and the same stored dependencies. *)
Theorem validate_same_graph d d' :
  NoDup d.*1 → NoDup d'.*1 → closed d → acyclic d → same_graph d d' →
  ∃ r r', _validate_coords (ArgDict d) = Ok (r, ArgDict []) ∧
          _validate_coords (ArgDict d') = Ok (r', ArgDict []) ∧
          v_base_dependencies r = v_base_dependencies r' ∧
          v_base_coords r ≡ₚ v_base_coords r' ∧
          ∀ c, OD.get c (v_coords r) = OD.get c (v_coords r').
Proof. exact (same_graph_result d d'). Qed.

Lemma validate_same_graph_witness :
  let d := [("ind", DNone); ("region", DStr "ind"); ("cell", DIter ["ind"; "region"])] in
  let d' := [("cell", DIter ["region"; "ind"; "ind"]); ("region", DIter ["ind"]);
             ("ind", DNone)] in
  (NoDup d.*1 ∧ NoDup d'.*1 ∧ closed d ∧ acyclic d ∧ same_graph d d') ∧
  ∃ r r', _validate_coords (ArgDict d) = Ok (r, ArgDict []) ∧
          _validate_coords (ArgDict d') = Ok (r', ArgDict []) ∧
          v_base_dependencies r = v_base_dependencies r' ∧
          v_base_coords r ≡ₚ v_base_coords r' ∧
          ∀ c, OD.get c (v_coords r) = OD.get c (v_coords r').
Proof.
  intros d d'.
  assert (NoDup d.*1) as H1 by by_decide.
  assert (NoDup d'.*1) as H2 by by_decide.
  assert (closed d) as H3 by by_decide.
  assert (acyclic d) as H4.
  { apply (ranked_acyclic (λ x, if decide (x = "ind") then 0
                                else if decide (x = "region") then 1 else 2)).
    by_decide. }
  assert (same_graph d d') as H5.
  { intros c. unfold d, d'. simpl.
    repeat (case_decide; simplify_eq; simpl); try done; f_equal; set_solver. }
  split; [done|]. exact (validate_same_graph d d' H1 H2 H3 H4 H5).
Defined.

(** ** Copying and updating a [Coordinates] object *)

Lemma get_stored_specs set_iter k (l : list (string * option (gset string))) :
  OD.get k (Coordinates.stored_specs set_iter l)
  = Coordinates.stored_spec set_iter <$> OD.get k l.
Proof.
  unfold Coordinates.stored_specs. induction l as [|[k0 v0] l IH]; csimpl; [done|].
  case_decide; [done|]. apply IH.
Qed.

Lemma keys_stored_specs set_iter (l : list (string * option (gset string))) :
  (Coordinates.stored_specs set_iter l).*1 = l.*1.
Proof.
  unfold Coordinates.stored_specs. induction l as [|[k0 v0] l IH]; csimpl; [done|].
  by rewrite IH.
Qed.

Lemma spec_set_stored_spec set_iter v :
  (∀ (X : gset string) x, x ∈ set_iter X ↔ x ∈ X) →
  spec_set (Coordinates.stored_spec set_iter v) = v.
Proof.
  intros Hiter. destruct v as [X|]; simpl; [|done]. f_equal.
  apply set_eq. intros x. by rewrite elem_of_list_to_set.
Qed.

(** [copy] of the object validated from an acyclic declaration returns an
    object with the same base-dependency map, the same base coordinates
    up to their order and the same stored dependencies, whatever the
    order in which the stored sets are iterated. *)
Theorem copy_same_graph set_iter d r arg' :
  (∀ (X : gset string) x, x ∈ set_iter X ↔ x ∈ X) →
  NoDup d.*1 → acyclic d → _validate_coords (ArgDict d) = Ok (r, arg') →
  ∃ c', Coordinates.copy set_iter (Coordinates.of_validated r) = Ok c' ∧
        Coordinates._base_dependencies c' = v_base_dependencies r ∧
        Coordinates._base_coords c' ≡ₚ v_base_coords r ∧
        ∀ k, OD.get k (Coordinates._coords c') = OD.get k (v_coords r).
Proof.
  intros Hiter Hnd Hac Hval.
  pose proof (Ok_closed d _ Hval) as Hd.
  destruct (stored_dependencies_spec d r _ Hnd Hval) as [Hnd' Hget].
  set (d' := Coordinates.stored_specs set_iter (v_coords r)).
  assert (same_graph d d') as Hsame.
  { intros c. unfold d'. rewrite get_stored_specs, Hget.
    destruct (OD.get c d) as [sp|]; simpl; [|done]. by rewrite spec_set_stored_spec. }
  destruct (same_graph_result d d' Hnd) as (r0 & r' & Hval0 & Hval' & Hbd & Hbc & Hco);
    [unfold d'; by rewrite keys_stored_specs|done..|].
  assert (r0 = r) as -> by congruence.
  exists (Coordinates.of_validated r'). split_and!; [|done..].
  unfold Coordinates.copy, Coordinates.__init__, Coordinates.__set__.
  change (Coordinates._coords (Coordinates.of_validated r)) with (v_coords r).
  fold d'. by rewrite Hval'.
Qed.

Lemma copy_same_graph_witness :
  let d := [("region", DStr "ind"); ("ind", DNone)] in
  let r := {| v_coords := [("ind", None); ("region", Some {["ind"]})];
              v_base_coords := ["ind"];
              v_base_dependencies := {["ind" := {["ind"]}; "region" := {["ind"]}]} |} in
  ((∀ (X : gset string) x, x ∈ elements X ↔ x ∈ X) ∧ NoDup d.*1 ∧ acyclic d ∧
   _validate_coords (ArgDict d) = Ok (r, ArgDict [])) ∧
  ∃ c', Coordinates.copy elements (Coordinates.of_validated r) = Ok c' ∧
        Coordinates._base_dependencies c' = v_base_dependencies r ∧
        Coordinates._base_coords c' ≡ₚ v_base_coords r ∧
        ∀ k, OD.get k (Coordinates._coords c') = OD.get k (v_coords r).
Proof.
  intros d r.
  assert (∀ (X : gset string) x, x ∈ elements X ↔ x ∈ X) as H0
    by (intros; apply elem_of_elements).
  assert (NoDup d.*1) as H1 by by_decide.
  assert (acyclic d) as H2.
  { apply (ranked_acyclic (λ x, if decide (x = "ind") then 0 else 1)). by_decide. }
  assert (_validate_coords (ArgDict d) = Ok (r, ArgDict [])) as H3 by by_compute.
  split; [done|]. exact (copy_same_graph elements d r _ H0 H1 H2 H3).
Defined.

Lemma get_update {V} (d other : list (string * V)) k :
  NoDup other.*1 →
  OD.get k (OD.update d other) = from_option Some (OD.get k d) (OD.get k other).
Proof.
  unfold OD.update. revert d. induction other as [|[k0 v0] other IH]; intros d Hnd; simpl.
  - done.
  - csimpl in Hnd. apply NoDup_cons in Hnd as [Hk0 Hnd]. rewrite IH by done.
    case_decide as Hk; simplify_eq.
    + apply ODFacts.get_None in Hk0. rewrite Hk0. simpl.
      rewrite ODFacts.get_set. by rewrite decide_True.
    + destruct (OD.get k other); simpl; [done|].
      rewrite ODFacts.get_set. by rewrite decide_False.
Qed.

Lemma keys_update {V} (d other : list (string * V)) :
  NoDup d.*1 → NoDup other.*1 →
  (OD.update d other).*1 = d.*1 ++ filter (λ k, k ∉ d.*1) other.*1.
Proof.
  unfold OD.update. revert d. induction other as [|[k v] other IH]; intros d Hd Hnd; simpl.
  - by rewrite app_nil_r.
  - csimpl in *. apply NoDup_cons in Hnd as [Hk Hnd].
    rewrite IH by (by try apply ODFacts.NoDup_keys_set). rewrite filter_cons.
    destruct (decide (k ∈ d.*1)) as [Hin|Hin].
    + rewrite ODFacts.keys_set_old by done. by rewrite decide_False by naive_solver.
    + rewrite ODFacts.keys_set_new by done. rewrite decide_True by done.
      rewrite <-app_assoc. simpl. do 2 f_equal. apply filter_ext_in.
      intros x Hx. rewrite not_elem_of_app, list_elem_of_singleton. split; [naive_solver|].
      intros ?. split; [done|]. by intros ->.
Qed.

(** C4. [_update] merges the additions into a copy of the prior mapping:
    in the merged mapping a coordinate of the additions has the
    dependency spec of the additions, every other coordinate has its
    stored dependencies, the coordinates of the object keep their
    positions and the new ones follow.  [_update] validates the whole
    merged mapping again.  When that fails, by an error of the validation
    or by the assertion that there is a base coordinate, the three fields
    of the object are as they were before the call; only when it succeeds
    are they replaced, all three, by the result of the validation, which
    then stores the dependencies of the merged mapping and has as base
    coordinates those that the merged mapping gives [None]. *)
Theorem update_atomic set_iter self adds :
  NoDup (Coordinates._coords self).*1 →
  let res := Coordinates._update set_iter adds self in
  let m := Coordinates.merged set_iter self adds in
  let val := _validate_coords (ArgDict m) in
  (NoDup adds.*1 →
     (∀ k, OD.get k m
           = match OD.get k adds with
             | Some sp => Some sp
             | None => Coordinates.stored_spec set_iter <$> OD.get k (Coordinates._coords self)
             end) ∧
     m.*1 = (Coordinates._coords self).*1
            ++ filter (λ k, k ∉ (Coordinates._coords self).*1) adds.*1) ∧
  match res.1 with
  | Ok _ => ∃ r arg', val = Ok (r, arg') ∧ v_base_coords r ≠ [] ∧
                      res.2 = Coordinates.of_validated r ∧
                      (∀ k, OD.get k (Coordinates._coords res.2) = spec_set <$> OD.get k m) ∧
                      (∀ b, b ∈ Coordinates._base_coords res.2 ↔ OD.get b m = Some DNone)
  | Raise e => res.2 = self ∧
               (val = Raise e ∨
                (e = AssertionError ∧ ∃ r arg', val = Ok (r, arg') ∧ v_base_coords r = []))
  | NoFuel => False
  end.
Proof.
  intros Hnd. cbv zeta. split.
  - intros Hadds. unfold Coordinates.merged. split.
    + intros k. rewrite get_update, get_stored_specs by done. by destruct (OD.get k adds).
    + rewrite keys_update; [|by rewrite keys_stored_specs|done].
      by rewrite keys_stored_specs.
  - pose proof (NoDup_merged set_iter self adds Hnd) as Hnd'.
    destruct (update_cases set_iter self adds Hnd)
      as [(r & arg' & Hval & Hb & Hup)|[(r & arg' & Hval & Hb & Hup)|(e & Hval & He & Hup)]];
      rewrite Hup; simpl.
    + exists r, arg'. split_and!; [done..| |].
      * by destruct (stored_dependencies_spec _ r _ Hnd' Hval) as [_ ?].
      * by destruct (base_coords_spec _ r _ Hnd' Hval) as [_ ?].
    + split; [done|]. right. split; [done|]. by exists r, arg'.
    + split; [done|]. by left.
Qed.

(** An object built from [{ind: None}] and the addition [{ind: 'ind'}],
    which makes the merged mapping cyclic. *)
Lemma update_atomic_witness :
  let self := {| Coordinates._coords := [("ind", None)];
                 Coordinates._base_coords := ["ind"];
                 Coordinates._base_dependencies := {["ind" := {["ind"]}]} |} in
  let adds := [("ind", DStr "ind")] in
  NoDup (Coordinates._coords self).*1 ∧
  let res := Coordinates._update elements adds self in
  let m := Coordinates.merged elements self adds in
  let val := _validate_coords (ArgDict m) in
  (NoDup adds.*1 →
     (∀ k, OD.get k m
           = match OD.get k adds with
             | Some sp => Some sp
             | None => Coordinates.stored_spec elements <$> OD.get k (Coordinates._coords self)
             end) ∧
     m.*1 = (Coordinates._coords self).*1
            ++ filter (λ k, k ∉ (Coordinates._coords self).*1) adds.*1) ∧
  match res.1 with
  | Ok _ => ∃ r arg', val = Ok (r, arg') ∧ v_base_coords r ≠ [] ∧
                      res.2 = Coordinates.of_validated r ∧
                      (∀ k, OD.get k (Coordinates._coords res.2) = spec_set <$> OD.get k m) ∧
                      (∀ b, b ∈ Coordinates._base_coords res.2 ↔ OD.get b m = Some DNone)
  | Raise e => res.2 = self ∧
               (val = Raise e ∨
                (e = AssertionError ∧ ∃ r arg', val = Ok (r, arg') ∧ v_base_coords r = []))
  | NoFuel => False
  end.
Proof.
  intros self adds.
  assert (NoDup (Coordinates._coords self).*1) as Hnd by by_decide.
  split; [exact Hnd|]. exact (update_atomic elements self adds Hnd).
Defined.

(** The mapping that [_update] validates: a coordinate of the additions
    has the dependency spec of the additions; every other coordinate has
    its stored dependencies; the coordinates of the object keep their
    positions and the new ones follow in the order of the additions. *)
Theorem merged_lookup set_iter self adds :
  NoDup (Coordinates._coords self).*1 → NoDup adds.*1 →
  (∀ k, OD.get k (Coordinates.merged set_iter self adds)
        = from_option Some
            (Coordinates.stored_spec set_iter <$> OD.get k (Coordinates._coords self))
            (OD.get k adds)) ∧
  (Coordinates.merged set_iter self adds).*1
  = (Coordinates._coords self).*1
    ++ filter (λ k, k ∉ (Coordinates._coords self).*1) adds.*1.
Proof.
  intros Hself Hadds. unfold Coordinates.merged. split.
  - intros k. by rewrite get_update, get_stored_specs.
  - rewrite keys_update; [|by rewrite keys_stored_specs|done].
    by rewrite keys_stored_specs.
Qed.

Lemma merged_lookup_witness :
  let self := {| Coordinates._coords := [("ind", None); ("region", Some {["ind"]})];
                 Coordinates._base_coords := ["ind"];
                 Coordinates._base_dependencies :=
                   {["ind" := {["ind"]}; "region" := {["ind"]}]} |} in
  let adds := [("state", DStr "region"); ("region", DIter ["ind"])] in
  (NoDup (Coordinates._coords self).*1 ∧ NoDup adds.*1) ∧
  (∀ k, OD.get k (Coordinates.merged elements self adds)
        = from_option Some
            (Coordinates.stored_spec elements <$> OD.get k (Coordinates._coords self))
            (OD.get k adds)) ∧
  (Coordinates.merged elements self adds).*1
  = (Coordinates._coords self).*1
    ++ filter (λ k, k ∉ (Coordinates._coords self).*1) adds.*1.
Proof.
  intros self adds.
  assert (NoDup (Coordinates._coords self).*1) as H1 by by_decide.
  assert (NoDup adds.*1) as H2 by by_decide.
  split; [done|]. exact (merged_lookup elements self adds H1 H2).
Defined.

(** [_update] succeeds whenever the merged mapping is an acyclic
    declaration with a base coordinate: the three fields are then those
    of the validation of the merged mapping, in which every set holds the
    base coordinates that the coordinate reaches. *)
Theorem update_acyclic set_iter self adds :
  NoDup (Coordinates._coords self).*1 →
  closed (Coordinates.merged set_iter self adds) →
  acyclic (Coordinates.merged set_iter self adds) →
  has_base (Coordinates.merged set_iter self adds) →
  ∃ self', Coordinates._update set_iter adds self = (Ok (), self') ∧
    Coordinates._base_coords self' ≠ [] ∧
    ∀ c, c ∈ (Coordinates.merged set_iter self adds).*1 →
      ∃ B, Coordinates._base_dependencies self' !! c = Some B ∧
           reach_set (Coordinates.merged set_iter self adds) c B.
Proof.
  intros Hnd Hd Hac Hb.
  pose proof (NoDup_merged set_iter self adds Hnd) as Hnd'.
  destruct (validate_acyclic_reach _ Hnd' Hd Hac) as (r & Hval & Heq).
  assert (v_base_coords r ≠ []) as Hne.
  { apply Exists_exists in Hb as ([b sp] & Hin & Hsp). simpl in Hsp. subst sp.
    apply ODFacts.elem_of_get in Hin; [|done].
    apply (base_coords_spec _ _ _ Hnd' Hval) in Hin.
    intros Hnil. rewrite Hnil in Hin. by apply elem_of_nil in Hin. }
  destruct (update_cases set_iter self adds Hnd)
    as [(r' & arg' & Hval' & Hb' & Hup)|[(r' & arg' & Hval' & Hb' & Hup)|(e & Hval' & _)]];
    rewrite Hval in Hval'; simplify_eq.
  exists (Coordinates.of_validated r'). split_and!; [done..|].
  intros c Hc. by apply Heq.
Qed.

Lemma update_acyclic_witness :
  let self := {| Coordinates._coords := [("ind", None)];
                 Coordinates._base_coords := ["ind"];
                 Coordinates._base_dependencies := {["ind" := {["ind"]}]} |} in
  let adds := [("region", DStr "ind")] in
  (NoDup (Coordinates._coords self).*1 ∧
   closed (Coordinates.merged elements self adds) ∧
   acyclic (Coordinates.merged elements self adds) ∧
   has_base (Coordinates.merged elements self adds)) ∧
  ∃ self', Coordinates._update elements adds self = (Ok (), self') ∧
    Coordinates._base_coords self' ≠ [] ∧
    ∀ c, c ∈ (Coordinates.merged elements self adds).*1 →
      ∃ B, Coordinates._base_dependencies self' !! c = Some B ∧
           reach_set (Coordinates.merged elements self adds) c B.
Proof.
  intros self adds.
  assert (NoDup (Coordinates._coords self).*1) as H1 by by_decide.
  assert (closed (Coordinates.merged elements self adds)) as H2 by by_decide.
  assert (acyclic (Coordinates.merged elements self adds)) as H3.
  { apply (ranked_acyclic (λ x, if decide (x = "ind") then 0 else 1)). by_decide. }
  assert (has_base (Coordinates.merged elements self adds)) as H4 by by_decide.
  split; [done|]. exact (update_acyclic elements self adds H1 H2 H3 H4).
Defined.

(** ** Declarations of base coordinates only *)

Lemma find_base_head fuel c rest s :
  c ∉ visited s → coords s = (c, DNone) :: rest →
  find_coord_dependencies (S fuel) c s
  = Ok (visited_add c (base_deps_new c {[c]}
         (dependencies_set c None (base_coords_append c (set_coords rest s))))).
Proof.
  intros Hv Hc. rewrite find_unfold, decide_False by done. rewrite Hc. simpl.
  by rewrite decide_True.
Qed.

Lemma val_base_deps_new c X k s (f : vstate → vstate) :
  (∀ k l, base_deps s !! k = Some l → l < length (sets s)) →
  base_deps (f (base_deps_new c X s)) = base_deps (base_deps_new c X s) →
  sets (f (base_deps_new c X s)) = sets (base_deps_new c X s) →
  val (f (base_deps_new c X s)) k = if decide (k = c) then Some X else val s k.
Proof.
  intros Hloc Hbd Hsets. unfold val. rewrite Hbd, Hsets. simpl. case_decide as Hk.
  - subst. rewrite lookup_insert_eq. simpl. by rewrite lookup_app_r, Nat.sub_diag.
  - rewrite lookup_insert_ne by done. destruct (base_deps s !! k) as [l|] eqn:E; [|done].
    simpl. rewrite lookup_app_l; [done|]. by eapply Hloc.
Qed.

Lemma validate_loop_all_base names :
  ∀ n s,
    coords s = (λ c, (c, DNone)) <$> names → NoDup names →
    (∀ c, c ∈ names → c ∉ visited s) →
    (∀ c, c ∈ (dependencies s).*1 → c ∈ visited s) →
    (∀ k l, base_deps s !! k = Some l → l < length (sets s)) →
    length names ≤ n →
    ∃ s', validate_loop n s = Ok s' ∧ coords s' = [] ∧
      base_coords s' = base_coords s ++ names ∧
      dependencies s' = dependencies s ++ ((λ c, (c, None)) <$> names) ∧
      ∀ k, val s' k = if decide (k ∈ names) then Some {[k]} else val s k.
Proof.
  induction names as [|c names IH]; intros n s Hc Hnd Hv Hdep Hloc Hn.
  - exists s. destruct n; unfold validate_loop; rewrite Hc; simpl;
      rewrite !app_nil_r; split_and!; try done; intros k; by rewrite decide_False
        by apply not_elem_of_nil.
  - destruct n as [|n]; [simpl in Hn; lia|].
    apply NoDup_cons in Hnd as [Hcn Hnd]. csimpl in Hc.
    rewrite validate_loop_unfold, Hc.
    rewrite (find_base_head _ c ((λ c, (c, DNone)) <$> names)); [|apply Hv; by left|done].
    simpl.
    set (s1 := visited_add c (base_deps_new c {[c]}
      (dependencies_set c None (base_coords_append c
        (set_coords ((λ c, (c, DNone)) <$> names) s))))).
    assert (c ∉ (dependencies s).*1) as Hcd.
    { intros ?. apply (Hv c); [by left|auto]. }
    destruct (IH n s1) as (s' & Hloop & Hc' & Hb' & Hd' & Hval'); [done|done|..].
    + intros c' Hc'. simpl. apply not_elem_of_union. split; [|apply Hv; by right].
      intros ->%elem_of_singleton. done.
    + intros c' [->|?]%ODFacts.elem_of_keys_set; simpl; set_solver.
    + intros k l. simpl. rewrite length_app. simpl.
      destruct (decide (k = c)) as [->|].
      * rewrite lookup_insert_eq. intros ?; simplify_eq. lia.
      * rewrite lookup_insert_ne by done. intros ?%Hloc. lia.
    + simpl in Hn. lia.
    + exists s'. split_and!; [done|done| | |].
      * rewrite Hb'. simpl. by rewrite <-app_assoc.
      * rewrite Hd'. simpl. rewrite set_new by done. by rewrite <-app_assoc.
      * intros k. rewrite Hval'.
        pose proof (val_base_deps_new c {[c]} k
          (dependencies_set c None (base_coords_append c
            (set_coords ((λ c, (c, DNone)) <$> names) s)))
          (visited_add c) Hloc eq_refl eq_refl) as Hv1.
        change (val s1 k = if decide (k = c) then Some {[c]}
                           else val s k) in Hv1.
        rewrite Hv1. rewrite (decide_ext (k ∈ c :: names) (k = c ∨ k ∈ names))
          by apply elem_of_cons.
        destruct (decide (k ∈ names)) as [Hk|Hk]; [by rewrite decide_True by auto|].
        destruct (decide (k = c)) as [->|Hkc]; [by rewrite decide_True by auto|].
        by rewrite decide_False by naive_solver.
Qed.

(* The list path and the mapping path on names that are all base. *)
Lemma all_base_result names :
  NoDup names →
  ∃ r, _validate_coords (ArgList names) = Ok (r, ArgList names) ∧
       _validate_coords (ArgDict ((λ c, (c, DNone)) <$> names)) = Ok (r, ArgDict []).
Proof.
  intros Hnd. destruct (list_path_result names) as (r & Hval & _ & _ & _ & Hbd).
  destruct (validate_list_path_NoDup names r _ Hnd Hval) as [Hbc Hco].
  exists r. split; [done|]. unfold _validate_coords at 1.
  destruct (validate_loop_all_base names (length ((λ c, (c, DNone)) <$> names))
    (init_state ((λ c, (c, DNone)) <$> names))) as (s & -> & Hc & Hb & Hd & Hv);
    [done|done|set_solver| | |by rewrite length_fmap|].
  { intros c Hin. by apply elem_of_nil in Hin. }
  { intros k l. simpl. by rewrite lookup_empty. }
  simpl. rewrite Hc. do 2 f_equal. destruct r as [rc rb rd]. simpl in *. f_equal.
  - by rewrite Hd, Hco.
  - by rewrite Hb, Hbc.
  - apply map_eq. intros k. rewrite base_deps_view_lookup, Hv, Hbd.
    case_decide; [done|]. unfold val. simpl. by rewrite lookup_empty.
Qed.

(** Both paths of [_validate_coords] agree: the mapping that gives [None]
    to each of a list of distinct names is validated to the triple that
    the list itself is. *)
Theorem validate_all_base names :
  NoDup names →
  ∃ r, _validate_coords (ArgList names) = Ok (r, ArgList names) ∧
       _validate_coords (ArgDict ((λ c, (c, DNone)) <$> names)) = Ok (r, ArgDict []).
Proof. exact (all_base_result names). Qed.

Lemma validate_all_base_witness :
  NoDup ["ind1"; "ind2"] ∧
  ∃ r, _validate_coords (ArgList ["ind1"; "ind2"]) = Ok (r, ArgList ["ind1"; "ind2"]) ∧
       _validate_coords (ArgDict ((λ c, (c, DNone)) <$> ["ind1"; "ind2"]))
       = Ok (r, ArgDict []).
Proof.
  assert (NoDup ["ind1"; "ind2"]) as H by by_decide.
  split; [exact H|]. exact (validate_all_base ["ind1"; "ind2"] H).
Defined.

Lemma get_Permutation {V} (d d' : list (string * V)) k :
  NoDup d.*1 → d ≡ₚ d' → OD.get k d = OD.get k d'.
Proof.
  intros Hnd Hp. assert (NoDup d'.*1) as Hnd' by by rewrite <-Hp.
  destruct (OD.get k d) as [v|] eqn:E.
  - symmetry. apply ODFacts.elem_of_get; [done|]. rewrite <-Hp.
    by apply ODFacts.get_elem_of.
  - symmetry. apply ODFacts.get_None. rewrite <-Hp. by apply ODFacts.get_None.
Qed.

Lemma Permutation_same_graph d d' : NoDup d.*1 → d ≡ₚ d' → same_graph d d'.
Proof. intros Hnd Hp c. by rewrite (get_Permutation d d'). Qed.

Lemma all_base_closed_acyclic names :
  closed ((λ c, (c, DNone)) <$> names) ∧ acyclic ((λ c, (c, DNone)) <$> names).
Proof.
  split.
  - apply Forall_forall. intros e (c & -> & _)%list_elem_of_fmap. simpl. constructor.
  - apply (ranked_acyclic (λ _, 0)). apply Forall_forall.
    intros e (c & -> & _)%list_elem_of_fmap. simpl. constructor.
Qed.

Lemma inferred_coords_named names :
  NoDup names → Container.inferred_coords (Some <$> names) = (λ c, (c, DNone)) <$> names.
Proof.
  intros Hnd. unfold Container.inferred_coords.
  assert (∀ (l : list string) (f : nat → nat) acc,
    foldl (λ acc (ic : nat * option string),
             OD.set (Container.init_name ic.1 ic.2) DNone acc) acc
      (imap (λ i, pair (f i)) (Some <$> l))
    = OD.update acc ((λ c, (c, DNone)) <$> l)) as Hgen.
  { induction l as [|c l IH]; intros f acc; [done|].
    csimpl. unfold OD.update. simpl. apply (IH (f ∘ S)). }
  transitivity (OD.update [] ((λ c, (c, DNone)) <$> names)); [exact (Hgen names id [])|].
  apply (update_NoDup _ []). simpl.
  rewrite <-list_fmap_compose. by rewrite list_fmap_id.
Qed.

(** A container whose index levels are all named, with distinct names,
    and that is constructed without [coords]: the inferred declaration
    gives [None] to every level; whatever the order in which the mapping
    is iterated, the object has the level names as base coordinates, each
    with dependency [None] and itself as base-dependency set, and no
    other coordinate.  In the order of the index it is the object that the
    list of names gives. *)
Theorem container_init_named names d' :
  NoDup names → d' ≡ₚ Container.inferred_coords (Some <$> names) →
  (∃ r, _validate_coords (ArgList names) = Ok (r, ArgList names) ∧
        Container.__init__ None (Some <$> names) = Ok (Coordinates.of_validated r)) ∧
  ∃ c, Coordinates.__init__ (ArgDict d') = Ok (c, ArgDict []) ∧
       Coordinates._base_coords c ≡ₚ names ∧
       ∀ k, OD.get k (Coordinates._coords c) = (if decide (k ∈ names) then Some None else None) ∧
            Coordinates._base_dependencies c !! k
            = (if decide (k ∈ names) then Some {[k]} else None).
Proof.
  intros Hnd Hp. rewrite inferred_coords_named in Hp by done.
  destruct (all_base_result names Hnd) as (r & Hlist & Hdict).
  destruct (list_path_result names) as (r0 & Hval & _ & _ & _ & Hbd).
  assert (r0 = r) as -> by congruence.
  destruct (validate_list_path_NoDup names r _ Hnd Hlist) as [Hbc Hco].
  split.
  - exists r. split; [done|]. unfold Container.__init__, Coordinates.__init__,
      Coordinates.__set__. rewrite inferred_coords_named by done. by rewrite Hdict.
  - set (d := (λ c, (c, DNone)) <$> names) in *.
    assert (NoDup d.*1) as Hd.
    { unfold d. rewrite <-list_fmap_compose. by rewrite list_fmap_id. }
    destruct (all_base_closed_acyclic names) as [Hcl Hac].
    destruct (same_graph_result d d' Hd) as (r1 & r' & Hv1 & Hv' & Hbd' & Hbc' & Hco');
      [by rewrite Hp|done..|by apply Permutation_same_graph|].
    assert (r1 = r) as -> by congruence.
    exists (Coordinates.of_validated r'). split_and!.
    + unfold Coordinates.__init__, Coordinates.__set__. by rewrite Hv'.
    + simpl. by rewrite <-Hbc', Hbc.
    + intros k. simpl. rewrite <-Hco', <-Hbd', Hbd. split; [|done].
      rewrite Hco. case_decide as Hk.
      * apply ODFacts.elem_of_get.
        -- rewrite <-list_fmap_compose. by rewrite list_fmap_id.
        -- apply list_elem_of_fmap. by exists k.
      * apply ODFacts.get_None. rewrite <-list_fmap_compose. by rewrite list_fmap_id.
Qed.

Lemma container_init_named_witness :
  let names := ["ind1"; "ind2"] in
  let d' := [("ind2", DNone); ("ind1", DNone)] in
  (NoDup names ∧ d' ≡ₚ Container.inferred_coords (Some <$> names)) ∧
  (∃ r, _validate_coords (ArgList names) = Ok (r, ArgList names) ∧
        Container.__init__ None (Some <$> names) = Ok (Coordinates.of_validated r)) ∧
  ∃ c, Coordinates.__init__ (ArgDict d') = Ok (c, ArgDict []) ∧
       Coordinates._base_coords c ≡ₚ names ∧
       ∀ k, OD.get k (Coordinates._coords c) = (if decide (k ∈ names) then Some None else None) ∧
            Coordinates._base_dependencies c !! k
            = (if decide (k ∈ names) then Some {[k]} else None).
Proof.
  intros names d'.
  assert (NoDup names) as H1 by by_decide.
  assert (d' ≡ₚ Container.inferred_coords (Some <$> names)) as H2.
  { unfold d', names. rewrite inferred_coords_named by done. simpl. apply Permutation_swap. }
  split; [done|]. exact (container_init_named names d' H1 H2).
Defined.

(** ** The textual representation of the coordinates *)

(** [sep.join(l)] *)
Fixpoint join (sep : string) (l : list string) : string :=
  match l with
  | [] => EmptyString
  | x :: l' => match l' with [] => x | _ => x +:+ sep +:+ join sep l' end
  end.

(** ['{: <10}'.format(s)]: [s], filled on the right with spaces up to [n]
    characters; a longer [s] is kept whole. *)
Definition ljust (n : nat) (s : string) : string :=
  s +:+ String.string_of_list_ascii (replicate (n - String.length s) (Ascii.ascii_of_nat 32)).

(** The newline. *)
Definition nl : string := String (Ascii.ascii_of_nat 10) EmptyString.

Lemma append_cons a s1 s2 : String a s1 +:+ s2 = String a (s1 +:+ s2).
Proof. reflexivity. Qed.

Lemma length_append s1 s2 : String.length (s1 +:+ s2) = String.length s1 + String.length s2.
Proof. induction s1 as [|a s1 IH]; [done|]. rewrite append_cons. simpl. by rewrite IH. Qed.

Lemma append_assoc s1 s2 s3 : (s1 +:+ s2) +:+ s3 = s1 +:+ (s2 +:+ s3).
Proof. induction s1 as [|a s1 IH]; [done|]. rewrite !append_cons. by rewrite IH. Qed.

Lemma append_empty_r s : s +:+ EmptyString = s.
Proof. induction s as [|a s IH]; [done|]. rewrite append_cons. by rewrite IH. Qed.

Lemma join_snoc sep l x :
  join sep (l ++ [x]) = match l with [] => x | _ => join sep l +:+ sep +:+ x end.
Proof.
  induction l as [|a l IH]; [done|].
  change ((a :: l) ++ [x]) with (a :: (l ++ [x])).
  destruct l as [|b l]; [done|].
  change (join sep (a :: (b :: l) ++ [x])) with (a +:+ sep +:+ join sep ((b :: l) ++ [x])).
  rewrite IH.
  change (join sep (a :: b :: l)) with (a +:+ sep +:+ join sep (b :: l)).
  by rewrite !append_assoc.
Qed.

(** A loop whose body returns on every element returns. *)
Lemma for_each_total {A S} (body : A → S → outcome S) l :
  (∀ x s, x ∈ l → ∃ s', body x s = Ok s') → ∀ s, ∃ s', for_each body l s = Ok s'.
Proof.
  induction l as [|x l IH]; intros Hbody s; simpl; [eauto|].
  destruct (Hbody x s) as [s1 ->]; [by left|]. simpl.
  apply IH. intros y s2 Hy. apply Hbody. by right.
Qed.

Section repr.
(** The iteration order of a Python set. *)
Variable set_iter : gset string → list string.
(** What pandas gives for a coordinate: the labels of its index level,
    each as [str] prints it, and the name of their dtype.  It fails when
    the index has no level of that name. *)
Variable coord_data : string → outcome (list string * string).

(** The loop of [repr_coord] over the labels, from the label number [i]
    on, with the text [coordstr] built so far. *)
Fixpoint repr_values (maxlen i : nat) (coordstr : string) (data : list string) : string :=
  match data with
  | [] => coordstr
  | ind :: data =>
      if decide (maxlen < String.length coordstr + String.length ind + 5)
      then coordstr +:+ "..."
      else
        let coordstr := if decide (0 < i) then coordstr +:+ ", " else coordstr in
        repr_values maxlen (S i) (coordstr +:+ ind) data
  end.

(** The text that [repr_coord] builds before its loop: the mark of a base
    coordinate, the name in a field of ten characters, the dependencies
    (the name itself for a base coordinate) and the dtype.
    [self.coords[coord]] raises [KeyError] for a name that is not
    declared, and [join] raises [TypeError] on the [None] of a base
    coordinate. *)
Definition repr_header (coords : list (string * option (gset string)))
    (dtype coord : string) (base : bool) : outcome string :=
  let coordstr := if base then "  * " else "    " in
  let coordstr := coordstr +:+ ljust 10 coord in
  inner ← (if base then Ok coord
           else deps ← getitem (OD.get coord coords);
                match deps with
                | None => Raise TypeError
                | Some deps => Ok (join "," (set_iter deps))
                end);
  let coordstr := coordstr +:+ (" (" +:+ inner +:+ ")") in
  Ok (coordstr +:+ (" " +:+ dtype +:+ " ")).

(** [repr_coord(self, coord, base=False, maxlen=50)] *)
Definition repr_coord (coords : list (string * option (gset string)))
    (coord : string) (base : bool) (maxlen : nat) : outcome string :=
  '(coord_data, dtype) ← coord_data coord;
  coordstr ← repr_header coords dtype coord base;
  Ok (repr_values maxlen 0 coordstr coord_data).

(** The property [coords_str]: the base coordinates, then the others. *)
Definition coords_str (c : Coordinates.t) : outcome string :=
  coords_str ← for_each (λ base coords_str,
      r ← repr_coord (Coordinates._coords c) base true 50;
      Ok (coords_str +:+ (nl +:+ r)))
    (Coordinates._base_coords c) "Coordinates";
  for_each (λ coord coords_str,
      r ← repr_coord (Coordinates._coords c) coord false 50;
      Ok (coords_str +:+ (nl +:+ r)))
    (filter (λ c', c' ∉ Coordinates._base_coords c) (Coordinates._coords c).*1) coords_str.
(** One round of the loop adds one label to the text shown. *)
Lemma repr_values_step hdr shown ind :
  (if decide (0 < length shown) then (hdr +:+ join ", " shown) +:+ ", "
   else hdr +:+ join ", " shown) +:+ ind
  = hdr +:+ join ", " (shown ++ [ind]).
Proof.
  rewrite join_snoc. destruct shown as [|a shown]; simpl length.
  - rewrite decide_False by lia. simpl join. by rewrite append_empty_r.
  - rewrite decide_True by lia. by rewrite !append_assoc.
Qed.

(** The loop stops at the first label that does not fit. *)
Lemma repr_values_spec maxlen hdr data : ∀ shown,
  ∃ k, k ≤ length data ∧
    repr_values maxlen (length shown) (hdr +:+ join ", " shown) data
    = (hdr +:+ join ", " (shown ++ take k data))
      +:+ (if decide (k < length data) then "..." else EmptyString) ∧
    (∀ ind, data !! k = Some ind →
       maxlen < String.length (hdr +:+ join ", " (shown ++ take k data))
                + String.length ind + 5) ∧
    (∀ j ind, j < k → data !! j = Some ind →
       String.length (hdr +:+ join ", " (shown ++ take j data))
       + String.length ind + 5 ≤ maxlen).
Proof.
  induction data as [|ind data IH]; intros shown.
  - exists 0. simpl. rewrite app_nil_r, append_empty_r. split_and!; [done|done|done|lia].
  - simpl repr_values. case_decide as Hover.
    + exists 0. simpl take. rewrite app_nil_r. simpl length.
      rewrite decide_True by lia. split_and!; [lia|reflexivity| |lia].
      intros x Hx. simpl in Hx. simplify_eq. lia.
    + rewrite repr_values_step.
      replace (S (length shown)) with (length (shown ++ [ind])) by (rewrite length_app; simpl; lia).
      assert (∀ l, (shown ++ [ind]) ++ l = shown ++ ind :: l) as Hcm.
      { intros l. by rewrite <-(assoc_L (++)). }
      destruct (IH (shown ++ [ind])) as (k & Hk & -> & Hstop & Hfit).
      setoid_rewrite Hcm in Hstop. setoid_rewrite Hcm in Hfit. rewrite Hcm.
      exists (S k). simpl take. simpl length.
      split_and!; [lia| |intros x Hx; simpl in Hx; by apply Hstop|].
      * repeat case_decide; (done || lia).
      * intros [|j] x Hj Hx; simpl in Hx.
        -- simplify_eq. simpl take. rewrite app_nil_r. lia.
        -- simpl take. apply Hfit; [lia|done].
Qed.

(** What [repr_coord] shows: after the header, as many of the leading
    labels as fit, separated by commas, and an ellipsis exactly when a
    label is left out.  A label fits when the text so far, the label and
    five more characters do not exceed [maxlen]. *)
Theorem repr_coord_shape coords coord base maxlen out :
  repr_coord coords coord base maxlen = Ok out →
  ∃ data dtype hdr k,
    coord_data coord = Ok (data, dtype) ∧
    repr_header coords dtype coord base = Ok hdr ∧
    k ≤ length data ∧
    out = (hdr +:+ join ", " (take k data))
          +:+ (if decide (k < length data) then "..." else EmptyString) ∧
    (∀ ind, data !! k = Some ind →
       maxlen < String.length (hdr +:+ join ", " (take k data)) + String.length ind + 5) ∧
    (∀ j ind, j < k → data !! j = Some ind →
       String.length (hdr +:+ join ", " (take j data)) + String.length ind + 5 ≤ maxlen).
Proof.
  unfold repr_coord. intros Hout.
  apply bind_Ok in Hout as ([data dtype] & Hdata & Hout).
  apply bind_Ok in Hout as (hdr & Hhdr & Hout). simplify_eq.
  destruct (repr_values_spec maxlen hdr data []) as (k & Hk & Heq & Hstop & Hfit).
  simpl in Heq, Hstop, Hfit. rewrite append_empty_r in Heq.
  exists data, dtype, hdr, k. split_and!; done.
Qed.

(** The text of [repr_coord] is at most [maxlen] characters long, unless
    the header alone does not leave room: then it is the header, or the
    header and the ellipsis. *)
Theorem repr_coord_length coords coord base maxlen out :
  repr_coord coords coord base maxlen = Ok out →
  ∃ data dtype hdr,
    coord_data coord = Ok (data, dtype) ∧
    repr_header coords dtype coord base = Ok hdr ∧
    (String.length out ≤ maxlen ∨ out = hdr ∨ out = hdr +:+ "...").
Proof.
  unfold repr_coord. intros Hout.
  apply bind_Ok in Hout as ([data dtype] & Hdata & Hout).
  apply bind_Ok in Hout as (hdr & Hhdr & Hout). simplify_eq.
  exists data, dtype, hdr. split_and!; [done..|].
  destruct (repr_values_spec maxlen hdr data []) as (k & Hk & Heq & Hstop & Hfit).
  simpl in Heq, Hstop, Hfit. rewrite append_empty_r in Heq. rewrite Heq.
  destruct k as [|k].
  - right. simpl. rewrite append_empty_r. case_decide; [by right|left; apply append_empty_r].
  - left. destruct (lookup_lt_is_Some_2 data k) as [ind Hind]; [lia|].
    specialize (Hfit k ind (Nat.lt_succ_diag_r k) Hind).
    rewrite (take_S_r _ _ _ Hind), join_snoc.
    rewrite !length_append in *.
    assert (String.length (if decide (S k < length data) then "..." else EmptyString) ≤ 3)
      as Hdots by (case_decide; simpl; lia).
    destruct (take k data) as [|a l]; [simpl in *; lia|].
    rewrite !length_append. change (String.length ", ") with 2. lia.
Qed.

(** The representation of validated coordinates never fails on the
    mapping: when the index gives the labels of every declared
    coordinate, [coords_str] returns.  The coordinates it shows without
    the base mark are those stored with a set of dependencies, which
    [join] accepts. *)
Theorem coords_str_returns d c arg' :
  NoDup d.*1 → Coordinates.__init__ (ArgDict d) = Ok (c, arg') →
  (∀ x, x ∈ d.*1 → ∃ r, coord_data x = Ok r) →
  ∃ out, coords_str c = Ok out.
Proof.
  intros Hnd Hinit Hdata. unfold Coordinates.__init__, Coordinates.__set__ in Hinit.
  apply bind_Ok in Hinit as ([r a] & Hval & Hinit). simplify_eq.
  destruct (stored_dependencies_spec d r _ Hnd Hval) as [_ Hget].
  destruct (base_coords_spec d r _ Hnd Hval) as [_ Hbase].
  unfold coords_str. simpl.
  edestruct (for_each_total (λ base coords_str,
      r ← repr_coord (v_coords r) base true 50; Ok (coords_str +:+ (nl +:+ r)))
    (v_base_coords r)) with "Coordinates" as [s1 ->].
  { intros b s Hb. apply Hbase in Hb.
    destruct (Hdata b) as [[data dtype] Hd]; [by eapply ODFacts.get_Some_keys|].
    unfold repr_coord. rewrite Hd. simpl. eauto. }
  simpl. apply for_each_total. intros x s [Hnb Hx]%list_elem_of_filter.
  apply ODFacts.get_is_Some in Hx as [v Hv]. pose proof Hv as Hv'. rewrite Hget in Hv'.
  destruct (OD.get x d) as [sp|] eqn:Hsp; [|done]. simpl in Hv'. simplify_eq.
  destruct (Hdata x) as [[data dtype] Hd]; [by eapply ODFacts.get_Some_keys|].
  unfold repr_coord, repr_header. rewrite Hd. simpl. rewrite Hv. simpl.
  destruct sp as [|y|ys]; simpl; [|eauto..].
  exfalso. apply Hnb, Hbase. done.
Qed.
End repr.

Lemma repr_coord_shape_witness :
  let coord_data := λ _ : string, Ok (["10"; "20"; "30"], "int64") in
  let coords : list (string * option (gset string)) := [("ind", None)] in
  let out := "  * ind        (ind) int64 10, 20..." in
  repr_coord elements coord_data coords "ind" true 38 = Ok out ∧
  ∃ data dtype hdr k,
    coord_data "ind" = Ok (data, dtype) ∧
    repr_header elements coords dtype "ind" true = Ok hdr ∧
    k ≤ length data ∧
    out = (hdr +:+ join ", " (take k data))
          +:+ (if decide (k < length data) then "..." else EmptyString) ∧
    (∀ ind, data !! k = Some ind →
       38 < String.length (hdr +:+ join ", " (take k data)) + String.length ind + 5) ∧
    (∀ j ind, j < k → data !! j = Some ind →
       String.length (hdr +:+ join ", " (take j data)) + String.length ind + 5 ≤ 38).
Proof.
  intros coord_data coords out.
  assert (repr_coord elements coord_data coords "ind" true 38 = Ok out) as H by by_compute.
  split; [exact H|]. exact (repr_coord_shape elements coord_data coords "ind" true 38 out H).
Defined.

Lemma repr_coord_length_witness :
  let coord_data := λ _ : string, Ok (["10"; "20"; "30"], "int64") in
  let coords : list (string * option (gset string)) :=
    [("ind", None); ("reg", Some {["ind"]})] in
  let out := "    reg        (ind) int64 10, 20, 30" in
  repr_coord elements coord_data coords "reg" false 50 = Ok out ∧
  ∃ data dtype hdr,
    coord_data "reg" = Ok (data, dtype) ∧
    repr_header elements coords dtype "reg" false = Ok hdr ∧
    (String.length out ≤ 50 ∨ out = hdr ∨ out = hdr +:+ "...").
Proof.
  intros coord_data coords out.
  assert (repr_coord elements coord_data coords "reg" false 50 = Ok out) as H by by_compute.
  split; [exact H|]. exact (repr_coord_length elements coord_data coords "reg" false 50 out H).
Defined.

Lemma coords_str_returns_witness :
  let coord_data := λ _ : string, Ok (["10"; "20"; "30"], "int64") in
  let d := [("ind", DNone); ("reg", DStr "ind")] in
  let c := {| Coordinates._coords := [("ind", None); ("reg", Some {["ind"]})];
              Coordinates._base_coords := ["ind"];
              Coordinates._base_dependencies := {["ind" := {["ind"]}; "reg" := {["ind"]}]} |} in
  (NoDup d.*1 ∧ Coordinates.__init__ (ArgDict d) = Ok (c, ArgDict []) ∧
   ∀ x, x ∈ d.*1 → ∃ r, coord_data x = Ok r) ∧
  ∃ out, coords_str elements coord_data c = Ok out.
Proof.
  intros coord_data d c.
  assert (NoDup d.*1) as H1 by by_decide.
  assert (Coordinates.__init__ (ArgDict d) = Ok (c, ArgDict [])) as H2 by by_compute.
  assert (∀ x, x ∈ d.*1 → ∃ r, coord_data x = Ok r) as H3 by (intros x _; by eexists).
  split; [done|]. exact (coords_str_returns elements coord_data d c _ H1 H2 H3).
Defined.

(** ** The constructors of [Series] and [DataFrame] *)

(** The [attrs] dictionary given to a constructor: its entry ['coords'], a
    declaration, its entry ['variables'], and its other entries. *)
Record attrs_dict : Type := Attrs {
  a_coords : option (list (string * dep_spec));
  a_variables : option (list (string * string));
  a_other : list (string * string) }.

(** [attrs.pop('coords', {})] *)
Definition pop_coords (attrs : attrs_dict) : list (string * dep_spec) * attrs_dict :=
  (default [] (a_coords attrs),
   {| a_coords := None; a_variables := a_variables attrs; a_other := a_other attrs |}).

(** [attrs.pop('variables', {})] *)
Definition pop_variables (attrs : attrs_dict) : list (string * string) * attrs_dict :=
  (default [] (a_variables attrs),
   {| a_coords := a_coords attrs; a_variables := None; a_other := a_other attrs |}).

Module Series.
Section init.
Context {Args T : Type}.
(** [pd.Series.__init__] on the remaining arguments, and the level names
    of the index it builds. *)
Variable pd_init : Args → outcome T.
Variable index_names : T → list (option string).

Record t : Type := Make {
  table : T;
  attrs : attrs_dict;
  _coords : Coordinates.t }.

(** [__init__(self, *args, **kwargs)], with the keywords [attrs] and
    [coords] when they are given. *)
Definition __init__ (args : Args) (kw_attrs : option attrs_dict)
    (kw_coords : option (list (string * dep_spec))) : outcome t :=
  let attrs := default (Attrs None None []) kw_attrs in
  let '(coords, attrs) := pop_coords attrs in
  let coords := OD.update coords (default [] kw_coords) in
  table ← pd_init args;
  c ← Container.__init__ (Some (ArgDict coords)) (index_names table);
  Ok {| table := table; attrs := attrs; _coords := c |}.
End init.
End Series.

Module DataFrame.
Section init.
Context {Args T : Type}.
(** [pd.DataFrame.__init__] on the remaining arguments, and the level
    names of the index it builds. *)
Variable pd_init : Args → outcome T.
Variable index_names : T → list (option string).

Record t : Type := Make {
  table : T;
  attrs : attrs_dict;
  _coords : Coordinates.t;
  variables : list (string * string) }.

(** [__init__(self, *args, **kwargs)], with the keywords [attrs],
    [coords] and [variables] when they are given. *)
Definition __init__ (args : Args) (kw_attrs : option attrs_dict)
    (kw_coords : option (list (string * dep_spec)))
    (kw_variables : option (list (string * string))) : outcome t :=
  let attrs := default (Attrs None None []) kw_attrs in
  let '(coords, attrs) := pop_coords attrs in
  let '(variables, attrs) := pop_variables attrs in
  let coords := OD.update coords (default [] kw_coords) in
  let variables := OD.update variables (default [] kw_variables) in
  table ← pd_init args;
  c ← Container.__init__ (Some (ArgDict coords)) (index_names table);
  Ok {| table := table; attrs := attrs; _coords := c; variables := variables |}.
End init.
End DataFrame.

(** The entry of [k] after [d.update(other)]: that of [other] if it has
    one. *)
Definition updated {V} (d other : list (string * V)) (k : string) : option V :=
  match OD.get k other with
  | Some v => Some v
  | None => OD.get k d
  end.

(** The coordinates that [Container.__init__] makes of a mapping updated
    with another. *)
Lemma init_updated ac kc names c :
  NoDup ac.*1 → NoDup kc.*1 →
  Container.__init__ (Some (ArgDict (OD.update ac kc))) names = Ok c →
  (∀ k, OD.get k (Coordinates._coords c) = spec_set <$> updated ac kc k) ∧
  (∀ b, b ∈ Coordinates._base_coords c ↔ updated ac kc b = Some DNone).
Proof.
  intros Ha Hk Hinit. unfold Container.__init__, Coordinates.__init__, Coordinates.__set__ in Hinit.
  apply bind_Ok in Hinit as ([c' a'] & Hinit & ?). simplify_eq.
  apply bind_Ok in Hinit as ([r a] & Hval & ?). simplify_eq.
  pose proof (NoDup_update ac kc Ha) as Hnd.
  destruct (stored_dependencies_spec _ r _ Hnd Hval) as [_ Hget].
  destruct (base_coords_spec _ r _ Hnd Hval) as [_ Hbase].
  assert (∀ k, OD.get k (OD.update ac kc) = updated ac kc k) as Hup.
  { intros k. rewrite get_update by done. unfold updated. by destruct (OD.get k kc). }
  split; intros k; simpl.
  - by rewrite Hget, Hup.
  - by rewrite Hbase, Hup.
Qed.

Section constructors.
Context {Args T : Type}.
Variable pd_init : Args → outcome T.
Variable index_names : T → list (option string).

(** The coordinates of a [Series] are declared by the entry ['coords'] of
    [attrs] updated with the keyword [coords]: a coordinate given in both
    has the dependencies of the keyword.  The entry ['coords'] is taken
    out of the attributes that the series keeps; the other entries stay. *)
Theorem series_init_coords args kw_attrs kw_coords self :
  let ac := default [] (kw_attrs ≫= a_coords) in
  let kc := default [] kw_coords in
  NoDup ac.*1 → NoDup kc.*1 →
  Series.__init__ pd_init index_names args kw_attrs kw_coords = Ok self →
  (∀ k, OD.get k (Coordinates._coords (Series._coords self))
        = spec_set <$> updated ac kc k) ∧
  (∀ b, b ∈ Coordinates._base_coords (Series._coords self)
        ↔ updated ac kc b = Some DNone) ∧
  a_coords (Series.attrs self) = None ∧
  a_variables (Series.attrs self) = kw_attrs ≫= a_variables ∧
  a_other (Series.attrs self) = default [] (a_other <$> kw_attrs).
Proof.
  intros ac kc Ha Hk Hinit. unfold Series.__init__ in Hinit. simpl in Hinit.
  apply bind_Ok in Hinit as (table & _ & Hinit).
  apply bind_Ok in Hinit as (c & Hc & ?). simplify_eq. simpl.
  assert (default [] (a_coords (default (Attrs None None []) kw_attrs)) = ac) as Hac.
  { unfold ac. by destruct kw_attrs. }
  rewrite Hac in Hc. destruct (init_updated ac kc _ c Ha Hk Hc) as [Hget Hbase].
  split_and!; [done|done|done|by destruct kw_attrs..].
Qed.

(** A [Series] made without any declaration has no coordinates, whatever
    the level names of its index: the constructor passes an empty mapping
    on, never [None], so that nothing is inferred from the index. *)
Theorem series_init_no_inference args kw_attrs table :
  kw_attrs ≫= a_coords = None →
  pd_init args = Ok table →
  ∃ self, Series.__init__ pd_init index_names args kw_attrs None = Ok self ∧
    Coordinates._coords (Series._coords self) = [] ∧
    Coordinates._base_coords (Series._coords self) = [] ∧
    Coordinates._base_dependencies (Series._coords self) = ∅.
Proof.
  intros Hno Hpd. unfold Series.__init__. simpl.
  assert (a_coords (default (Attrs None None []) kw_attrs) = None) as ->.
  { by destruct kw_attrs. }
  rewrite Hpd. simpl. eexists. split; [reflexivity|]. done.
Qed.

(** [DataFrame] declares its coordinates as [Series] does, and its
    variables likewise: the entry ['variables'] of [attrs] updated with
    the keyword [variables].  Both entries are taken out of the
    attributes that the frame keeps. *)
Theorem dataframe_init_coords args kw_attrs kw_coords kw_variables self :
  let ac := default [] (kw_attrs ≫= a_coords) in
  let kc := default [] kw_coords in
  let av := default [] (kw_attrs ≫= a_variables) in
  let kv := default [] kw_variables in
  NoDup ac.*1 → NoDup kc.*1 → NoDup kv.*1 →
  DataFrame.__init__ pd_init index_names args kw_attrs kw_coords kw_variables = Ok self →
  (∀ k, OD.get k (Coordinates._coords (DataFrame._coords self))
        = spec_set <$> updated ac kc k) ∧
  (∀ b, b ∈ Coordinates._base_coords (DataFrame._coords self)
        ↔ updated ac kc b = Some DNone) ∧
  (∀ k, OD.get k (DataFrame.variables self) = updated av kv k) ∧
  a_coords (DataFrame.attrs self) = None ∧
  a_variables (DataFrame.attrs self) = None ∧
  a_other (DataFrame.attrs self) = default [] (a_other <$> kw_attrs).
Proof.
  intros ac kc av kv Ha Hk Hv Hinit. unfold DataFrame.__init__ in Hinit. simpl in Hinit.
  apply bind_Ok in Hinit as (table & _ & Hinit).
  apply bind_Ok in Hinit as (c & Hc & ?). simplify_eq. simpl.
  assert (default [] (a_coords (default (Attrs None None []) kw_attrs)) = ac) as Hac.
  { unfold ac. by destruct kw_attrs. }
  assert (default [] (a_variables (default (Attrs None None []) kw_attrs)) = av) as Hav.
  { unfold av. by destruct kw_attrs. }
  rewrite Hac in Hc. rewrite Hav. destruct (init_updated ac kc _ c Ha Hk Hc) as [Hget Hbase].
  split_and!; [done|done| |done|done|by destruct kw_attrs].
  intros k. rewrite get_update by done. unfold updated, kv. by destruct (OD.get k _).
Qed.
End constructors.

Lemma series_init_coords_witness :
  let pd_init := λ _ : unit, Ok [Some "ind"] in
  let kw_attrs := Some (Attrs (Some [("ind", DNone); ("reg", DStr "cell")]) None
                              [("author", "me")]) in
  let kw_coords := Some [("reg", DStr "ind")] in
  let self := {| Series.table := [Some "ind"];
                 Series.attrs := Attrs None None [("author", "me")];
                 Series._coords :=
                   {| Coordinates._coords := [("ind", None); ("reg", Some {["ind"]})];
                      Coordinates._base_coords := ["ind"];
                      Coordinates._base_dependencies :=
                        {["ind" := {["ind"]}; "reg" := {["ind"]}]} |} |} in
  let ac := default [] (kw_attrs ≫= a_coords) in
  let kc := default [] kw_coords in
  (NoDup ac.*1 ∧ NoDup kc.*1 ∧ Series.__init__ pd_init id () kw_attrs kw_coords = Ok self) ∧
  (∀ k, OD.get k (Coordinates._coords (Series._coords self))
        = spec_set <$> updated ac kc k) ∧
  (∀ b, b ∈ Coordinates._base_coords (Series._coords self)
        ↔ updated ac kc b = Some DNone) ∧
  a_coords (Series.attrs self) = None ∧
  a_variables (Series.attrs self) = kw_attrs ≫= a_variables ∧
  a_other (Series.attrs self) = default [] (a_other <$> kw_attrs).
Proof.
  intros pd_init kw_attrs kw_coords self ac kc.
  assert (NoDup ac.*1) as H1 by by_decide.
  assert (NoDup kc.*1) as H2 by by_decide.
  assert (Series.__init__ pd_init id () kw_attrs kw_coords = Ok self) as H3 by by_compute.
  split; [done|]. exact (series_init_coords pd_init id () kw_attrs kw_coords self H1 H2 H3).
Defined.

Lemma series_init_no_inference_witness :
  let pd_init := λ _ : unit, Ok [Some "ind"] in
  let kw_attrs := Some (Attrs None None [("author", "me")]) in
  (kw_attrs ≫= a_coords = None ∧ pd_init () = Ok [Some "ind"]) ∧
  ∃ self, Series.__init__ pd_init id () kw_attrs None = Ok self ∧
    Coordinates._coords (Series._coords self) = [] ∧
    Coordinates._base_coords (Series._coords self) = [] ∧
    Coordinates._base_dependencies (Series._coords self) = ∅.
Proof.
  intros pd_init kw_attrs.
  assert (kw_attrs ≫= a_coords = None) as H1 by reflexivity.
  assert (pd_init () = Ok [Some "ind"]) as H2 by reflexivity.
  split; [done|]. exact (series_init_no_inference pd_init id () kw_attrs _ H1 H2).
Defined.

Lemma dataframe_init_coords_witness :
  let pd_init := λ _ : unit, Ok [Some "ind"] in
  let kw_attrs := Some (Attrs (Some [("ind", DNone)]) (Some [("pop", "people")])
                              [("author", "me")]) in
  let kw_coords := Some [("reg", DStr "ind")] in
  let kw_variables := Some [("pop", "population"); ("gdp", "product")] in
  let self := {| DataFrame.table := [Some "ind"];
                 DataFrame.attrs := Attrs None None [("author", "me")];
                 DataFrame._coords :=
                   {| Coordinates._coords := [("ind", None); ("reg", Some {["ind"]})];
                      Coordinates._base_coords := ["ind"];
                      Coordinates._base_dependencies :=
                        {["ind" := {["ind"]}; "reg" := {["ind"]}]} |};
                 DataFrame.variables := [("pop", "population"); ("gdp", "product")] |} in
  let ac := default [] (kw_attrs ≫= a_coords) in
  let kc := default [] kw_coords in
  let av := default [] (kw_attrs ≫= a_variables) in
  let kv := default [] kw_variables in
  (NoDup ac.*1 ∧ NoDup kc.*1 ∧ NoDup kv.*1 ∧
   DataFrame.__init__ pd_init id () kw_attrs kw_coords kw_variables = Ok self) ∧
  (∀ k, OD.get k (Coordinates._coords (DataFrame._coords self))
        = spec_set <$> updated ac kc k) ∧
  (∀ b, b ∈ Coordinates._base_coords (DataFrame._coords self)
        ↔ updated ac kc b = Some DNone) ∧
  (∀ k, OD.get k (DataFrame.variables self) = updated av kv k) ∧
  a_coords (DataFrame.attrs self) = None ∧
  a_variables (DataFrame.attrs self) = None ∧
  a_other (DataFrame.attrs self) = default [] (a_other <$> kw_attrs).
Proof.
  intros pd_init kw_attrs kw_coords kw_variables self ac kc av kv.
  assert (NoDup ac.*1) as H1 by by_decide.
  assert (NoDup kc.*1) as H2 by by_decide.
  assert (NoDup kv.*1) as H3 by by_decide.
  assert (DataFrame.__init__ pd_init id () kw_attrs kw_coords kw_variables = Ok self) as H4
    by by_compute.
  split; [done|].
  exact (dataframe_init_coords pd_init id () kw_attrs kw_coords kw_variables self H1 H2 H3 H4).
Defined.
